(** * STRUMPACK: the distributed block-cyclic dense matrix layer

    A shallow embedding of [src/dense/DistributedMatrix.hpp]: the index
    mappings [indxl2g], [indxg2l], [indxg2p], the classes
    [DistributedMatrix] and [DistributedMatrixWrapper] with their local
    buffers kept in an explicit heap, and the operations built on them.

    Conventions.
    - A C++ [int] is a [Z] in the range [INT_MIN .. INT_MAX]; the
      arithmetic wraps around ([wrap]), division truncates toward zero
      ([Z.quot], [Z.rem]); a division by zero and the division of
      [INT_MIN] by [-1] are errors.
    - A [std::size_t] is a [Z] in the range [0 .. 2^64 - 1]; its
      arithmetic is modulo [2^64] ([to_size_t]).
    - A pointer is an [option addr]; [None] is [nullptr].  The heap maps
      an address to the contents of the array allocated there.
    - Code that can fail (a failed [assert], [abort()], an access outside
      an array, a null dereference) returns [None]. *)

From Stdlib Require Import ZArith Lia List Floats Ascii.
From stdpp Require Import base option list gmap.

Open Scope Z_scope.

(** ** Machine integers *)

Module Int.

Definition INT_MIN : Z := -2147483648.
Definition INT_MAX : Z := 2147483647.

Definition in_range (z : Z) : Prop := INT_MIN <= z <= INT_MAX.

(** Two's complement wrap-around of a 32-bit [int]. *)
Definition wrap (z : Z) : Z :=
  (z + 2147483648) `mod` 4294967296 - 2147483648.

Definition add (a b : Z) : Z := wrap (a + b).
Definition sub (a b : Z) : Z := wrap (a - b).
Definition mul (a b : Z) : Z := wrap (a * b).

(** [a / b] and [a % b] of C++: truncation toward zero.  The quotient
    of [INT_MIN] by [-1] is no [int]: the division traps, as it does on
    a zero divisor. *)
Definition div (a b : Z) : option Z :=
  if decide (b = 0) then None
  else if decide (a = INT_MIN ∧ b = -1) then None
  else Some (wrap (a `quot` b)).
Definition rem (a b : Z) : option Z :=
  if decide (b = 0) then None
  else if decide (a = INT_MIN ∧ b = -1) then None
  else Some (a `rem` b).

Definition max (a b : Z) : Z := if decide (a < b) then b else a.
Definition min (a b : Z) : Z := if decide (b < a) then b else a.

Lemma wrap_id z : in_range z → wrap z = z.
Proof.
  unfold in_range, INT_MIN, INT_MAX, wrap. intros Hz.
  rewrite Z.mod_small; lia.
Qed.

Lemma wrap_in_range z : in_range (wrap z).
Proof.
  unfold in_range, INT_MIN, INT_MAX, wrap.
  pose proof (Z.mod_pos_bound (z + 2147483648) 4294967296). lia.
Qed.

Lemma add_exact a b : in_range (a + b) → add a b = a + b.
Proof. apply wrap_id. Qed.

Lemma sub_exact a b : in_range (a - b) → sub a b = a - b.
Proof. apply wrap_id. Qed.

Lemma mul_exact a b : in_range (a * b) → mul a b = a * b.
Proof. apply wrap_id. Qed.

Lemma div_exact a b :
  0 <= a → 0 < b → in_range a → div a b = Some (a `div` b).
Proof.
  intros Ha Hb Hr. unfold div. destruct (decide (b = 0)) as [->|_]; [lia|].
  rewrite decide_False by lia.
  rewrite Z.quot_div_nonneg by lia. f_equal. apply wrap_id.
  unfold in_range, INT_MIN, INT_MAX in *.
  pose proof (Z.div_pos a b Ha Hb).
  pose proof (Z.div_le_upper_bound a b a Hb). nia.
Qed.

Lemma rem_exact a b :
  0 <= a → 0 < b → rem a b = Some (a `mod` b).
Proof.
  intros Ha Hb. unfold rem. destruct (decide (b = 0)) as [->|_]; [lia|].
  rewrite decide_False by lia.
  by rewrite Z.rem_mod_nonneg by lia.
Qed.

End Int.

(** An integer converted to [std::size_t], and the sum of two
    [std::size_t] values. *)
Definition to_size_t (z : Z) : Z := z `mod` 18446744073709551616.
Definition size_t_plus (a b : Z) : Z := to_size_t (a + b).

Lemma to_size_t_id z : 0 <= z <= Int.INT_MAX → to_size_t z = z.
Proof.
  unfold Int.INT_MAX, to_size_t. intros Hz. apply Z.mod_small. lia.
Qed.

Lemma size_t_plus_exact a b :
  0 <= a <= Int.INT_MAX → 0 <= b <= Int.INT_MAX →
  size_t_plus (to_size_t a) (to_size_t b) = a + b.
Proof.
  intros Ha Hb. unfold size_t_plus.
  rewrite (to_size_t_id a), (to_size_t_id b) by done.
  unfold Int.INT_MAX, to_size_t in *. apply Z.mod_small. lia.
Qed.

(** Side conditions of the form "this value fits in an [int]". *)
Ltac int_range :=
  unfold Int.in_range, Int.INT_MIN, Int.INT_MAX in *; first [lia | nia].

(** ** Index mappings of the block-cyclic distribution (lines 45-54) *)

(** [NPROCS*NB*((INDXLOC-1)/NB) + (INDXLOC-1) % NB
      + ((NPROCS+IPROC-ISRCPROC) % NPROCS)*NB + 1] *)
Definition indxl2g (INDXLOC NB IPROC ISRCPROC NPROCS : Z) : option Z :=
  q ← Int.div (Int.sub INDXLOC 1) NB;
  r ← Int.rem (Int.sub INDXLOC 1) NB;
  d ← Int.rem (Int.sub (Int.add NPROCS IPROC) ISRCPROC) NPROCS;
  Some (Int.add
          (Int.add (Int.add (Int.mul (Int.mul NPROCS NB) q) r)
                   (Int.mul d NB))
          1).

(** [NB*((INDXGLOB-1)/(NB*NPROCS)) + (INDXGLOB-1) % NB + 1] *)
Definition indxg2l (INDXGLOB NB IPROC ISRCPROC NPROCS : Z) : option Z :=
  q ← Int.div (Int.sub INDXGLOB 1) (Int.mul NB NPROCS);
  r ← Int.rem (Int.sub INDXGLOB 1) NB;
  Some (Int.add (Int.add (Int.mul NB q) r) 1).

(** [( ISRCPROC + (INDXGLOB - 1) / NB ) % NPROCS] *)
Definition indxg2p (INDXGLOB NB IPROC ISRCPROC NPROCS : Z) : option Z :=
  q ← Int.div (Int.sub INDXGLOB 1) NB;
  Int.rem (Int.add ISRCPROC q) NPROCS.

(** The mappings written over the mathematical integers, 1-based like
    the code.  [l2g] is what [indxl2g] computes when nothing overflows. *)
Definition l2g (l B p N : Z) : Z :=
  N * B * ((l - 1) `div` B) + (l - 1) `mod` B + p * B + 1.
Definition g2l (g B N : Z) : Z :=
  B * ((g - 1) `div` (B * N)) + (g - 1) `mod` B + 1.
Definition g2p (g B N : Z) : Z := ((g - 1) `div` B) `mod` N.

(** The 0-based mappings of the member functions [rowl2g], [rowg2l] and
    [rowg2p] of a matrix that is not a view. *)
Definition l2g0 (l B p N : Z) : Z := l2g (l + 1) B p N - 1.
Definition g2l0 (g B N : Z) : Z := g2l (g + 1) B N - 1.
Definition g2p0 (g B N : Z) : Z := g2p (g + 1) B N.

Section index_arith.
Variables (B N : Z).
Hypothesis HB : 1 <= B.
Hypothesis HN : 1 <= N.

Lemma l2g_decomp l p :
  l2g l B p N - 1 = (N * ((l - 1) `div` B) + p) * B + (l - 1) `mod` B.
Proof. unfold l2g. ring. Qed.

Lemma l2g_lower l p : 1 <= l → 0 <= p → l <= l2g l B p N.
Proof.
  intros Hl Hp. unfold l2g.
  pose proof (Z.div_mod (l - 1) B ltac:(lia)).
  pose proof (Z.div_pos (l - 1) B ltac:(lia) ltac:(lia)).
  pose proof (Z.mod_pos_bound (l - 1) B ltac:(lia)). nia.
Qed.

Lemma l2g_div l p :
  1 <= l → 0 <= p →
  (l2g l B p N - 1) `div` B = N * ((l - 1) `div` B) + p.
Proof.
  intros Hl Hp. rewrite l2g_decomp.
  pose proof (Z.mod_pos_bound (l - 1) B ltac:(lia)).
  rewrite Z.div_add_l by lia.
  rewrite (Z.div_small ((l - 1) `mod` B)) by lia. lia.
Qed.

Lemma l2g_mod l p :
  1 <= l → 0 <= p → (l2g l B p N - 1) `mod` B = (l - 1) `mod` B.
Proof.
  intros Hl Hp. rewrite l2g_decomp.
  rewrite Z.add_comm, Z.mod_add by lia.
  apply Z.mod_mod. lia.
Qed.

Lemma l2g_div_BN l p :
  1 <= l → 0 <= p < N →
  (l2g l B p N - 1) `div` (B * N) = (l - 1) `div` B.
Proof.
  intros Hl Hp.
  rewrite <- Z.div_div by lia.
  rewrite l2g_div by lia.
  rewrite Z.mul_comm, Z.div_add_l by lia.
  rewrite (Z.div_small p) by lia. lia.
Qed.

Lemma g2l_l2g l p : 1 <= l → 0 <= p < N → g2l (l2g l B p N) B N = l.
Proof.
  intros Hl Hp. unfold g2l.
  rewrite l2g_div_BN, l2g_mod by lia.
  pose proof (Z.div_mod (l - 1) B ltac:(lia)). lia.
Qed.

Lemma g2p_l2g l p : 1 <= l → 0 <= p < N → g2p (l2g l B p N) B N = p.
Proof.
  intros Hl Hp. unfold g2p.
  rewrite l2g_div by lia.
  rewrite Z.add_comm, Z.mul_comm, Z.mod_add by lia.
  apply Z.mod_small. lia.
Qed.

(** A global index is the image of its local index on its owner. *)
Lemma l2g_g2l g : 1 <= g → l2g (g2l g B N) B (g2p g B N) N = g.
Proof.
  intros Hg. unfold l2g, g2l, g2p.
  pose proof (Z.mod_pos_bound (g - 1) B ltac:(lia)) as Hm.
  pose proof (Z.div_pos (g - 1) (B * N) ltac:(lia) ltac:(nia)) as Hq.
  replace (B * ((g - 1) `div` (B * N)) + (g - 1) `mod` B + 1 - 1)
    with ((g - 1) `div` (B * N) * B + (g - 1) `mod` B) by ring.
  rewrite Z.div_add_l by lia. rewrite (Z.div_small _ B) by lia.
  rewrite Z.add_0_r.
  rewrite (Z.add_comm (_ * B)), Z.mod_add by lia.
  rewrite Z.mod_mod by lia.
  rewrite <- Z.div_div by lia.
  pose proof (Z.div_mod ((g - 1) `div` B) N ltac:(lia)).
  pose proof (Z.div_mod (g - 1) B ltac:(lia)). nia.
Qed.

Lemma g2l_lower g : 1 <= g → 1 <= g2l g B N.
Proof.
  intros Hg. unfold g2l.
  pose proof (Z.mod_pos_bound (g - 1) B ltac:(lia)).
  pose proof (Z.div_pos (g - 1) (B * N) ltac:(lia) ltac:(nia)). nia.
Qed.

Lemma g2p_range g : 0 <= g2p g B N < N.
Proof. unfold g2p. apply Z.mod_pos_bound. lia. Qed.

(** The code computes the mathematical mappings as long as the values
    stay inside [int]. *)
Lemma indxl2g_exact l p :
  1 <= l → 0 <= p < N →
  N * B <= Int.INT_MAX → N + p <= Int.INT_MAX →
  l2g l B p N <= Int.INT_MAX →
  indxl2g l B p 0 N = Some (l2g l B p N).
Proof.
  intros Hl Hp HNB HNp Hg.
  pose proof (l2g_lower l p Hl ltac:(lia)) as Hlow.
  pose proof (Z.div_pos (l - 1) B ltac:(lia) ltac:(lia)) as Hq.
  pose proof (Z.mod_pos_bound (l - 1) B ltac:(lia)) as Hm.
  assert (0 <= p * B) by nia.
  assert (0 <= N * B * ((l - 1) `div` B)) by nia.
  unfold l2g in Hg, Hlow. unfold indxl2g.
  rewrite (Int.sub_exact l 1) by int_range.
  rewrite (Int.div_exact (l - 1) B) by int_range.
  rewrite (Int.rem_exact (l - 1) B) by lia. simpl.
  rewrite (Int.add_exact N p) by int_range.
  rewrite (Int.sub_exact (N + p) 0) by int_range.
  rewrite (Int.rem_exact (N + p - 0) N) by lia. simpl.
  replace ((N + p - 0) `mod` N) with p
    by (rewrite Z.sub_0_r, Z.add_comm;
        replace (p + N) with (p + 1 * N) by ring;
        rewrite Z.mod_add by lia; symmetry; apply Z.mod_small; lia).
  rewrite (Int.mul_exact N B) by int_range.
  rewrite (Int.mul_exact (N * B)) by int_range.
  rewrite (Int.mul_exact p B) by int_range.
  rewrite (Int.add_exact (N * B * _) ((l - 1) `mod` B)) by int_range.
  rewrite (Int.add_exact (N * B * _ + _) (p * B)) by int_range.
  rewrite Int.add_exact by int_range.
  reflexivity.
Qed.

Lemma indxg2l_exact g p :
  1 <= g <= Int.INT_MAX → N * B <= Int.INT_MAX →
  indxg2l g B p 0 N = Some (g2l g B N).
Proof.
  intros Hg HNB.
  pose proof (Z.div_pos (g - 1) (B * N) ltac:(lia) ltac:(nia)) as Hq.
  pose proof (Z.mod_pos_bound (g - 1) B ltac:(lia)) as Hm.
  pose proof (Z.div_mod (g - 1) B ltac:(lia)) as Hdm.
  assert (B * ((g - 1) `div` (B * N)) <= (g - 1) `div` B * B) as Hle.
  { rewrite <- Z.div_div by lia.
    pose proof (Z.div_pos (g - 1) B ltac:(lia) ltac:(lia)).
    pose proof (Z.mul_div_le ((g - 1) `div` B) N ltac:(lia)). nia. }
  unfold indxg2l, g2l.
  rewrite (Int.sub_exact g 1) by int_range.
  rewrite (Int.mul_exact B N) by int_range.
  rewrite (Int.div_exact (g - 1) (B * N)) by int_range.
  rewrite (Int.rem_exact (g - 1) B) by lia. simpl.
  rewrite (Int.mul_exact B) by int_range.
  rewrite (Int.add_exact (B * _) ((g - 1) `mod` B)) by int_range.
  rewrite Int.add_exact by int_range.
  reflexivity.
Qed.

Lemma indxg2p_exact g p :
  1 <= g <= Int.INT_MAX → indxg2p g B p 0 N = Some (g2p g B N).
Proof.
  intros Hg.
  pose proof (Z.div_pos (g - 1) B ltac:(lia) ltac:(lia)) as Hq.
  pose proof (Z.div_le_upper_bound (g - 1) B (g - 1) ltac:(lia) ltac:(nia)).
  unfold indxg2p, g2p.
  rewrite (Int.sub_exact g 1) by int_range.
  rewrite (Int.div_exact (g - 1) B) by int_range.
  simpl.
  rewrite Int.add_exact by int_range.
  rewrite Int.rem_exact by lia. reflexivity.
Qed.
End index_arith.

(** C1, as stated, at block size 65536 on a grid extent of 65536: the
    first local index of process 0 maps to global index 1, but mapping
    it back divides by [NB*NPROCS], which has wrapped around to 0. *)
Lemma index_round_trip_overflow :
  ¬ (∀ B N p l : Z,
       1 <= B <= Int.INT_MAX → 1 <= N <= Int.INT_MAX →
       0 <= p < N → 1 <= l <= Int.INT_MAX →
       ∀ g, indxl2g l B p 0 N = Some g →
            indxg2l g B p 0 N = Some l ∧ indxg2p g B p 0 N = Some p).
Proof.
  intros H.
  destruct (H 65536 65536 0 1) with (g := 1) as [Hl _];
    try (unfold Int.INT_MAX; lia); [reflexivity|].
  vm_compute in Hl. discriminate.
Qed.

(** C1 (amended): for every block size [B >= 1], grid extent [N >= 1]
    with [N*B] and [N+p] representable as [int], owner coordinate
    [p] in [0,N) and 1-based local index [l >= 1] whose global index
    is representable, [indxl2g] returns a global index [g] on which
    [indxg2l] returns [l] and [indxg2p] returns [p] (source process 0). *)
Theorem index_round_trip (B N p l : Z) :
  1 <= B → 1 <= N → 0 <= p < N → 1 <= l →
  N * B <= Int.INT_MAX → N + p <= Int.INT_MAX →
  l2g l B p N <= Int.INT_MAX →
  ∃ g, indxl2g l B p 0 N = Some g ∧
       indxg2l g B p 0 N = Some l ∧
       indxg2p g B p 0 N = Some p.
Proof.
  intros HB HN Hp Hl HNB HNp Hg.
  exists (l2g l B p N).
  pose proof (l2g_lower B N HB HN l p Hl ltac:(lia)).
  split; [by apply indxl2g_exact|].
  split.
  - rewrite indxg2l_exact by lia. by rewrite g2l_l2g.
  - rewrite indxg2p_exact by lia. by rewrite g2p_l2g.
Qed.

Lemma index_round_trip_witness :
  ∃ g, indxl2g 5 2 1 0 3 = Some g ∧
       indxg2l g 2 1 0 3 = Some 5 ∧
       indxg2p g 2 1 0 3 = Some 1.
Proof.
  apply (index_round_trip 2 3 1 5); unfold Int.INT_MAX; try lia.
  vm_compute. discriminate.
Defined.

(** ** A state and error monad

    [Cmd S A] is a computation over a state [S] that returns an [A] or
    fails.  The state is the heap of local buffers, or the heap together
    with the objects that the code holds by reference. *)

Definition Cmd (S A : Type) : Type := S → option (A * S).

Global Instance Cmd_ret {S} : MRet (Cmd S) := λ A x s, Some (x, s).
Global Instance Cmd_bind {S} : MBind (Cmd S) :=
  λ A B f m s, match m s with Some (x, s') => f x s' | None => None end.

Definition failM {S A} : Cmd S A := λ _, None.
Definition getM {S} : Cmd S S := λ s, Some (s, s).
Definition putM {S} (s : S) : Cmd S unit := λ _, Some (tt, s).
Definition liftM {S A} (o : option A) : Cmd S A := λ s, x ← o; Some (x, s).
(** [assert(b)] *)
Definition assertM {S} (b : bool) : Cmd S unit :=
  if b then mret tt else failM.

Fixpoint for_each {S A} (l : list A) (body : A → Cmd S unit) : Cmd S unit :=
  match l with
  | [] => mret tt
  | x :: l' => body x;; for_each l' body
  end.

(** [for (int i = lo; i < hi; i++) body(i)] *)
Definition for_range {S} (lo hi : Z) (body : Z → Cmd S unit) : Cmd S unit :=
  for_each (seqZ lo (hi - lo)) body.

(** ** Scalars and the heap of local buffers *)

(** The template parameter [scalar_t].  [s_indet] stands for the content
    of a cell of [new scalar_t[n]] that has not been written yet. *)
Class Scalar (scalar_t : Type) := {
  s_zero : scalar_t;
  s_one : scalar_t;
  s_add : scalar_t → scalar_t → scalar_t;
  s_indet : scalar_t;
}.

(** [real_t] is [float]: [std::abs] of a scalar, and a real converted
    to a scalar. *)
Class Magnitude (scalar_t : Type) := {
  s_abs : scalar_t → float;
  s_of_real : float → scalar_t;
}.

Abbreviation addr := positive.
Abbreviation heap T := (gmap positive (list T)).

Section memory.
Context {T : Type}.

(** [new T[n]] *)
Definition new_array (fill : T) (n : Z) : Cmd (heap T) (option addr) :=
  λ h, if decide (n < 0) then None
       else let a := fresh (dom h) in
            Some (Some a, <[a := replicate (Z.to_nat n) fill]> h).

(** [delete[] p]; deleting [nullptr] does nothing. *)
Definition delete_array (p : option addr) : Cmd (heap T) unit :=
  λ h, match p with
       | None => Some (tt, h)
       | Some a => match h !! a with
                   | Some _ => Some (tt, delete a h)
                   | None => None
                   end
       end.

(** [p[i]] read and written. *)
Definition read_at (p : option addr) (i : Z) : Cmd (heap T) T :=
  λ h, a ← p; buf ← h !! a;
       if decide (0 <= i) then v ← buf !! Z.to_nat i; Some (v, h) else None.

Definition write_at (p : option addr) (i : Z) (v : T) : Cmd (heap T) unit :=
  λ h, a ← p; buf ← h !! a;
       if decide (0 <= i < Z.of_nat (length buf))
       then Some (tt, <[a := <[Z.to_nat i := v]> buf]> h)
       else None.
End memory.

(** ** The process grid *)

(** Modelled from the spec: [BLACSGrid.hpp] is not under src/.  Section 3
    gives a grid its extents [nprows, npcols], this worker's coordinates
    [prow, pcol], the [active] predicate and two context identifiers;
    section 4.1 says that [prow()] and [pcol()] are an assertion failure
    on a worker that is not active. *)
Record BLACSGrid := {
  g_nprows : Z;
  g_npcols : Z;
  g_prow : Z;
  g_pcol : Z;
  g_active : bool;
  g_ctxt : Z;
  g_ctxt_all : Z;
}.

Definition grid_prow (g : BLACSGrid) : option Z :=
  if g_active g then Some (g_prow g) else None.
Definition grid_pcol (g : BLACSGrid) : option Z :=
  if g_active g then Some (g_pcol g) else None.

(** ** The ScaLAPACK tools the class calls *)

(** Modelled from the spec: [scalapack::numroc] is declared in
    [ScaLAPACKWrapper.hpp], which is not under src/.  It is the local
    share of [n] indices under the [nb]-cyclic mapping over [nprocs]
    processes, for the process [iproc] when the first block is on
    [isrcproc] (section 3, invariant of [DistributedMatrix]). *)
Definition numroc (n nb iproc isrcproc nprocs : Z) : Z :=
  let mydist := (nprocs + iproc - isrcproc) `mod` nprocs in
  let nblocks := n `div` nb in
  let base := (nblocks `div` nprocs) * nb in
  let extrablks := nblocks `mod` nprocs in
  if decide (mydist < extrablks) then base + nb
  else if decide (mydist = extrablks) then base + n `mod` nb
  else base.

Lemma mod_plus_self p np : 0 <= p < np → (np + p - 0) `mod` np = p.
Proof.
  intros Hp. replace (np + p - 0) with (p + 1 * np) by ring.
  rewrite Z.mod_add by lia. apply Z.mod_small; lia.
Qed.

(** A 1-based local index is below [numroc] exactly when its global
    index is below the global extent. *)
Lemma numroc_l2g n nb p np l :
  1 <= nb → 1 <= np → 0 <= p < np → 0 <= n → 1 <= l →
  l <= numroc n nb p 0 np ↔ l2g l nb p np <= n.
Proof.
  intros Hnb Hnp Hp Hn Hl. unfold numroc, l2g.
  rewrite mod_plus_self by done.
  pose proof (Z.div_mod n nb ltac:(lia)) as Hn1.
  pose proof (Z.mod_pos_bound n nb ltac:(lia)) as Hn2.
  pose proof (Z.div_pos n nb ltac:(lia) ltac:(lia)) as Hn3.
  pose proof (Z.div_mod (n `div` nb) np ltac:(lia)) as Hq1.
  pose proof (Z.mod_pos_bound (n `div` nb) np ltac:(lia)) as Hq2.
  pose proof (Z.div_pos (n `div` nb) np ltac:(lia) ltac:(lia)) as Hq3.
  pose proof (Z.div_mod (l - 1) nb ltac:(lia)) as Hl1.
  pose proof (Z.mod_pos_bound (l - 1) nb ltac:(lia)) as Hl2.
  pose proof (Z.div_pos (l - 1) nb ltac:(lia) ltac:(lia)) as Hl3.
  set (q := n `div` nb) in *. set (r := n `mod` nb) in *.
  set (Q := q `div` np) in *. set (e := q `mod` np) in *.
  set (a := (l - 1) `div` nb) in *. set (b := (l - 1) `mod` nb) in *.
  clearbody q r Q e a b.
  assert (l = nb * a + b + 1) as -> by lia.
  assert (n = nb * (np * Q + e) + r) as -> by lia.
  clear Hn1 Hq1 Hl1 Hl Hn.
  destruct (Z_le_gt_dec a Q) as [HaQ|HaQ];
    [destruct (Z.eq_dec a Q) as [->|HaQ']|];
    repeat case_decide; split; intros; nia.
Qed.

Lemma numroc_range n nb p np :
  1 <= nb → 1 <= np → 0 <= p < np → 0 <= n →
  0 <= numroc n nb p 0 np <= n.
Proof.
  intros Hnb Hnp Hp Hn. unfold numroc.
  rewrite mod_plus_self by done.
  pose proof (Z.div_mod n nb ltac:(lia)) as Hn1.
  pose proof (Z.mod_pos_bound n nb ltac:(lia)) as Hn2.
  pose proof (Z.div_pos n nb ltac:(lia) ltac:(lia)) as Hn3.
  pose proof (Z.div_mod (n `div` nb) np ltac:(lia)) as Hq1.
  pose proof (Z.mod_pos_bound (n `div` nb) np ltac:(lia)) as Hq2.
  pose proof (Z.div_pos (n `div` nb) np ltac:(lia) ltac:(lia)) as Hq3.
  set (q := n `div` nb) in *. set (r := n `mod` nb) in *.
  set (Q := q `div` np) in *. set (e := q `mod` np) in *.
  clearbody q r Q e.
  repeat case_decide; nia.
Qed.

(** Modelled from the spec: [scalapack::descset] is not under src/.  The
    descriptor layout is the one of section 3: kind sentinel, context,
    global rows, global columns, row block size, column block size,
    grid row and grid column of the first block, leading dimension. *)
Definition descset (M N MB NB rsrc csrc ictxt lld : Z) : list Z :=
  [1; ictxt; M; N; MB; NB; rsrc; csrc; lld].

(** Modelled from the spec: [scalapack::descinit] is not under src/.  It
    fills the descriptor like [descset] and returns a nonzero code for an
    invalid shape, block size or leading dimension (section 7). *)
Definition descinit (M N MB NB rsrc csrc ictxt lld : Z) : list Z * Z :=
  (descset M N MB NB rsrc csrc ictxt lld,
   if decide (M < 0) then -2
   else if decide (N < 0) then -3
   else if decide (MB < 1) then -4
   else if decide (NB < 1) then -5
   else if decide (lld < 1) then -9
   else 0).

(** ** The classes (lines 57-253 and 302-353) *)

(** The private members of [DistributedMatrixWrapper]. *)
Record Wrapper := {
  _rows : Z;
  _cols : Z;
  _i : Z;
  _j : Z;
}.

(** An object of class [DistributedMatrix].  [wrapper_] is [Some] when
    the dynamic type is [DistributedMatrixWrapper]; the virtual member
    functions dispatch on it.  The grid is held by pointer and never
    modified through it, so it is kept by value. *)
Record DistributedMatrix := {
  grid_ : option BLACSGrid;
  data_ : option addr;
  lrows_ : Z;
  lcols_ : Z;
  desc_ : list Z;
  wrapper_ : option Wrapper;
}.

Definition set_data_ (p : option addr) (m : DistributedMatrix) :=
  {| grid_ := grid_ m; data_ := p; lrows_ := lrows_ m; lcols_ := lcols_ m;
     desc_ := desc_ m; wrapper_ := wrapper_ m |}.
Definition set_grid_ (g : option BLACSGrid) (m : DistributedMatrix) :=
  {| grid_ := g; data_ := data_ m; lrows_ := lrows_ m; lcols_ := lcols_ m;
     desc_ := desc_ m; wrapper_ := wrapper_ m |}.
Definition set_lrows_ (n : Z) (m : DistributedMatrix) :=
  {| grid_ := grid_ m; data_ := data_ m; lrows_ := n; lcols_ := lcols_ m;
     desc_ := desc_ m; wrapper_ := wrapper_ m |}.
Definition set_lcols_ (n : Z) (m : DistributedMatrix) :=
  {| grid_ := grid_ m; data_ := data_ m; lrows_ := lrows_ m; lcols_ := n;
     desc_ := desc_ m; wrapper_ := wrapper_ m |}.
Definition set_desc_ (d : list Z) (m : DistributedMatrix) :=
  {| grid_ := grid_ m; data_ := data_ m; lrows_ := lrows_ m;
     lcols_ := lcols_ m; desc_ := d; wrapper_ := wrapper_ m |}.

(** [desc_[k]] *)
Definition desc_at (m : DistributedMatrix) (k : nat) : Z := nth k (desc_ m) 0.

(** [STRUMPACK_PBLAS_BLOCKSIZE] is not defined in the sources at hand:
    the [#else] branch (lines 250-251). *)
Definition default_MB : Z := 32.
Definition default_NB : Z := 32.

Section accessors.
Variable m : DistributedMatrix.

Definition active : bool :=
  match grid_ m with Some g => g_active g | None => false end.
Definition ctxt : Z :=
  match grid_ m with Some g => g_ctxt g | None => -1 end.
Definition ctxt_all : Z :=
  match grid_ m with Some g => g_ctxt_all g | None => -1 end.

(** [virtual int rows() const], overridden at line 332. *)
Definition rows : Z :=
  match wrapper_ m with Some w => _rows w | None => desc_at m 2 end.
(** [virtual int cols() const], overridden at line 333. *)
Definition cols : Z :=
  match wrapper_ m with Some w => _cols w | None => desc_at m 3 end.
Definition lrows : Z := lrows_ m.
Definition lcols : Z := lcols_ m.
Definition ld : Z := lrows_ m.
Definition MB : Z := desc_at m 4.
Definition NB : Z := desc_at m 5.

(** [virtual int I() const], overridden at line 334; [J()] likewise. *)
Definition I : Z :=
  match wrapper_ m with Some w => Int.add (_i w) 1 | None => 1 end.
Definition J : Z :=
  match wrapper_ m with Some w => Int.add (_j w) 1 | None => 1 end.

(** [assert(grid()); return grid()->prow();] and its siblings. *)
Definition prow : option Z := g ← grid_ m; grid_prow g.
Definition pcol : option Z := g ← grid_ m; grid_pcol g.
Definition nprows : option Z := g ← grid_ m; Some (g_nprows g).
Definition npcols : option Z := g ← grid_ m; Some (g_npcols g).

Definition rowl2g (row : Z) : option Z :=
  p ← prow; n ← nprows;
  g ← indxl2g (Int.add row 1) MB p 0 n; Some (Int.sub g I).
Definition coll2g (col : Z) : option Z :=
  p ← pcol; n ← npcols;
  g ← indxl2g (Int.add col 1) NB p 0 n; Some (Int.sub g J).
Definition rowg2l (row : Z) : option Z :=
  p ← prow; n ← nprows;
  l ← indxg2l (Int.add row I) MB p 0 n; Some (Int.sub l 1).
Definition colg2l (col : Z) : option Z :=
  p ← pcol; n ← npcols;
  l ← indxg2l (Int.add col J) NB p 0 n; Some (Int.sub l 1).
Definition rowg2p (row : Z) : option Z :=
  p ← prow; n ← nprows; indxg2p (Int.add row I) MB p 0 n.
Definition colg2p (col : Z) : option Z :=
  p ← pcol; n ← npcols; indxg2p (Int.add col J) NB p 0 n.
Definition is_local (r c : Z) : option bool :=
  pr ← rowg2p r; p ← prow; pc ← colg2p c; q ← pcol;
  Some (bool_decide (pr = p) && bool_decide (pc = q)).

Definition fixed : bool :=
  bool_decide (MB = default_MB) && bool_decide (NB = default_NB).

(** The [_fixed] family: [assert(grid() && fixed())] and the same
    mappings at the default block size. *)
Definition rowg2l_fixed (row : Z) : option Z :=
  _ ← grid_ m; guard (fixed = true);;
  p ← prow; n ← nprows;
  l ← indxg2l (Int.add row I) default_MB p 0 n; Some (Int.sub l 1).
Definition colg2l_fixed (col : Z) : option Z :=
  _ ← grid_ m; guard (fixed = true);;
  p ← pcol; n ← npcols;
  l ← indxg2l (Int.add col J) default_NB p 0 n; Some (Int.sub l 1).
Definition rowg2p_fixed (row : Z) : option Z :=
  _ ← grid_ m; guard (fixed = true);;
  p ← prow; n ← nprows; indxg2p (Int.add row I) default_MB p 0 n.
Definition colg2p_fixed (col : Z) : option Z :=
  _ ← grid_ m; guard (fixed = true);;
  p ← pcol; n ← npcols; indxg2p (Int.add col J) default_NB p 0 n.
Definition is_local_fixed (r c : Z) : option bool :=
  _ ← grid_ m; guard (fixed = true);;
  pr ← rowg2p_fixed r; p ← prow; pc ← colg2p_fixed c; q ← pcol;
  Some (bool_decide (pr = p) && bool_decide (pc = q)).
End accessors.

Section elements.
Context {scalar_t : Type}.

(** [operator()(r, c)]: the cell [data_[r+ld()*c]]. *)
Definition elem_index (m : DistributedMatrix) (r c : Z) : Z :=
  Int.add r (Int.mul (ld m) c).
Definition get_elem (m : DistributedMatrix) (r c : Z)
  : Cmd (heap scalar_t) scalar_t :=
  read_at (data_ m) (elem_index m r c).
Definition set_elem (m : DistributedMatrix) (r c : Z) (v : scalar_t)
  : Cmd (heap scalar_t) unit :=
  write_at (data_ m) (elem_index m r c) v.

(** [global(r, c)] (lines 170-173) and [global_fixed(r, c)]
    (lines 174-176), read. *)
Definition global (this : DistributedMatrix) (r c : Z)
  : Cmd (heap scalar_t) scalar_t :=
  b ← liftM (is_local this r c); assertM b;;
  lr ← liftM (rowg2l this r); lc ← liftM (colg2l this c);
  get_elem this lr lc.
Definition global_fixed (this : DistributedMatrix) (r c : Z)
  : Cmd (heap scalar_t) scalar_t :=
  b ← liftM (is_local this r c); assertM b;;
  assertM (fixed this);;
  lr ← liftM (rowg2l_fixed this r); lc ← liftM (colg2l_fixed this c);
  get_elem this lr lc.
End elements.

(** ** Construction, destruction and assignment *)

Section lifecycle.
Context {scalar_t : Type} `{!Scalar scalar_t}.

(** [DistributedMatrix(const BLACSGrid* g, int M, int N, int MB, int NB)]
    (lines 652-673). *)
Definition DistributedMatrix_new (g : option BLACSGrid) (M N MB NB : Z)
  : Cmd (heap scalar_t) DistributedMatrix :=
  assertM (bool_decide (M >= 0) && bool_decide (N >= 0)
           && bool_decide (MB >= 0) && bool_decide (NB >= 0));;
  let MB := Int.max 1 MB in
  let NB := Int.max 1 NB in
  let this := {| grid_ := g; data_ := None; lrows_ := 0; lcols_ := 0;
                 desc_ := []; wrapper_ := None |} in
  if negb (active this) then
    mret {| grid_ := g; data_ := None; lrows_ := 0; lcols_ := 0;
            desc_ := descset M N MB NB 0 0 (-1) (Int.max 0 1);
            wrapper_ := None |}
  else
    pr ← liftM (prow this); npr ← liftM (nprows this);
    pc ← liftM (pcol this); npc ← liftM (npcols this);
    let lr := numroc M MB pr 0 npr in
    let lc := numroc N NB pc 0 npc in
    a ← new_array s_indet (Int.mul lr lc);
    let '(d, info) := descinit M N MB NB 0 0 (ctxt this) (Int.max lr 1) in
    if decide (info = 0)
    then mret {| grid_ := g; data_ := a; lrows_ := lr; lcols_ := lc;
                 desc_ := d; wrapper_ := None |}
    else failM.

(** [DistributedMatrix(const BLACSGrid* g, int M, int N)] (lines 646-650). *)
Definition DistributedMatrix_new_default (g : option BLACSGrid) (M N : Z)
  : Cmd (heap scalar_t) DistributedMatrix :=
  DistributedMatrix_new g M N default_MB default_NB.

(** [DistributedMatrix()] (lines 570-572). *)
Definition DistributedMatrix_empty : Cmd (heap scalar_t) DistributedMatrix :=
  DistributedMatrix_new None 0 0 default_MB default_NB.

(** [DistributedMatrix(const BLACSGrid* g, int desc[9])] (lines 675-689). *)
Definition DistributedMatrix_of_desc (g : option BLACSGrid) (desc : list Z)
  : Cmd (heap scalar_t) DistributedMatrix :=
  let this := {| grid_ := g; data_ := None; lrows_ := 0; lcols_ := 0;
                 desc_ := take 9 desc; wrapper_ := None |} in
  if active this then
    mret this
  else
    pr ← liftM (prow this); npr ← liftM (nprows this);
    let lr := numroc (desc_at this 2) (desc_at this 4) pr
                     (desc_at this 6) npr in
    pc ← liftM (pcol this); npc ← liftM (npcols this);
    let lc := numroc (desc_at this 3) (desc_at this 5) pc
                     (desc_at this 7) npc in
    assertM (bool_decide (lr = desc_at this 8));;
    a ← (if bool_decide (lr ≠ 0) && bool_decide (lc ≠ 0)
         then new_array s_indet (Int.mul lr lc) else mret None);
    mret (set_data_ a (set_lcols_ lc (set_lrows_ lr this))).

(** [DistributedMatrix(const DistributedMatrix<scalar_t>& m)]
    (lines 630-636). *)
Definition DistributedMatrix_copy (m : DistributedMatrix)
  : Cmd (heap scalar_t) DistributedMatrix :=
  let n := Int.mul (lrows m) (lcols m) in
  a ← new_array s_indet n;
  for_range 0 n (λ k, v ← read_at (data_ m) k; write_at a k v);;
  mret {| grid_ := grid_ m; data_ := a; lrows_ := lrows m;
          lcols_ := lcols m; desc_ := take 9 (desc_ m); wrapper_ := None |}.

(** [DistributedMatrix(DistributedMatrix<scalar_t>&& m)] (lines 638-644):
    the new object, and [m] as the constructor leaves it. *)
Definition DistributedMatrix_move (m : DistributedMatrix)
  : DistributedMatrix * DistributedMatrix :=
  let this := {| grid_ := grid_ m; data_ := None; lrows_ := lrows m;
                 lcols_ := lcols m; desc_ := take 9 (desc_ m);
                 wrapper_ := None |} in
  let this := set_data_ (data_ m) this in
  let m := set_data_ None m in
  (this, m).

(** [DistributedMatrix::clear()] (lines 728-733).  It is not virtual. *)
Definition DistributedMatrix_clear (this : DistributedMatrix)
  : Cmd (heap scalar_t) DistributedMatrix :=
  delete_array (data_ this);;
  let this := set_data_ None this in
  let this := set_lcols_ 0 (set_lrows_ 0 this) in
  mret (set_desc_ (descset 0 0 (MB this) (NB this) 0 0 (ctxt this) 1) this).

(** [~DistributedMatrix()] (lines 691-694). *)
Definition DistributedMatrix_destroy (this : DistributedMatrix)
  : Cmd (heap scalar_t) unit :=
  DistributedMatrix_clear this;; mret tt.

(** [DistributedMatrixWrapper()] (lines 307-308). *)
Definition DistributedMatrixWrapper_empty
  : Cmd (heap scalar_t) DistributedMatrix :=
  this ← DistributedMatrix_empty;
  mret {| grid_ := grid_ this; data_ := data_ this; lrows_ := lrows_ this;
          lcols_ := lcols_ this; desc_ := desc_ this;
          wrapper_ := Some {| _rows := 0; _cols := 0; _i := 0; _j := 0 |} |}.

(** [DistributedMatrixWrapper(std::size_t m, std::size_t n,
    DistributedMatrix<scalar_t>& A, std::size_t i, std::size_t j)]
    (lines 445-456).  The arguments convert to [std::size_t] on entry,
    the two sums and the comparisons of the assertions are in
    [std::size_t], and the members the sizes initialise are [int].  The
    third assertion compares unsigned values with 0 and always holds. *)
Definition DistributedMatrixWrapper_new
  (m n : Z) (A : DistributedMatrix) (i j : Z)
  : Cmd (heap scalar_t) DistributedMatrix :=
  let m := to_size_t m in
  let n := to_size_t n in
  let i := to_size_t i in
  let j := to_size_t j in
  this ← DistributedMatrix_empty;
  assertM (negb (active A)
           || bool_decide (size_t_plus m i <= to_size_t (rows A)));;
  assertM (negb (active A)
           || bool_decide (size_t_plus n j <= to_size_t (cols A)));;
  assertM (bool_decide (0 <= m) && bool_decide (0 <= n)
           && bool_decide (0 <= i) && bool_decide (0 <= j));;
  mret {| grid_ := grid_ A; data_ := data_ A; lrows_ := lrows A;
          lcols_ := lcols A; desc_ := take 9 (desc_ A);
          wrapper_ := Some {| _rows := Int.wrap m; _cols := Int.wrap n;
                              _i := Int.wrap i; _j := Int.wrap j |} |}.

(** [~DistributedMatrixWrapper()] (line 325): the body, then the
    destructor of the base class. *)
Definition DistributedMatrixWrapper_destroy (this : DistributedMatrix)
  : Cmd (heap scalar_t) unit :=
  let this := set_data_ None this in
  DistributedMatrix_destroy this.

(** [DistributedMatrixWrapper::clear()] (lines 340-341). *)
Definition DistributedMatrixWrapper_clear (this : DistributedMatrix)
  : Cmd (heap scalar_t) DistributedMatrix :=
  let this := set_data_ None this in
  DistributedMatrix_clear this.

(** [DistributedMatrixWrapper::resize] (line 338) and
    [DistributedMatrixWrapper::hconcat] (line 339): [{ assert(1); }]. *)
Definition DistributedMatrixWrapper_resize
  (this : DistributedMatrix) (m n : Z)
  : Cmd (heap scalar_t) DistributedMatrix :=
  assertM true;; mret this.
Definition DistributedMatrixWrapper_hconcat
  (this b : DistributedMatrix) : Cmd (heap scalar_t) DistributedMatrix :=
  assertM true;; mret this.
End lifecycle.

(** ** Objects held by reference

    The move assignment reads its argument and writes [*this] statement
    by statement; both are references, so they are addresses into a
    store of objects next to the heap of buffers. *)

Record world (scalar_t : Type) := World {
  objects : gmap positive DistributedMatrix;
  memory : heap scalar_t;
}.
Arguments World {scalar_t}.
Arguments objects {scalar_t}.
Arguments memory {scalar_t}.

Section references.
Context {scalar_t : Type}.

Definition deref (x : positive) : Cmd (world scalar_t) DistributedMatrix :=
  λ w, o ← objects w !! x; Some (o, w).
Definition update (x : positive) (f : DistributedMatrix → DistributedMatrix)
  : Cmd (world scalar_t) unit :=
  λ w, o ← objects w !! x;
       Some (tt, World (<[x := f o]> (objects w)) (memory w)).
Definition on_memory {A} (c : Cmd (heap scalar_t) A)
  : Cmd (world scalar_t) A :=
  λ w, r ← c (memory w); Some (r.1, World (objects w) r.2).

(** [operator=(DistributedMatrix<scalar_t>&& m)] (lines 710-719). *)
Definition DistributedMatrix_move_assign (this m : positive)
  : Cmd (world scalar_t) unit :=
  x ← deref m; update this (set_grid_ (grid_ x));;
  x ← deref m; update this (set_lrows_ (lrows_ x));;
  x ← deref m; update this (set_lcols_ (lcols_ x));;
  x ← deref m; update this (set_desc_ (take 9 (desc_ x)));;
  t ← deref this; on_memory (delete_array (data_ t));;
  x ← deref m; update this (set_data_ (data_ x));;
  update m (set_data_ None).
End references.

(** ** The ScaLAPACK and BLACS kernels

    The numerical and collective kernels are external to the repository.
    A kernel reads and writes local buffers through the pointers it is
    given, so it is a function of the heap. *)
Class ScaLAPACK (scalar_t : Type) := {
  (** [infog2l(grindx, gcindx, desc, nprow, npcol, myrow, mycol,
      lrindx, lcindx)]: the local row and column index. *)
  infog2l : Z → Z → list Z → Z → Z → Z → Z → Z * Z;
  (** [plange(norm, m, n, a, ia, ja, desca, work)] *)
  plange : ascii → Z → Z → option addr → Z → Z → list Z →
           heap scalar_t → float;
  (** [pgeqpfmod(m, n, a, ia, ja, desca, J, piv, &r, rtol, atol)]: the
      heap, the contents of [J] and [piv], and the rank. *)
  pgeqpfmod : Z → Z → option addr → Z → Z → list Z → list Z → list Z →
              float → float → heap scalar_t →
              heap scalar_t * (list Z * list Z * Z);
  (** [pgemr2d(m, n, a, ia, ja, desca, b, ib, jb, descb, ctxt)] *)
  pgemr2d : Z → Z → option addr → Z → Z → list Z →
            option addr → Z → Z → list Z → Z →
            heap scalar_t → heap scalar_t;
  (** [ptrsm(side, uplo, trans, diag, m, n, alpha, a, ia, ja, desca,
      b, ib, jb, descb)] *)
  ptrsm : ascii → ascii → ascii → ascii → Z → Z → scalar_t →
          option addr → Z → Z → list Z → option addr → Z → Z → list Z →
          heap scalar_t → heap scalar_t;
  (** [pgeqrf(m, n, a, ia, ja, desca, tau)]: [info] and the heap. *)
  pgeqrf : Z → Z → option addr → Z → Z → list Z → option addr →
           heap scalar_t → Z * heap scalar_t;
  (** [pxxgqr(m, n, k, a, ia, ja, desca, tau)]: [info] and the heap. *)
  pxxgqr : Z → Z → Z → option addr → Z → Z → list Z → option addr →
           heap scalar_t → Z * heap scalar_t;
  (** [gamx2d] and [gamn2d] over the whole grid with the result on every
      process: the value of this process first, then those of the
      other processes of the grid. *)
  gamx2d : list scalar_t → scalar_t;
  gamn2d : list scalar_t → scalar_t;
}.

(** A pseudo-random generator of [misc/RandomWrapper.hpp]. *)
Class RandomGenerator (scalar_t : Type) := {
  rng : Type;
  make_default_random_generator : rng;
  rng_seed : Z → Z → rng → rng;
  rng_get : rng → scalar_t * rng;
}.

Section fill.
Context {scalar_t : Type} `{!Scalar scalar_t} `{!ScaLAPACK scalar_t}
        `{!RandomGenerator scalar_t}.

(** [virtual void lranges(int& rlo, int& rhi, int& clo, int& chi) const]:
    lines 721-726, overridden at lines 558-568.  The result is
    [(rlo, rhi, clo, chi)]. *)
Definition lranges (this : DistributedMatrix) : option (Z * Z * Z * Z) :=
  match wrapper_ this with
  | None => Some (0, lrows this, 0, lcols this)
  | Some _ =>
      npr ← nprows this; npc ← npcols this;
      pr ← prow this; pc ← pcol this;
      let lo := infog2l (I this) (J this) (desc_ this) npr npc pr pc in
      let hi := infog2l (Int.add (I this) (rows this))
                        (Int.add (J this) (cols this))
                        (desc_ this) npr npc pr pc in
      Some (Int.sub lo.1 1, Int.sub hi.1 1, Int.sub lo.2 1, Int.sub hi.2 1)
  end.

(** [zero()] (lines 754-761). *)
Definition zero (this : DistributedMatrix) : Cmd (heap scalar_t) unit :=
  if negb (active this) then mret tt else
  rg ← liftM (lranges this);
  let '(rlo, rhi, clo, chi) := rg in
  for_range clo chi (λ c,
    for_range rlo rhi (λ r, set_elem this r c s_zero)).

(** [fill(scalar_t a)] (lines 763-771). *)
Definition fill (this : DistributedMatrix) (a : scalar_t)
  : Cmd (heap scalar_t) unit :=
  if negb (active this) then mret tt else
  rg ← liftM (lranges this);
  let '(rlo, rhi, clo, chi) := rg in
  for_range clo chi (λ c,
    for_range rlo rhi (λ r, set_elem this r c a)).

(** One step of a loop that draws from the generator. *)
Definition draw_into (this : DistributedMatrix) (r c : Z)
  : Cmd (rng * heap scalar_t) unit :=
  λ s, let '(v, g) := rng_get s.1 in
       r ← set_elem this r c v s.2; Some (tt, (g, r.2)).

(** A loop over a generator that is local to the caller. *)
Definition with_generator (rgen : rng) (c : Cmd (rng * heap scalar_t) unit)
  : Cmd (heap scalar_t) unit :=
  λ h, r ← c (rgen, h); Some (tt, r.2.2).

(** [random(RandomGeneratorBase& rgen)] (lines 786-797): the heap and
    the generator are the state. *)
Definition random_with (this : DistributedMatrix)
  : Cmd (rng * heap scalar_t) unit :=
  if negb (active this) then mret tt else
  rg ← liftM (lranges this);
  let '(rlo, rhi, clo, chi) := rg in
  for_range clo chi (λ c,
    for_range rlo rhi (λ r, draw_into this r c)).

(** [random()] (lines 773-784). *)
Definition random (this : DistributedMatrix) : Cmd (heap scalar_t) unit :=
  if negb (active this) then mret tt else
  pr ← liftM (prow this); pc ← liftM (pcol this);
  let rgen := rng_seed pr pc make_default_random_generator in
  rg ← liftM (lranges this);
  let '(rlo, rhi, clo, chi) := rg in
  with_generator rgen
    (for_range clo chi (λ c,
       for_range rlo rhi (λ r, draw_into this r c))).

(** [eye()] (lines 799-807). *)
Definition eye (this : DistributedMatrix) : Cmd (heap scalar_t) unit :=
  if negb (active this) then mret tt else
  rg ← liftM (lranges this);
  let '(rlo, rhi, clo, chi) := rg in
  for_range clo chi (λ c,
    for_range rlo rhi (λ r,
      gr ← liftM (rowl2g this r); gc ← liftM (coll2g this c);
      set_elem this r c (if decide (gr = gc) then s_one else s_zero))).

(** [shift(scalar_t sigma)] (lines 809-817). *)
Definition shift (this : DistributedMatrix) (sigma : scalar_t)
  : Cmd (heap scalar_t) unit :=
  rg ← liftM (lranges this);
  let '(rlo, rhi, clo, chi) := rg in
  for_range clo chi (λ c,
    for_range rlo rhi (λ r,
      gr ← liftM (rowl2g this r); gc ← liftM (coll2g this c);
      if decide (gr = gc)
      then v ← get_elem this r c; set_elem this r c (s_add v sigma)
      else mret tt)).

(** ** Norms (lines 1056-1093) *)

Definition normF (this : DistributedMatrix) : Cmd (heap scalar_t) float :=
  if negb (active this) then mret (-1)%float else
  h ← getM;
  mret (plange "F"%char (rows this) (cols this) (data_ this)
               (I this) (J this) (desc_ this) h).

Definition norm (this : DistributedMatrix) : Cmd (heap scalar_t) float :=
  normF this.

Definition norm1 (this : DistributedMatrix) : Cmd (heap scalar_t) float :=
  if negb (active this) then mret (-1)%float else
  pc ← liftM (pcol this); npc ← liftM (npcols this);
  IACOL ← liftM (indxg2p (J this) (NB this) pc 0 npc);
  off ← liftM (Int.rem (Int.sub (J this) 1) (NB this));
  let Nq0 := numroc (Int.add (cols this) off) (NB this) pc IACOL npc in
  (* [new real_t[Nq0]] ... [delete[] work] *)
  assertM (bool_decide (0 <= Nq0));;
  h ← getM;
  mret (plange "1"%char (rows this) (cols this) (data_ this)
               (I this) (J this) (desc_ this) h).

Definition normI (this : DistributedMatrix) : Cmd (heap scalar_t) float :=
  if negb (active this) then mret (-1)%float else
  pr ← liftM (prow this); npr ← liftM (nprows this);
  IAROW ← liftM (indxg2p (I this) (MB this) pr 0 npr);
  off ← liftM (Int.rem (Int.sub (I this) 1) (MB this));
  let Mp0 := numroc (Int.add (rows this) off) (MB this) pr IAROW npr in
  assertM (bool_decide (0 <= Mp0));;
  h ← getM;
  mret (plange "I"%char (rows this) (cols this) (data_ this)
               (I this) (J this) (desc_ this) h).
End fill.

(** ** Interpolative decomposition by columns (lines 1321-1346) *)

Section decomposition.
Context {scalar_t : Type} `{!Scalar scalar_t} `{!ScaLAPACK scalar_t}.

(** [x = DistributedMatrix(...)]: the move assignment of a temporary to
    [x], then the destructor of the temporary.  The temporary is a new
    object, so it is not [x]. *)
Definition assign_temporary (x tmp : DistributedMatrix)
  : Cmd (heap scalar_t) DistributedMatrix :=
  λ h, r ← DistributedMatrix_move_assign 1 2
             (World (<[2%positive := tmp]> {[1%positive := x]}) h);
       x' ← objects r.2 !! 1%positive;
       tmp' ← objects r.2 !! 2%positive;
       r' ← DistributedMatrix_destroy tmp' (memory r.2);
       Some (x', r'.2).

(** [copy(m, n, a, ia, ja, b, ib, jb, context_all)] between two
    distributed matrices (lines 284-295).  The sizes and offsets
    convert to [std::size_t] on entry; the sums of the assertions and of
    the kernel's arguments are in [std::size_t], and the kernel takes
    them as [int]. *)
Definition copy (m n : Z) (a : DistributedMatrix) (ia ja : Z)
  (b : DistributedMatrix) (ib jb : Z) (context_all : Z)
  : Cmd (heap scalar_t) unit :=
  let m := to_size_t m in
  let n := to_size_t n in
  let ia := to_size_t ia in
  let ja := to_size_t ja in
  let ib := to_size_t ib in
  let jb := to_size_t jb in
  if bool_decide (m = 0) || bool_decide (n = 0) then mret tt else
  assertM (negb (active a)
           || (bool_decide (size_t_plus m ia <= to_size_t (rows a))
               && bool_decide (size_t_plus n ja <= to_size_t (cols a))));;
  assertM (negb (active b)
           || (bool_decide (size_t_plus m ib <= to_size_t (rows b))
               && bool_decide (size_t_plus n jb <= to_size_t (cols b))));;
  h ← getM;
  putM (pgemr2d (Int.wrap m) (Int.wrap n)
          (data_ a) (Int.wrap (size_t_plus (to_size_t (I a)) ia))
          (Int.wrap (size_t_plus (to_size_t (J a)) ja)) (desc_ a)
          (data_ b) (Int.wrap (size_t_plus (to_size_t (I b)) ib))
          (Int.wrap (size_t_plus (to_size_t (J b)) jb)) (desc_ b)
          context_all h).

(** [trsm(s, u, ta, d, alpha, A, B)] (lines 1470-1484); the enumerations
    are passed by their character codes. *)
Definition trsm (s u ta d : ascii) (alpha : scalar_t)
  (A B : DistributedMatrix) : Cmd (heap scalar_t) unit :=
  if negb (active A) then mret tt else
  assertM (bool_decide (rows A = cols A));;
  assertM (negb (bool_decide (s = "L"%char))
           || negb (bool_decide (ta = "N"%char))
           || bool_decide (cols A = rows B));;
  assertM (negb (bool_decide (s = "L"%char))
           || bool_decide (ta = "N"%char)
           || bool_decide (rows A = rows B));;
  assertM (negb (bool_decide (s = "R"%char))
           || negb (bool_decide (ta = "N"%char))
           || bool_decide (rows A = cols B));;
  assertM (negb (bool_decide (s = "R"%char))
           || bool_decide (ta = "N"%char)
           || bool_decide (cols A = cols B));;
  h ← getM;
  putM (ptrsm s u ta d (rows B) (cols B) alpha
          (data_ A) (I A) (J A) (desc_ A)
          (data_ B) (I B) (J B) (desc_ B) h).

(** [v.resize(n)] of a [std::vector<int>]: a negative [n] converts to a
    size no vector can have. *)
Definition vector_resize (n : Z) (v : list Z) : option (list Z) :=
  if decide (0 <= n) then Some (resize (Z.to_nat n) 0 v) else None.

(** [v[i] = x] and [v[i]]. *)
Definition vector_set (i x : Z) : Cmd (list Z) unit :=
  λ v, if decide (0 <= i < Z.of_nat (length v))
       then Some (tt, <[Z.to_nat i := x]> v) else None.
Definition vector_get (v : list Z) (i : Z) : option Z :=
  if decide (0 <= i) then v !! Z.to_nat i else None.

(** [ID_column(X, piv, ind, rel_tol, abs_tol)]: the references [X],
    [piv] and [ind] as the function leaves them.  [X] is an object other
    than the matrix itself. *)
Definition ID_column (this X : DistributedMatrix) (piv ind : list Z)
  (rel_tol abs_tol : float)
  : Cmd (heap scalar_t) (DistributedMatrix * list Z * list Z) :=
  if negb (active this) then mret (X, piv, ind) else
  assertM (bool_decide (0 <= cols this));;
  let _J := seqZ 1 (cols this) in
  let gpiv := seqZ 1 (cols this) in
  h ← getM;
  let out := pgeqpfmod (rows this) (cols this) (data_ this)
               (I this) (J this) (desc_ this) _J gpiv rel_tol abs_tol h in
  let _J := out.2.1.1 in
  let gpiv := out.2.1.2 in
  let rank := out.2.2 in
  putM out.1;;
  piv ← liftM (vector_resize (Int.add (lcols this) (NB this)) piv);
  ind ← liftM (vector_resize rank ind);
  piv ← liftM (snd <$> for_range 0 (lcols this) (λ c,
                 gc ← liftM (coll2g this c);
                 v ← liftM (vector_get gpiv gc);
                 vector_set c v) piv);
  ind ← liftM (snd <$> for_range 0 rank (λ c,
                 j ← liftM (vector_get _J c);
                 vector_set c (to_size_t (Int.sub j 1))) ind);
  R1 ← DistributedMatrixWrapper_new rank rank this 0 0;
  tmp ← DistributedMatrix_new_default (grid_ this) rank
          (Int.sub (cols this) rank);
  X ← assign_temporary X tmp;
  g ← liftM (grid_ this);
  copy rank (Int.sub (cols this) rank) this 0 rank X 0 0 (g_ctxt g);;
  trsm "L" "U" "N" "N" s_one R1 X;;
  DistributedMatrixWrapper_destroy R1;;
  mret (X, piv, ind).
End decomposition.

(** ** Orthogonalisation (lines 1208-1260) *)

(** [std::numeric_limits<double>::min()] and [max()]. *)
Definition numeric_limits_min : float := 0x1p-1022%float.
Definition numeric_limits_max : float := 0x1.fffffffffffffp+1023%float.

(** [std::max(a, b)] is [(a < b) ? b : a]; [std::min(a, b)] is
    [(b < a) ? b : a]. *)
Definition std_max (a b : float) : float :=
  if PrimFloat.ltb a b then b else a.
Definition std_min (a b : float) : float :=
  if PrimFloat.ltb b a then b else a.

Section orthogonalisation.
Context {scalar_t : Type} `{!Scalar scalar_t} `{!Magnitude scalar_t}
        `{!ScaLAPACK scalar_t}.

(** One iteration of the loops over the diagonal; the state is
    [(Rmax, Rmin)] and the heap. *)
Definition diagonal_step
  (local : Z → Z → option bool)
  (entry : Z → Z → Cmd (heap scalar_t) scalar_t) (gi : Z)
  : Cmd (float * float * heap scalar_t) unit :=
  λ s, b ← local gi gi;
       if b : bool then
         r ← entry gi gi s.2;
         let Rii := s_abs r.1 in
         Some (tt, (std_max s.1.1 Rii, std_min s.1.2 Rii, r.2))
       else Some (tt, s).

(** The values of [r_max] and [r_min] that this worker hands to the
    reductions, with the array [tau]: the function up to line 1242. *)
Definition orthogonalize_contribution
  (this : DistributedMatrix) (r_max r_min : scalar_t)
  : Cmd (heap scalar_t) (scalar_t * scalar_t * option addr) :=
  let minmn := Int.min (rows this) (cols this) in
  let N := Int.sub (Int.add (J this) minmn) 1 in
  pc ← liftM (pcol this); npc ← liftM (npcols this);
  let ltau := numroc N (NB this) pc 0 npc in
  tau ← new_array s_indet ltau;
  h ← getM;
  let out := pgeqrf (rows this) minmn (data_ this) (I this) (J this)
               (desc_ this) tau h in
  putM out.2;;
  if bool_decide (lrows this ≠ 0) && bool_decide (lcols this ≠ 0) then
    let Rmax := numeric_limits_min in
    let Rmin := numeric_limits_max in
    h ← getM;
    r ← liftM
          (if fixed this
           then for_range 0 minmn
                  (diagonal_step (is_local_fixed this) (global_fixed this))
                  (Rmax, Rmin, h)
           else for_range 0 minmn
                  (diagonal_step (is_local this) (global this))
                  (Rmax, Rmin, h));
    putM r.2.2;;
    mret (s_of_real r.2.1.1, s_of_real r.2.1.2, tau)
  else mret (r_max, r_min, tau).

(** [orthogonalize(r_max, r_min)]: the references as the function leaves
    them.  [peers_max] and [peers_min] are what the other workers of the
    grid hand to the two reductions. *)
Definition orthogonalize
  (this : DistributedMatrix) (r_max r_min : scalar_t)
  (peers_max peers_min : list scalar_t)
  : Cmd (heap scalar_t) (scalar_t * scalar_t) :=
  if negb (active this) then mret (r_max, r_min) else
  let minmn := Int.min (rows this) (cols this) in
  c ← orthogonalize_contribution this r_max r_min;
  let tau := c.2 in
  let r_max := gamx2d (c.1.1 :: peers_max) in
  let r_min := gamn2d (c.1.2 :: peers_min) in
  h ← getM;
  let out := pxxgqr (rows this) minmn minmn (data_ this) (I this) (J this)
               (desc_ this) tau h in
  putM out.2;;
  (if decide (out.1 = 0) then mret tt else failM);;
  (if decide (cols this > rows this) then
     tmp ← DistributedMatrixWrapper_new (rows this)
             (Int.sub (cols this) (rows this)) this 0 (rows this);
     zero tmp;;
     DistributedMatrixWrapper_destroy tmp
   else mret tt);;
  delete_array tau;;
  mret (r_max, r_min).
End orthogonalisation.

(** ** Extraction of rows and columns (lines 871-1010)

    [extract_rows] and [extract_cols] run on every worker of the grid
    and exchange one message with every other worker of their process
    column, or row.  A worker runs the function up to the sends (the
    _pack_ half), receives what the packing halves of its peers sent to
    it, and runs the rest (the _unpack_ half). *)

Section extraction.
Context {scalar_t : Type} `{!Scalar scalar_t}.

(** [v[i] += d] on a [std::vector<std::size_t>], with [d] an [int]. *)
Definition size_add (v : list Z) (i d : Z) : option (list Z) :=
  if decide (0 <= i) then
    x ← v !! Z.to_nat i;
    Some (<[Z.to_nat i := to_size_t (x + to_size_t d)]> v)
  else None.

(** [v[i].push_back(x)] on a vector of vectors. *)
Definition push_back_at (v : list (list scalar_t)) (i : Z) (x : scalar_t)
  : option (list (list scalar_t)) :=
  if decide (0 <= i) then
    b ← v !! Z.to_nat i; Some (<[Z.to_nat i := b ++ [x]]> v)
  else None.

(** [Ir[r]] *)
Definition index_at (Ir : list Z) (r : Z) : option Z :=
  if decide (0 <= r) then Ir !! Z.to_nat r else None.

(** What the function holds between its two halves: the result under
    construction, and on an active worker the coordinate along which it
    exchanges, the sizes of the receive buffers and the send buffers. *)
Definition packed : Type :=
  DistributedMatrix * option (Z * list Z * list (list scalar_t)).

(** *** Rows *)

(** The body of the first loop (lines 882-894); the state is
    [(rsizes, ssizes)] and the heap. *)
Definition extract_rows_count (this tmp : DistributedMatrix) (Ir : list Z)
  (prow : Z) (r : Z) : Cmd (list Z * list Z * heap scalar_t) unit :=
  λ s, gr ← index_at Ir r;
       owner ← rowg2p this (Int.wrap gr);
       if decide (owner ≠ prow) then
         rsizes ← size_add s.1.1 owner (lcols_ this);
         Some (tt, (rsizes, s.1.2, s.2))
       else
         dest ← rowg2p this (Int.wrap r);
         if decide (dest = prow) then
           tmpr ← rowg2l tmp (Int.wrap r);
           lr ← rowg2l this (Int.wrap gr);
           x ← for_range 0 (lcols_ this)
                 (λ c, v ← get_elem this lr c; set_elem tmp tmpr c v) s.2;
           Some (tt, (s.1, x.2))
         else
           ssizes ← size_add s.1.2 dest (lcols_ this);
           Some (tt, (s.1.1, ssizes, s.2)).

(** The body of the second loop (lines 900-911); the state is [sbuf],
    the heap [h] is only read. *)
Definition extract_rows_send (this : DistributedMatrix) (Ir : list Z)
  (prow : Z) (h : heap scalar_t) (r : Z) : Cmd (list (list scalar_t)) unit :=
  λ sbuf, gr ← index_at Ir r;
          owner ← rowg2p this (Int.wrap gr);
          if decide (owner = prow) then
            lr ← rowg2l this (Int.wrap gr);
            dest ← rowg2p this (Int.wrap r);
            if decide (dest ≠ prow) then
              for_range 0 (lcols_ this)
                (λ c sbuf, v ← get_elem this lr c h;
                           sbuf ← push_back_at sbuf dest v.1;
                           Some (tt, sbuf)) sbuf
            else Some (tt, sbuf)
          else Some (tt, sbuf).

(** Lines 875-911. *)
Definition extract_rows_pack (this : DistributedMatrix) (Ir : list Z)
  : Cmd (heap scalar_t) packed :=
  tmp ← DistributedMatrix_new_default (grid_ this)
          (Int.wrap (Z.of_nat (length Ir))) (cols this);
  if negb (active this) then mret (tmp, None) else
  npr ← liftM (nprows this); pr ← liftM (prow this);
  assertM (bool_decide (0 <= npr));;
  let sbuf := replicate (Z.to_nat npr) [] in
  let rsizes := replicate (Z.to_nat npr) 0 in
  let ssizes := replicate (Z.to_nat npr) 0 in
  h ← getM;
  st ← liftM (for_range 0 (Z.of_nat (length Ir))
                (extract_rows_count this tmp Ir pr) (rsizes, ssizes, h));
  putM st.2.2;;
  h ← getM;
  sb ← liftM (for_range 0 (Z.of_nat (length Ir))
                (extract_rows_send this Ir pr h) sbuf);
  mret (tmp, Some (pr, st.2.1.1, sb.2)).

(** [tmp(tmpr, c) = *(prbuf[owner]++)]: the state is the offsets of the
    pointers [prbuf] into the receive buffers, and the heap. *)
Definition take_received (rbuf : list (list scalar_t)) (owner : Z)
  (store : scalar_t → Cmd (heap scalar_t) unit)
  : Cmd (list Z * heap scalar_t) unit :=
  λ s, if decide (0 <= owner) then
         k ← s.1 !! Z.to_nat owner;
         b ← rbuf !! Z.to_nat owner;
         v ← b !! Z.to_nat k;
         x ← store v s.2;
         Some (tt, (<[Z.to_nat owner := k + 1]> s.1, x.2))
       else None.

(** The body of the third loop (lines 926-935). *)
Definition extract_rows_place (this tmp : DistributedMatrix) (Ir : list Z)
  (prow : Z) (rbuf : list (list scalar_t)) (r : Z)
  : Cmd (list Z * heap scalar_t) unit :=
  λ s, gr ← index_at Ir r;
       owner ← rowg2p this (Int.wrap gr);
       if decide (owner = prow) then Some (tt, s) else
       dest ← rowg2p this (Int.wrap r);
       if decide (dest ≠ prow) then Some (tt, s) else
       tmpr ← rowg2l tmp (Int.wrap r);
       for_range 0 (lcols_ this)
         (λ c, take_received rbuf owner (set_elem tmp tmpr c)) s.

(** Lines 923-938, with the receive buffers as the receives filled them. *)
Definition extract_rows_unpack (this tmp : DistributedMatrix) (Ir : list Z)
  (prow : Z) (rbuf : list (list scalar_t)) : Cmd (heap scalar_t) unit :=
  h ← getM;
  st ← liftM (for_range 0 (Z.of_nat (length Ir))
                (extract_rows_place this tmp Ir prow rbuf)
                (replicate (length rbuf) 0, h));
  putM st.2.2.

(** *** Columns *)

(** The body of the first loop (lines 954-967). *)
Definition extract_cols_count (this tmp : DistributedMatrix) (Jc : list Z)
  (pcol : Z) (c : Z) : Cmd (list Z * list Z * heap scalar_t) unit :=
  λ s, gc ← index_at Jc c;
       owner ← colg2p this (Int.wrap gc);
       if decide (owner ≠ pcol) then
         rsizes ← size_add s.1.1 owner (lrows_ this);
         Some (tt, (rsizes, s.1.2, s.2))
       else
         lc ← colg2l this (Int.wrap gc);
         dest ← colg2p this (Int.wrap c);
         if decide (dest = pcol) then
           tmpc ← colg2l tmp (Int.wrap c);
           x ← for_range 0 (lrows_ this)
                 (λ r, v ← get_elem this r lc; set_elem tmp r tmpc v) s.2;
           Some (tt, (s.1, x.2))
         else
           ssizes ← size_add s.1.2 dest (lrows_ this);
           Some (tt, (s.1.1, ssizes, s.2)).

(** The body of the second loop (lines 973-982). *)
Definition extract_cols_send (this : DistributedMatrix) (Jc : list Z)
  (pcol : Z) (h : heap scalar_t) (c : Z) : Cmd (list (list scalar_t)) unit :=
  λ sbuf, gc ← index_at Jc c;
          owner ← colg2p this (Int.wrap gc);
          if decide (owner = pcol) then
            dest ← colg2p this (Int.wrap c);
            if decide (dest ≠ pcol) then
              lc ← colg2l this (Int.wrap gc);
              for_range 0 (lrows_ this)
                (λ r sbuf, v ← get_elem this r lc h;
                           sbuf ← push_back_at sbuf dest v.1;
                           Some (tt, sbuf)) sbuf
            else Some (tt, sbuf)
          else Some (tt, sbuf).

(** Lines 946-982. *)
Definition extract_cols_pack (this : DistributedMatrix) (Jc : list Z)
  : Cmd (heap scalar_t) packed :=
  tmp ← DistributedMatrix_new_default (grid_ this) (rows this)
          (Int.wrap (Z.of_nat (length Jc)));
  if negb (active this) then mret (tmp, None) else
  assertM (bool_decide (I this = 1) && bool_decide (J this = 1));;
  npc ← liftM (npcols this); pc ← liftM (pcol this);
  assertM (bool_decide (0 <= npc));;
  let sbuf := replicate (Z.to_nat npc) [] in
  let rsizes := replicate (Z.to_nat npc) 0 in
  let ssizes := replicate (Z.to_nat npc) 0 in
  h ← getM;
  st ← liftM (for_range 0 (Z.of_nat (length Jc))
                (extract_cols_count this tmp Jc pc) (rsizes, ssizes, h));
  putM st.2.2;;
  h ← getM;
  sb ← liftM (for_range 0 (Z.of_nat (length Jc))
                (extract_cols_send this Jc pc h) sbuf);
  mret (tmp, Some (pc, st.2.1.1, sb.2)).

(** The body of the third loop (lines 997-1006). *)
Definition extract_cols_place (this tmp : DistributedMatrix) (Jc : list Z)
  (pcol : Z) (rbuf : list (list scalar_t)) (c : Z)
  : Cmd (list Z * heap scalar_t) unit :=
  λ s, gc ← index_at Jc c;
       owner ← colg2p this (Int.wrap gc);
       if decide (owner = pcol) then Some (tt, s) else
       dest ← colg2p this (Int.wrap c);
       if decide (dest ≠ pcol) then Some (tt, s) else
       tmpc ← colg2l tmp (Int.wrap c);
       for_range 0 (lrows_ this)
         (λ r, take_received rbuf owner (set_elem tmp r tmpc)) s.

(** Lines 994-1009. *)
Definition extract_cols_unpack (this tmp : DistributedMatrix) (Jc : list Z)
  (pcol : Z) (rbuf : list (list scalar_t)) : Cmd (heap scalar_t) unit :=
  h ← getM;
  st ← liftM (for_range 0 (Z.of_nat (length Jc))
                (extract_cols_place this tmp Jc pcol rbuf)
                (replicate (length rbuf) 0, h));
  putM st.2.2.

(** *** The exchange *)

(** [MPI_Irecv] into a buffer of [cap] zero-initialised cells of a
    message [msg]: a longer message is an error. *)
Definition receive (cap : Z) (msg : list scalar_t) : option (list scalar_t) :=
  if decide (Z.of_nat (length msg) <= cap)
  then Some (msg ++ replicate (Z.to_nat cap - length msg) s_zero)
  else None.

(** The receive buffers of the worker at [me], given what each peer [p]
    packed: nothing comes from the worker itself. *)
Definition exchange (me : Z) (rsizes : list Z)
  (peer : Z → option packed) : option (list (list scalar_t)) :=
  mapM (λ p, cap ← rsizes !! Z.to_nat p;
             if decide (p = me) then Some (replicate (Z.to_nat cap) s_zero)
             else x ← peer p;
                  y ← x.2;
                  msg ← y.2 !! Z.to_nat me;
                  receive cap msg)
       (seqZ 0 (Z.of_nat (length rsizes))).

(** [extract_rows(Ir)] on the worker at [(pr, pc)] of a grid whose
    worker at [(p, q)] holds the matrix and heap [W p q]: the result
    and the heap of that worker. *)
Definition extract_rows (W : Z → Z → DistributedMatrix * heap scalar_t)
  (Ir : list Z) (pr pc : Z) : option (DistributedMatrix * heap scalar_t) :=
  x ← extract_rows_pack (W pr pc).1 Ir (W pr pc).2;
  match x.1.2 with
  | None => Some (x.1.1, x.2)
  | Some y =>
      rbuf ← exchange y.1.1 y.1.2
                (λ p, fst <$> extract_rows_pack (W p pc).1 Ir (W p pc).2);
      z ← extract_rows_unpack (W pr pc).1 x.1.1 Ir y.1.1 rbuf x.2;
      Some (x.1.1, z.2)
  end.

(** [extract_cols(Jc)] likewise; the peers are in the process row. *)
Definition extract_cols (W : Z → Z → DistributedMatrix * heap scalar_t)
  (Jc : list Z) (pr pc : Z) : option (DistributedMatrix * heap scalar_t) :=
  x ← extract_cols_pack (W pr pc).1 Jc (W pr pc).2;
  match x.1.2 with
  | None => Some (x.1.1, x.2)
  | Some y =>
      rbuf ← exchange y.1.1 y.1.2
                (λ q, fst <$> extract_cols_pack (W pr q).1 Jc (W pr q).2);
      z ← extract_cols_unpack (W pr pc).1 x.1.1 Jc y.1.1 rbuf x.2;
      Some (x.1.1, z.2)
  end.

(** The entry at the global position [(r, c)] of a matrix spread over
    the grid: the worker that owns it, by [rowg2p] and [colg2p], reads
    it with [global] (lines 170-171). *)
Definition global_entry (W : Z → Z → option (DistributedMatrix * heap scalar_t))
  (r c : Z) : option scalar_t :=
  o ← W 0 0;
  pr ← rowg2p o.1 r; pc ← colg2p o.1 c;
  x ← W pr pc;
  fst <$> global x.1 r c x.2.
End extraction.

(** ** Instances used to run the model on concrete inputs *)

(** Integer entries; an unwritten cell reads as [-1]. *)
#[global] Instance Z_scalar : Scalar Z :=
  {| s_zero := 0; s_one := 1; s_add := Z.add; s_indet := -1 |}.

(** [infog2l] as the ScaLAPACK tools define it. *)
Definition ref_infog2l (grindx gcindx : Z) (desc : list Z)
  (nprow npcol myrow mycol : Z) : Z * Z :=
  let mb := nth 4 desc 0 in
  let nb := nth 5 desc 0 in
  let rsrc := nth 6 desc 0 in
  let csrc := nth 7 desc 0 in
  let one (gindx b src np me : Z) : Z :=
    let blk := (gindx - 1) `div` b in
    let owner := (blk + src) `mod` np in
    let l := (blk `div` np + 1) * b + 1 in
    if decide ((me + np - src) `mod` np >= blk `mod` np)
    then (if decide (me = owner) then l + (gindx - 1) `mod` b else l) - b
    else l in
  (one grindx mb rsrc nprow myrow, one gcindx nb csrc npcol mycol).

(** Kernels for runs on integer entries: [infog2l] as above, no
    pivoting, and the other kernels leave the heap as it is. *)
#[global] Instance Z_kernels : ScaLAPACK Z :=
  {| infog2l := ref_infog2l;
     plange := λ _ _ _ _ _ _ _ _, 0%float;
     pgeqpfmod := λ m n _ _ _ _ J piv _ _ h, (h, (J, piv, Z.min m n));
     pgemr2d := λ _ _ _ _ _ _ _ _ _ _ _ h, h;
     ptrsm := λ _ _ _ _ _ _ _ _ _ _ _ _ _ _ _ h, h;
     pgeqrf := λ _ _ _ _ _ _ _ h, (0, h);
     pxxgqr := λ _ _ _ _ _ _ _ _ h, (0, h);
     gamx2d := λ l, foldr Z.max 0 l;
     gamn2d := λ l, foldr Z.min 0 l |}.

(** A generator that counts. *)
#[global] Instance Z_counter : RandomGenerator Z :=
  {| rng := Z; make_default_random_generator := 0;
     rng_seed := λ pr pc _, pr + pc; rng_get := λ s, (s, s + 1) |}.

(** Double precision entries.  The reductions are those of the BLACS:
    [gamx2d] keeps the value of largest magnitude and [gamn2d] the one of
    smallest magnitude.  [pgeqrf] and [pxxgqr] leave the heap as it is,
    which is what they compute on a 1 x 1 matrix. *)
#[global] Instance float_scalar : Scalar float :=
  {| s_zero := 0%float; s_one := 1%float; s_add := PrimFloat.add;
     s_indet := PrimFloat.nan |}.
#[global] Instance float_magnitude : Magnitude float :=
  {| s_abs := PrimFloat.abs; s_of_real := λ x, x |}.
Definition amx (l : list float) : float :=
  match l with
  | [] => 0%float
  | x :: l => foldl (λ a y, if PrimFloat.ltb (PrimFloat.abs a) (PrimFloat.abs y)
                            then y else a) x l
  end.
Definition amn (l : list float) : float :=
  match l with
  | [] => 0%float
  | x :: l => foldl (λ a y, if PrimFloat.ltb (PrimFloat.abs y) (PrimFloat.abs a)
                            then y else a) x l
  end.
#[global] Instance float_kernels : ScaLAPACK float :=
  {| infog2l := ref_infog2l;
     plange := λ _ _ _ _ _ _ _ _, 0%float;
     pgeqpfmod := λ m n _ _ _ _ J piv _ _ h, (h, (J, piv, Z.min m n));
     pgemr2d := λ _ _ _ _ _ _ _ _ _ _ _ h, h;
     ptrsm := λ _ _ _ _ _ _ _ _ _ _ _ _ _ _ _ h, h;
     pgeqrf := λ _ _ _ _ _ _ _ h, (0, h);
     pxxgqr := λ _ _ _ _ _ _ _ _ h, (0, h);
     gamx2d := amx;
     gamn2d := amn |}.

(** The worker at [(pr, pc)] of an [npr] x [npc] grid, and its share of
    the [rows] x [cols] matrix with entries [f r c] at block sizes [MB]
    and [NB], in column-major order at address 1 of its heap. *)
Definition grid_at (npr npc pr pc : Z) : BLACSGrid :=
  {| g_nprows := npr; g_npcols := npc; g_prow := pr; g_pcol := pc;
     g_active := true; g_ctxt := 0; g_ctxt_all := 0 |}.
Definition local_cells {T} (npr npc MB NB rows cols : Z) (f : Z → Z → T)
  (pr pc : Z) : list T :=
  c ← seqZ 0 (numroc cols NB pc 0 npc);
  r ← seqZ 0 (numroc rows MB pr 0 npr);
  [f (l2g0 r MB pr npr) (l2g0 c NB pc npc)].
Definition distribute {T} (npr npc MB NB rows cols : Z) (f : Z → Z → T)
  (pr pc : Z) : DistributedMatrix * heap T :=
  let lr := numroc rows MB pr 0 npr in
  let lc := numroc cols NB pc 0 npc in
  ({| grid_ := Some (grid_at npr npc pr pc); data_ := Some 1%positive;
      lrows_ := lr; lcols_ := lc;
      desc_ := descset rows cols MB NB 0 0 0 (Int.max lr 1);
      wrapper_ := None |},
   {[1%positive := local_cells npr npc MB NB rows cols f pr pc]}).

(** A 1 x 1 grid, and a 2 x 1 grid seen from its second process row. *)
Definition grid_1x1 : BLACSGrid :=
  {| g_nprows := 1; g_npcols := 1; g_prow := 0; g_pcol := 0;
     g_active := true; g_ctxt := 0; g_ctxt_all := 0 |}.
Definition grid_2x1 (prow : Z) : BLACSGrid :=
  {| g_nprows := 2; g_npcols := 1; g_prow := prow; g_pcol := 0;
     g_active := true; g_ctxt := 0; g_ctxt_all := 0 |}.

(** * Properties *)

(** ** Construction *)

Section construction.
Context {scalar_t : Type} `{!Scalar scalar_t}.

Lemma active_None m : grid_ m = None → active m = false.
Proof. unfold active. by intros ->. Qed.

(** The constructor by shape leaves an inactive worker with no local
    rows, no local columns and no buffer. *)
Lemma DistributedMatrix_new_inactive g M N MB NB (h : heap scalar_t) :
  0 <= M → 0 <= N → 0 <= MB → 0 <= NB →
  match g with Some g => g_active g | None => false end = false →
  ∃ this, DistributedMatrix_new g M N MB NB h = Some (this, h) ∧
          lrows_ this = 0 ∧ lcols_ this = 0 ∧ data_ this = None.
Proof.
  intros HM HN HMB HNB Hg. unfold DistributedMatrix_new.
  rewrite !bool_decide_true by lia. simpl.
  unfold active; simpl. rewrite Hg. simpl.
  eexists. split; [reflexivity|]. done.
Qed.

(** C4 (code): the constructor from a descriptor on a worker of the grid
    [g].  Where the worker is active the matrix comes out empty, with a
    null buffer; where it is not, the constructor goes on to ask the grid
    for its coordinates and fails.  The same holds for a null grid. *)
Theorem DistributedMatrix_of_desc_inverted
  (g : BLACSGrid) (desc : list Z) (h : heap scalar_t) :
  DistributedMatrix_of_desc (Some g) desc h =
    (if g_active g
     then Some ({| grid_ := Some g; data_ := None; lrows_ := 0; lcols_ := 0;
                   desc_ := take 9 desc; wrapper_ := None |}, h)
     else None)
  ∧ DistributedMatrix_of_desc None desc h = None.
Proof.
  unfold DistributedMatrix_of_desc, active, prow, grid_prow; simpl.
  destruct (g_active g); done.
Qed.
End construction.

(** ** Move construction and move assignment *)

Section moving.
Context {scalar_t : Type}.

Lemma deref_Some (w : world scalar_t) x o :
  objects w !! x = Some o → deref x w = Some (o, w).
Proof. unfold deref. by intros ->. Qed.

Lemma update_Some (w : world scalar_t) x f o :
  objects w !! x = Some o →
  update x f w = Some (tt, World (<[x := f o]> (objects w)) (memory w)).
Proof. unfold update. by intros ->. Qed.

(** What [delete[] p] leaves of the heap. *)
Definition released (p : option addr) (h : heap scalar_t) : heap scalar_t :=
  match p with Some a => delete a h | None => h end.

Lemma delete_array_Some p (h : heap scalar_t) :
  (∀ a, p = Some a → is_Some (h !! a)) →
  delete_array p h = Some (tt, released p h).
Proof.
  destruct p as [a|]; simpl; [|done].
  intros Ha. destruct (Ha a eq_refl) as [b ->]. done.
Qed.

(** The move assignment between two different objects. *)
Lemma move_assign_distinct
  (w : world scalar_t) (this m : positive) (t x : DistributedMatrix) :
  this ≠ m →
  objects w !! this = Some t →
  objects w !! m = Some x →
  (∀ a, data_ t = Some a → is_Some (memory w !! a)) →
  DistributedMatrix_move_assign this m w =
    Some (tt,
          World (<[m := set_data_ None x]>
                   (<[this := {| grid_ := grid_ x; data_ := data_ x;
                                  lrows_ := lrows_ x; lcols_ := lcols_ x;
                                  desc_ := take 9 (desc_ x);
                                  wrapper_ := wrapper_ t |}]>
                      (objects w)))
                (released (data_ t) (memory w))).
Proof.
  intros Hne Ht Hx Hdel.
  unfold DistributedMatrix_move_assign.
  unfold mbind at 1, Cmd_bind. rewrite (deref_Some _ _ x) by done.
  unfold mbind at 1, Cmd_bind. rewrite (update_Some _ _ _ t) by done.
  unfold mbind at 1, Cmd_bind.
  rewrite (deref_Some _ _ x) by (simpl; by rewrite lookup_insert_ne).
  unfold mbind at 1, Cmd_bind.
  erewrite update_Some by (simpl; apply lookup_insert_eq).
  unfold mbind at 1, Cmd_bind.
  rewrite (deref_Some _ _ x) by (simpl; by rewrite !lookup_insert_ne).
  unfold mbind at 1, Cmd_bind.
  erewrite update_Some by (simpl; apply lookup_insert_eq).
  unfold mbind at 1, Cmd_bind.
  rewrite (deref_Some _ _ x) by (simpl; by rewrite !lookup_insert_ne).
  unfold mbind at 1, Cmd_bind.
  erewrite update_Some by (simpl; apply lookup_insert_eq).
  unfold mbind at 1, Cmd_bind.
  erewrite deref_Some by (simpl; apply lookup_insert_eq).
  unfold mbind at 1, Cmd_bind.
  unfold on_memory; simpl.
  rewrite delete_array_Some by done. simpl.
  unfold mbind at 1, Cmd_bind.
  rewrite (deref_Some _ _ x) by (simpl; by rewrite !lookup_insert_ne).
  unfold mbind at 1, Cmd_bind.
  erewrite update_Some by (simpl; apply lookup_insert_eq).
  erewrite update_Some by (simpl; by rewrite !lookup_insert_ne).
  simpl. rewrite !insert_insert_eq. reflexivity.
Qed.

(** C6 (amended): after the move constructor the new object holds the
    buffer, grid, local counts and descriptor of [m], and [m] keeps its
    local counts and descriptor with a null buffer pointer.  After the
    move assignment of [m] to a different object [this] whose buffer can
    be deleted, [this] holds the buffer, grid, local counts and
    descriptor of [m], the former buffer of [this] is deleted, and [m]
    keeps its local counts and descriptor with a null buffer pointer. *)
Theorem move_transfers_buffer
  (w : world scalar_t) (this m : positive) (t x : DistributedMatrix) :
  this ≠ m →
  objects w !! this = Some t →
  objects w !! m = Some x →
  (∀ a, data_ t = Some a → is_Some (memory w !! a)) →
  length (desc_ x) = 9%nat →
  DistributedMatrix_move x =
    ({| grid_ := grid_ x; data_ := data_ x; lrows_ := lrows_ x;
        lcols_ := lcols_ x; desc_ := desc_ x; wrapper_ := None |},
     set_data_ None x)
  ∧ DistributedMatrix_move_assign this m w =
      Some (tt,
            World (<[m := set_data_ None x]>
                     (<[this := {| grid_ := grid_ x; data_ := data_ x;
                                    lrows_ := lrows_ x; lcols_ := lcols_ x;
                                    desc_ := desc_ x;
                                    wrapper_ := wrapper_ t |}]>
                        (objects w)))
                  (released (data_ t) (memory w))).
Proof.
  intros Hne Ht Hx Hdel Hlen.
  assert (take 9 (desc_ x) = desc_ x) as Htake
    by (apply take_ge; lia).
  split.
  - unfold DistributedMatrix_move, lrows, lcols. by rewrite Htake.
  - rewrite (move_assign_distinct w this m t x) by done.
    by rewrite Htake.
Qed.
End moving.

(** A 2 x 2 matrix with block size 2 on the 1 x 1 grid, as the
    constructor by shape builds it in an empty heap, and a second one. *)
Definition owner_2x2 : DistributedMatrix :=
  {| grid_ := Some grid_1x1; data_ := Some 1%positive; lrows_ := 2;
     lcols_ := 2; desc_ := descset 2 2 2 2 0 0 0 2; wrapper_ := None |}.
Definition other_1x1 : DistributedMatrix :=
  {| grid_ := Some grid_1x1; data_ := Some 2%positive; lrows_ := 1;
     lcols_ := 1; desc_ := descset 1 1 2 2 0 0 0 1; wrapper_ := None |}.
Definition two_objects : world Z :=
  World (<[2%positive := owner_2x2]> {[1%positive := other_1x1]})
        (<[2%positive := [7]]> {[1%positive := [1; 2; 3; 4]]}).

(** C6, as stated: the matrix moved from keeps its local row and column
    counts, 2 and 2 here, after the move constructor and after the move
    assignment. *)
Lemma move_keeps_local_counts :
  DistributedMatrix_new (Some grid_1x1) 2 2 2 2 (∅ : heap Z)
    = Some (owner_2x2, {[1%positive := [-1; -1; -1; -1]]})
  ∧ (DistributedMatrix_move owner_2x2).2 = set_data_ None owner_2x2
  ∧ lrows_ (DistributedMatrix_move owner_2x2).2 = 2
  ∧ lcols_ (DistributedMatrix_move owner_2x2).2 = 2
  ∧ ∃ w, DistributedMatrix_move_assign 1 2 two_objects = Some (tt, w)
         ∧ (m ← objects w !! 2%positive; Some (lrows_ m, lcols_ m))
             = Some (2, 2).
Proof.
  repeat split; try (vm_compute; reflexivity).
  eexists. split; vm_compute; reflexivity.
Qed.

Lemma move_transfers_buffer_witness :
  DistributedMatrix_move owner_2x2 =
    ({| grid_ := grid_ owner_2x2; data_ := data_ owner_2x2;
        lrows_ := lrows_ owner_2x2; lcols_ := lcols_ owner_2x2;
        desc_ := desc_ owner_2x2; wrapper_ := None |},
     set_data_ None owner_2x2)
  ∧ DistributedMatrix_move_assign 1 2 two_objects =
      Some (tt,
            World (<[2%positive := set_data_ None owner_2x2]>
                     (<[1%positive :=
                          {| grid_ := grid_ owner_2x2;
                             data_ := data_ owner_2x2;
                             lrows_ := lrows_ owner_2x2;
                             lcols_ := lcols_ owner_2x2;
                             desc_ := desc_ owner_2x2;
                             wrapper_ := wrapper_ other_1x1 |}]>
                        (objects two_objects)))
                  (released (data_ other_1x1) (memory two_objects))).
Proof.
  apply (move_transfers_buffer two_objects 1 2 other_1x1 owner_2x2).
  - discriminate.
  - reflexivity.
  - reflexivity.
  - intros a [= <-]. exists [7]. reflexivity.
  - reflexivity.
Defined.

(** ** Views *)

Section views.
Context {scalar_t : Type} `{!Scalar scalar_t}.

(** C8: [resize] and [hconcat] of a view return with the view and the
    heap as they were: the advertised shape, the descriptor, the local
    counts, the buffer pointer and the contents of every buffer. *)
Theorem wrapper_resize_hconcat_unchanged
  (this b : DistributedMatrix) (m n : Z) (h : heap scalar_t) :
  DistributedMatrixWrapper_resize this m n h = Some (this, h)
  ∧ DistributedMatrixWrapper_hconcat this b h = Some (this, h).
Proof. split; reflexivity. Qed.

(** C10: destroying or clearing a view leaves the heap as it was.  The
    pointer of the view is null when the base class deletes it. *)
Theorem wrapper_release_keeps_heap
  (this : DistributedMatrix) (h : heap scalar_t) :
  DistributedMatrixWrapper_destroy this h = Some (tt, h)
  ∧ ∃ this', DistributedMatrixWrapper_clear this h = Some (this', h)
             ∧ data_ this' = None
             ∧ lrows_ this' = 0 ∧ lcols_ this' = 0.
Proof.
  split; [reflexivity|].
  unfold DistributedMatrixWrapper_clear, DistributedMatrix_clear.
  unfold mbind, Cmd_bind, delete_array; simpl.
  eexists. split; [reflexivity|]. done.
Qed.

(** For contrast: [clear()] of the base class on the same object deletes
    the buffer the view shares. *)
Lemma base_clear_deletes (this : DistributedMatrix) (h : heap scalar_t) a buf :
  data_ this = Some a → h !! a = Some buf →
  ∃ this', DistributedMatrix_clear this h = Some (this', delete a h).
Proof.
  intros Hd Ha. unfold DistributedMatrix_clear, delete_array.
  unfold mbind, Cmd_bind. rewrite Hd, Ha. eexists. reflexivity.
Qed.
End views.

(** ** Workers outside the grid *)

Section inactive.
Context {scalar_t : Type} `{!Scalar scalar_t} `{!ScaLAPACK scalar_t}
        `{!RandomGenerator scalar_t}.

(** [zero], [fill], [eye] and both [random] return at once on a worker
    that is not active. *)
Lemma guarded_fills_inactive (this : DistributedMatrix) (a : scalar_t)
  (g : rng) (h : heap scalar_t) :
  active this = false →
  zero this h = Some (tt, h) ∧ fill this a h = Some (tt, h)
  ∧ eye this h = Some (tt, h) ∧ random this h = Some (tt, h)
  ∧ random_with this (g, h) = Some (tt, (g, h)).
Proof.
  intros Ha. unfold zero, fill, eye, random, random_with.
  rewrite Ha. done.
Qed.

(** [shift] has no such test.  On a matrix of the base class without
    local rows it still does nothing: its loops are empty. *)
Lemma shift_no_local_rows (this : DistributedMatrix) (sigma : scalar_t)
  (h : heap scalar_t) :
  wrapper_ this = None → lrows_ this = 0 →
  shift this sigma h = Some (tt, h).
Proof.
  intros Hw Hr. unfold shift, lranges, lrows, lcols. rewrite Hw, Hr.
  simpl. unfold mbind, Cmd_bind; simpl.
  unfold for_range. generalize (seqZ 0 (lcols_ this - 0)) as cs.
  induction cs as [|c cs IH]; [done|]. simpl.
  unfold mbind, Cmd_bind; simpl. apply IH.
Qed.

(** C7 (code): a default-constructed view is on no grid, so it is not
    active.  [zero] returns at once; [shift] goes on to [lranges], which
    asks the null grid for its extents, and fails. *)
Theorem shift_inactive_view_fails (sigma : scalar_t) (h : heap scalar_t) :
  ∃ this, DistributedMatrixWrapper_empty h = Some (this, h)
          ∧ active this = false
          ∧ zero this h = Some (tt, h)
          ∧ shift this sigma h = None.
Proof.
  eexists. split; [reflexivity|]. repeat split.
Qed.

(** C9: on a worker that is not active the four norms return [-1] and
    leave the heap as it is; [-1] is negative. *)
Theorem norms_inactive (this : DistributedMatrix) (h : heap scalar_t) :
  active this = false →
  norm this h = Some ((-1)%float, h)
  ∧ norm1 this h = Some ((-1)%float, h)
  ∧ normI this h = Some ((-1)%float, h)
  ∧ normF this h = Some ((-1)%float, h)
  ∧ PrimFloat.ltb (-1) 0 = true.
Proof.
  intros Ha. unfold norm, norm1, normI, normF. rewrite Ha. done.
Qed.
End inactive.

Lemma norms_inactive_witness :
  let this := {| grid_ := None; data_ := None; lrows_ := 0; lcols_ := 0;
                 desc_ := descset 0 0 32 32 0 0 (-1) 1;
                 wrapper_ := None |} in
  DistributedMatrix_empty (∅ : heap Z) = Some (this, ∅)
  ∧ norm this (∅ : heap Z) = Some ((-1)%float, ∅)
  ∧ norm1 this (∅ : heap Z) = Some ((-1)%float, ∅)
  ∧ normI this (∅ : heap Z) = Some ((-1)%float, ∅)
  ∧ normF this (∅ : heap Z) = Some ((-1)%float, ∅)
  ∧ PrimFloat.ltb (-1) 0 = true.
Proof.
  split; [reflexivity|].
  apply (norms_inactive (scalar_t := Z)). reflexivity.
Defined.

(** ** Matrices on the grid: layout *)

(** The invariant of a [DistributedMatrix] that owns its buffer, on a
    worker of the grid [g]: nine descriptor entries, block sizes of at
    least one, the local counts of the block-cyclic mapping, and sizes
    that fit in an [int]. *)
Record layout_ok (m : DistributedMatrix) (g : BLACSGrid) : Prop := {
  lo_grid : grid_ m = Some g;
  lo_active : g_active g = true;
  lo_owning : wrapper_ m = None;
  lo_nprows : 1 <= g_nprows g;
  lo_npcols : 1 <= g_npcols g;
  lo_prow : 0 <= g_prow g < g_nprows g;
  lo_pcol : 0 <= g_pcol g < g_npcols g;
  lo_desc : length (desc_ m) = 9%nat;
  lo_MB : 1 <= MB m;
  lo_NB : 1 <= NB m;
  lo_rows : 0 <= rows m < Int.INT_MAX;
  lo_cols : 0 <= cols m < Int.INT_MAX;
  lo_lrows : lrows_ m = numroc (rows m) (MB m) (g_prow g) 0 (g_nprows g);
  lo_lcols : lcols_ m = numroc (cols m) (NB m) (g_pcol g) 0 (g_npcols g);
  lo_row_blocks : g_nprows g * MB m <= Int.INT_MAX;
  lo_col_blocks : g_npcols g * NB m <= Int.INT_MAX;
  lo_row_procs : 2 * g_nprows g <= Int.INT_MAX;
  lo_col_procs : 2 * g_npcols g <= Int.INT_MAX;
  lo_size : rows m * cols m <= Int.INT_MAX;
}.

Section layout.
Variables (m : DistributedMatrix) (g : BLACSGrid).
Hypothesis Hok : layout_ok m g.

Lemma layout_active : active m = true.
Proof. unfold active. rewrite (lo_grid _ _ Hok). apply (lo_active _ _ Hok). Qed.

Lemma layout_prow : prow m = Some (g_prow g).
Proof.
  unfold prow, grid_prow. rewrite (lo_grid _ _ Hok). simpl.
  by rewrite (lo_active _ _ Hok).
Qed.

Lemma layout_pcol : pcol m = Some (g_pcol g).
Proof.
  unfold pcol, grid_pcol. rewrite (lo_grid _ _ Hok). simpl.
  by rewrite (lo_active _ _ Hok).
Qed.

Lemma layout_nprows : nprows m = Some (g_nprows g).
Proof. unfold nprows. by rewrite (lo_grid _ _ Hok). Qed.

Lemma layout_npcols : npcols m = Some (g_npcols g).
Proof. unfold npcols. by rewrite (lo_grid _ _ Hok). Qed.

Lemma layout_I : I m = 1.
Proof. unfold I. by rewrite (lo_owning _ _ Hok). Qed.

Lemma layout_J : J m = 1.
Proof. unfold J. by rewrite (lo_owning _ _ Hok). Qed.

Lemma layout_lrows_range : 0 <= lrows_ m <= rows m.
Proof.
  destruct Hok. rewrite lo_lrows0. apply numroc_range; lia.
Qed.

Lemma layout_lcols_range : 0 <= lcols_ m <= cols m.
Proof.
  destruct Hok. rewrite lo_lcols0. apply numroc_range; lia.
Qed.

(** A local row below [lrows_] is the image of a global row below
    [rows()], and likewise for columns. *)
Lemma layout_row_local l :
  0 <= l < lrows_ m →
  0 <= l2g0 l (MB m) (g_prow g) (g_nprows g) < rows m.
Proof.
  intros Hl. destruct Hok. unfold l2g0.
  pose proof (numroc_l2g (rows m) (MB m) (g_prow g) (g_nprows g) (l + 1)
                ltac:(lia) ltac:(lia) ltac:(lia) ltac:(lia) ltac:(lia)) as [H _].
  pose proof (l2g_lower (MB m) (g_nprows g) ltac:(lia) ltac:(lia)
                (l + 1) (g_prow g) ltac:(lia) ltac:(lia)).
  rewrite <- lo_lrows0 in H. lia.
Qed.

Lemma layout_col_local l :
  0 <= l < lcols_ m →
  0 <= l2g0 l (NB m) (g_pcol g) (g_npcols g) < cols m.
Proof.
  intros Hl. destruct Hok. unfold l2g0.
  pose proof (numroc_l2g (cols m) (NB m) (g_pcol g) (g_npcols g) (l + 1)
                ltac:(lia) ltac:(lia) ltac:(lia) ltac:(lia) ltac:(lia)) as [H _].
  pose proof (l2g_lower (NB m) (g_npcols g) ltac:(lia) ltac:(lia)
                (l + 1) (g_pcol g) ltac:(lia) ltac:(lia)).
  rewrite <- lo_lcols0 in H. lia.
Qed.

Lemma rowl2g_exact l :
  0 <= l < lrows_ m →
  rowl2g m l = Some (l2g0 l (MB m) (g_prow g) (g_nprows g)).
Proof.
  intros Hl. pose proof (layout_row_local l Hl) as Hg.
  pose proof layout_lrows_range as Hr.
  unfold rowl2g. rewrite layout_prow, layout_nprows, layout_I. simpl.
  destruct Hok. unfold l2g0 in *.
  rewrite (Int.add_exact l 1) by int_range.
  rewrite indxl2g_exact by int_range. simpl.
  by rewrite Int.sub_exact by int_range.
Qed.

Lemma coll2g_exact l :
  0 <= l < lcols_ m →
  coll2g m l = Some (l2g0 l (NB m) (g_pcol g) (g_npcols g)).
Proof.
  intros Hl. pose proof (layout_col_local l Hl) as Hg.
  pose proof layout_lcols_range as Hr.
  unfold coll2g. rewrite layout_pcol, layout_npcols, layout_J. simpl.
  destruct Hok. unfold l2g0 in *.
  rewrite (Int.add_exact l 1) by int_range.
  rewrite indxl2g_exact by int_range. simpl.
  by rewrite Int.sub_exact by int_range.
Qed.

Lemma rowg2p_exact r :
  0 <= r < Int.INT_MAX →
  rowg2p m r = Some (g2p0 r (MB m) (g_nprows g)).
Proof.
  intros Hr. unfold rowg2p.
  rewrite layout_prow, layout_nprows, layout_I. simpl.
  destruct Hok. rewrite (Int.add_exact r 1) by int_range.
  by rewrite indxg2p_exact by int_range.
Qed.

Lemma colg2p_exact c :
  0 <= c < Int.INT_MAX →
  colg2p m c = Some (g2p0 c (NB m) (g_npcols g)).
Proof.
  intros Hc. unfold colg2p.
  rewrite layout_pcol, layout_npcols, layout_J. simpl.
  destruct Hok. rewrite (Int.add_exact c 1) by int_range.
  by rewrite indxg2p_exact by int_range.
Qed.

Lemma rowg2l_exact r :
  0 <= r < Int.INT_MAX →
  rowg2l m r = Some (g2l0 r (MB m) (g_nprows g)).
Proof.
  intros Hr. unfold rowg2l.
  rewrite layout_prow, layout_nprows, layout_I. simpl.
  destruct Hok. rewrite (Int.add_exact r 1) by int_range.
  rewrite indxg2l_exact by int_range. simpl.
  pose proof (g2l_lower (MB m) (g_nprows g) ltac:(lia) ltac:(lia) (r + 1)
                ltac:(lia)).
  assert (g2l (r + 1) (MB m) (g_nprows g) <= r + 1).
  { unfold g2l.
    pose proof (Z.div_mod (r + 1 - 1) (MB m) ltac:(lia)).
    pose proof (Z.mod_pos_bound (r + 1 - 1) (MB m) ltac:(lia)).
    rewrite <- Z.div_div by lia.
    pose proof (Z.div_pos (r + 1 - 1) (MB m) ltac:(lia) ltac:(lia)).
    pose proof (Z.mul_div_le ((r + 1 - 1) `div` MB m) (g_nprows g) ltac:(lia)).
    pose proof (Z.div_pos ((r + 1 - 1) `div` MB m) (g_nprows g)
                  ltac:(lia) ltac:(lia)).
    nia. }
  unfold g2l0. by rewrite Int.sub_exact by int_range.
Qed.

Lemma colg2l_exact c :
  0 <= c < Int.INT_MAX →
  colg2l m c = Some (g2l0 c (NB m) (g_npcols g)).
Proof.
  intros Hc. unfold colg2l.
  rewrite layout_pcol, layout_npcols, layout_J. simpl.
  destruct Hok. rewrite (Int.add_exact c 1) by int_range.
  rewrite indxg2l_exact by int_range. simpl.
  pose proof (g2l_lower (NB m) (g_npcols g) ltac:(lia) ltac:(lia) (c + 1)
                ltac:(lia)).
  assert (g2l (c + 1) (NB m) (g_npcols g) <= c + 1).
  { unfold g2l.
    pose proof (Z.div_mod (c + 1 - 1) (NB m) ltac:(lia)).
    pose proof (Z.mod_pos_bound (c + 1 - 1) (NB m) ltac:(lia)).
    rewrite <- Z.div_div by lia.
    pose proof (Z.div_pos (c + 1 - 1) (NB m) ltac:(lia) ltac:(lia)).
    pose proof (Z.mul_div_le ((c + 1 - 1) `div` NB m) (g_npcols g) ltac:(lia)).
    pose proof (Z.div_pos ((c + 1 - 1) `div` NB m) (g_npcols g)
                  ltac:(lia) ltac:(lia)).
    nia. }
  unfold g2l0. by rewrite Int.sub_exact by int_range.
Qed.
End layout.

(** ** Loops *)

Section loops.
Context {S : Type}.

Lemma bind_Some {A B} (c : Cmd S A) (k : A → Cmd S B) s x s' :
  c s = Some (x, s') → (c ≫= k) s = k x s'.
Proof. unfold mbind, Cmd_bind. by intros ->. Qed.

Lemma liftM_Some {A} (o : option A) (x : A) (s : S) :
  o = Some x → liftM o s = Some (x, s).
Proof. by intros ->. Qed.

Lemma for_range_empty lo hi (body : Z → Cmd S unit) s :
  hi <= lo → for_range lo hi body s = Some (tt, s).
Proof.
  intros H. unfold for_range, seqZ.
  replace (Z.to_nat (hi - lo)) with 0%nat by lia. done.
Qed.

Lemma for_range_step lo hi (body : Z → Cmd S unit) :
  lo < hi →
  for_range lo hi body = (body lo;; for_range (lo + 1) hi body).
Proof.
  intros H. unfold for_range.
  rewrite (seqZ_cons lo (hi - lo)) by lia. simpl.
  by replace (Z.pred (hi - lo)) with (hi - (lo + 1)) by lia.
Qed.

(** The loop rule: an invariant [P i] that holds on entry and that every
    iteration carries from [i] to [i + 1] holds at [hi] on exit, and the
    loop does not fail. *)
Lemma for_range_inv (P : Z → S → Prop) lo hi (body : Z → Cmd S unit) s :
  lo <= hi → P lo s →
  (∀ i s, lo <= i < hi → P i s →
          ∃ s', body i s = Some (tt, s') ∧ P (i + 1) s') →
  ∃ s', for_range lo hi body s = Some (tt, s') ∧ P hi s'.
Proof.
  intros Hle. remember (Z.to_nat (hi - lo)) as n eqn:Hn.
  revert lo s Hle Hn. induction n as [|n IH]; intros lo s Hle Hn HP Hbody.
  - assert (hi = lo) as -> by lia.
    exists s. split; [|done]. apply for_range_empty. lia.
  - rewrite for_range_step by lia.
    destruct (Hbody lo s ltac:(lia) HP) as (s1 & Hs1 & HP1).
    destruct (IH (lo + 1) s1 ltac:(lia) ltac:(lia) HP1) as (s2 & Hs2 & HP2).
    { intros i s' Hi. apply Hbody. lia. }
    exists s2. split; [|done].
    unfold mbind, Cmd_bind. by rewrite Hs1.
Qed.
End loops.

(** ** Interpolative decomposition *)

Section id_column.
Context {scalar_t : Type} `{!Scalar scalar_t} `{!ScaLAPACK scalar_t}.

Lemma DistributedMatrix_new_active g M N MB NB (h : heap scalar_t) :
  g_active g = true → 0 <= M → 0 <= N → 0 <= MB → 0 <= NB →
  let lr := numroc M (Int.max 1 MB) (g_prow g) 0 (g_nprows g) in
  let lc := numroc N (Int.max 1 NB) (g_pcol g) 0 (g_npcols g) in
  0 <= lr * lc <= Int.INT_MAX →
  DistributedMatrix_new (Some g) M N MB NB h =
    Some ({| grid_ := Some g; data_ := Some (fresh (dom h));
             lrows_ := lr; lcols_ := lc;
             desc_ := descset M N (Int.max 1 MB) (Int.max 1 NB) 0 0
                        (g_ctxt g) (Int.max lr 1);
             wrapper_ := None |},
          <[fresh (dom h) := replicate (Z.to_nat (lr * lc)) s_indet]> h).
Proof.
  intros Hg HM HN HMB HNB lr lc Hsz. unfold DistributedMatrix_new.
  rewrite !bool_decide_true by lia. simpl.
  unfold active, prow, pcol, nprows, npcols, grid_prow, grid_pcol, ctxt.
  simpl. rewrite Hg. simpl.
  unfold mbind, Cmd_bind, liftM, mret, Cmd_ret, option_bind. simpl.
  fold lr lc. rewrite (Int.mul_exact lr lc) by int_range.
  unfold new_array. destruct (decide (lr * lc < 0)); [lia|].
  assert (1 <= Int.max 1 MB) by (unfold Int.max; case_decide; lia).
  assert (1 <= Int.max 1 NB) by (unfold Int.max; case_decide; lia).
  assert (1 <= Int.max lr 1) by (unfold Int.max; case_decide; lia).
  repeat (case_decide; try lia). reflexivity.
Qed.

Lemma assign_temporary_spec (x tmp : DistributedMatrix) (h : heap scalar_t) :
  (∀ a, data_ x = Some a → is_Some (h !! a)) →
  assign_temporary x tmp h =
    Some ({| grid_ := grid_ tmp; data_ := data_ tmp; lrows_ := lrows_ tmp;
             lcols_ := lcols_ tmp; desc_ := take 9 (desc_ tmp);
             wrapper_ := wrapper_ x |},
          released (data_ x) h).
Proof.
  intros Hdel. unfold assign_temporary.
  rewrite (move_assign_distinct _ 1 2 x tmp); [|done| | |done].
  - simpl. rewrite lookup_insert_eq. simpl.
    rewrite lookup_insert_ne by done. rewrite lookup_insert_eq. simpl.
    reflexivity.
  - simpl. rewrite lookup_insert_ne by done. apply lookup_singleton_eq.
  - simpl. apply lookup_insert_eq.
Qed.

(** Filling the first [n] entries of a vector, entry [c] with [val c]. *)
Lemma vector_fill (n : Z) (body : Z → Cmd (list Z) unit) (val : Z → Z) v :
  0 <= n <= Z.of_nat (length v) →
  (∀ c u, 0 <= c < n → length u = length v →
          body c u = Some (tt, <[Z.to_nat c := val c]> u)) →
  ∃ v', for_range 0 n body v = Some (tt, v')
        ∧ length v' = length v
        ∧ ∀ c, 0 <= c < n → v' !! Z.to_nat c = Some (val c).
Proof.
  intros Hn Hbody.
  destruct (for_range_inv
              (λ i u, length u = length v
                      ∧ ∀ c, 0 <= c < i → u !! Z.to_nat c = Some (val c))
              0 n body v) as (v' & Hv' & Hlen & Hval); [lia| | |].
  - split; [done|]. intros c Hc. lia.
  - intros i u Hi [Hlen Hval]. eexists. split; [by apply Hbody|].
    rewrite length_insert. split; [done|]. intros c Hc.
    destruct (decide (c = i)) as [->|Hne].
    + apply list_lookup_insert_eq. lia.
    + rewrite list_lookup_insert_ne by lia. apply Hval. lia.
  - by exists v'.
Qed.
End id_column.

Section id_column_thm.
Context {scalar_t : Type} `{!Scalar scalar_t} `{!ScaLAPACK scalar_t}.

Lemma assertM_true (b : bool) (h : heap scalar_t) :
  b = true → assertM b h = Some (tt, h).
Proof. by intros ->. Qed.

Lemma DistributedMatrix_empty_spec (h : heap scalar_t) :
  DistributedMatrix_empty h =
    Some ({| grid_ := None; data_ := None; lrows_ := 0; lcols_ := 0;
             desc_ := descset 0 0 default_MB default_NB 0 0 (-1) 1;
             wrapper_ := None |}, h).
Proof. reflexivity. Qed.

Lemma DistributedMatrixWrapper_new_spec
  (m n : Z) (A : DistributedMatrix) (i j : Z) (h : heap scalar_t) :
  0 <= m → 0 <= n → 0 <= i → 0 <= j →
  m + i <= rows A → n + j <= cols A →
  rows A <= Int.INT_MAX → cols A <= Int.INT_MAX →
  length (desc_ A) = 9%nat →
  DistributedMatrixWrapper_new m n A i j h =
    Some ({| grid_ := grid_ A; data_ := data_ A; lrows_ := lrows_ A;
             lcols_ := lcols_ A; desc_ := desc_ A;
             wrapper_ := Some {| _rows := m; _cols := n;
                                 _i := i; _j := j |} |}, h).
Proof.
  intros Hm Hn Hi Hj Hmi Hnj Hr Hc Hd. unfold DistributedMatrixWrapper_new.
  cbv zeta.
  rewrite (bind_Some _ _ _ _ _ (DistributedMatrix_empty_spec h)).
  rewrite !size_t_plus_exact by lia.
  rewrite !to_size_t_id by lia.
  rewrite !bool_decide_true by done. rewrite !orb_true_r.
  erewrite bind_Some by reflexivity.
  erewrite bind_Some by reflexivity.
  erewrite bind_Some by reflexivity.
  rewrite !Int.wrap_id by int_range. rewrite take_ge by lia. reflexivity.
Qed.

(** A copy of a block that is not empty and lies inside both matrices is
    one call of the kernel [pgemr2d]. *)
Lemma copy_spec (m n : Z) (a : DistributedMatrix) (ia ja : Z)
  (b : DistributedMatrix) (ib jb ctx : Z) (h : heap scalar_t) :
  0 < m → 0 < n → 0 <= ia → 0 <= ja → 0 <= ib → 0 <= jb →
  m + ia <= rows a → n + ja <= cols a →
  m + ib <= rows b → n + jb <= cols b →
  rows a < Int.INT_MAX → cols a < Int.INT_MAX →
  rows b < Int.INT_MAX → cols b < Int.INT_MAX →
  I a = 1 → J a = 1 → I b = 1 → J b = 1 →
  copy m n a ia ja b ib jb ctx h =
    Some (tt, pgemr2d m n (data_ a) (1 + ia) (1 + ja) (desc_ a)
                (data_ b) (1 + ib) (1 + jb) (desc_ b) ctx h).
Proof.
  intros Hm Hn Hia Hja Hib Hjb H1 H2 H3 H4 Ra Ca Rb Cb Ia Ja Ib Jb.
  unfold copy. cbv zeta. rewrite Ia, Ja, Ib, Jb.
  rewrite !size_t_plus_exact by (unfold Int.INT_MAX in *; lia).
  rewrite !to_size_t_id by lia.
  rewrite (bool_decide_false (m = 0)), (bool_decide_false (n = 0)) by lia.
  rewrite !bool_decide_true by done.
  change (false || false) with false. change (true && true) with true.
  rewrite !orb_true_r. cbv iota.
  erewrite bind_Some by reflexivity.
  erewrite bind_Some by reflexivity.
  erewrite bind_Some by reflexivity.
  rewrite !Int.wrap_id by int_range. reflexivity.
Qed.

(** A copy of an empty block returns at once. *)
Lemma copy_nothing (m n : Z) (a : DistributedMatrix) (ia ja : Z)
  (b : DistributedMatrix) (ib jb ctx : Z) (h : heap scalar_t) :
  m = 0 ∨ n = 0 → copy m n a ia ja b ib jb ctx h = Some (tt, h).
Proof.
  intros Hmn. unfold copy. cbv zeta.
  assert (bool_decide (to_size_t m = 0) || bool_decide (to_size_t n = 0)
          = true) as ->; [|done].
  destruct Hmn as [-> | ->]; [done|]. apply orb_true_r.
Qed.

(** A solve from the left with a square matrix of the right size is one
    call of the kernel [ptrsm]. *)
Lemma trsm_left_spec (u d : ascii) (alpha : scalar_t)
  (A B : DistributedMatrix) (h : heap scalar_t) :
  active A = true → rows A = cols A → cols A = rows B →
  trsm "L" u "N" d alpha A B h =
    Some (tt, ptrsm "L" u "N" d (rows B) (cols B) alpha
                (data_ A) (I A) (J A) (desc_ A)
                (data_ B) (I B) (J B) (desc_ B) h).
Proof.
  intros Ha H1 H2. unfold trsm. rewrite Ha. cbv [negb].
  rewrite (bool_decide_true (rows A = cols A)) by done.
  rewrite (bool_decide_true (cols A = rows B)) by done.
  do 5 (erewrite bind_Some by (apply assertM_true; reflexivity)).
  erewrite bind_Some by reflexivity.
  reflexivity.
Qed.

(** A loop fails when one of its iterations fails in whatever state it
    is reached. *)
Lemma for_range_fails {S} lo hi (body : Z → Cmd S unit) i s :
  lo <= i < hi → (∀ s', body i s' = None) → for_range lo hi body s = None.
Proof.
  intros Hi Hbody. remember (Z.to_nat (i - lo)) as n eqn:Hn.
  revert lo s Hi Hn. induction n as [|n IH]; intros lo s Hi Hn.
  - assert (lo = i) as -> by lia. rewrite for_range_step by lia.
    unfold mbind, Cmd_bind. by rewrite Hbody.
  - rewrite for_range_step by lia. unfold mbind, Cmd_bind.
    destruct (body lo s) as [[[] s']|]; [|done]. apply IH; lia.
Qed.

(** X17. [ID_column] on a matrix that owns its buffer, given what the
    kernel [pgeqpfmod] returns: the column indices [J'], the pivots
    [gpiv'] and the rank.  [piv] gets [lcols() + NB()] entries, entry
    [c] being the pivot of the global column of the local column [c];
    [ind] gets the
    first [rank] entries of [J'], counted from 0; [X] becomes a new
    [rank] x [cols() - rank] matrix at the default block sizes in a
    fresh buffer, its old buffer is released, and the heap on return is
    what the kernel [ptrsm] (from the left, upper triangular, not
    transposed, diagonal not unit, factor 1) makes with the leading
    [rank] x [rank] block of the matrix of what the kernel [pgemr2d]
    copied from the block of the matrix at row 1 and column [rank + 1]
    into [X]; nothing is copied when that block is empty. *)
Theorem ID_column_owning_matrix
  (this X : DistributedMatrix) (g : BLACSGrid) (piv ind : list Z)
  (rel_tol abs_tol : float) (h h1 : heap scalar_t)
  (J' gpiv' : list Z) (rank : Z) :
  layout_ok this g →
  wrapper_ X = None →
  (∀ a, data_ X = Some a → is_Some (h1 !! a)) →
  pgeqpfmod (rows this) (cols this) (data_ this) 1 1 (desc_ this)
    (seqZ 1 (cols this)) (seqZ 1 (cols this)) rel_tol abs_tol h
    = (h1, (J', gpiv', rank)) →
  length J' = Z.to_nat (cols this) →
  length gpiv' = Z.to_nat (cols this) →
  Forall (λ j, 1 <= j <= cols this) J' →
  0 <= rank <= rows this → rank <= cols this →
  lcols this + NB this <= Int.INT_MAX →
  let lr := numroc rank default_MB (g_prow g) 0 (g_nprows g) in
  let lc := numroc (cols this - rank) default_NB (g_pcol g) 0 (g_npcols g) in
  lr * lc <= Int.INT_MAX →
  let b := fresh (dom h1) in
  let X' := {| grid_ := Some g; data_ := Some b; lrows_ := lr; lcols_ := lc;
               desc_ := descset rank (cols this - rank) default_MB default_NB
                          0 0 (g_ctxt g) (Int.max lr 1);
               wrapper_ := None |} in
  let h2 := released (data_ X)
              (<[b := replicate (Z.to_nat (lr * lc)) s_indet]> h1) in
  let h3 := if decide (rank = 0 ∨ cols this - rank = 0) then h2
            else pgemr2d rank (cols this - rank)
                   (data_ this) 1 (1 + rank) (desc_ this)
                   (Some b) 1 1 (desc_ X') (g_ctxt g) h2 in
  let h4 := ptrsm "L" "U" "N" "N" rank (cols this - rank) s_one
              (data_ this) 1 1 (desc_ this) (Some b) 1 1 (desc_ X') h3 in
  ∃ piv' ind',
    ID_column this X piv ind rel_tol abs_tol h = Some ((X', piv', ind'), h4)
    ∧ length piv' = Z.to_nat (lcols this + NB this)
    ∧ (∀ c, 0 <= c < lcols this →
         ∃ gc, coll2g this c = Some gc ∧ 0 <= gc < cols this
               ∧ piv' !! Z.to_nat c = gpiv' !! Z.to_nat gc)
    ∧ length ind' = Z.to_nat rank
    ∧ (∀ c, 0 <= c < rank →
         ∃ j, J' !! Z.to_nat c = Some j
              ∧ ind' !! Z.to_nat c = Some (j - 1))
    ∧ rows X' = rank ∧ cols X' = cols this - rank.
Proof.
  intros Hok HX Hdel Hk HlenJ Hlenp HJ Hrank Hrank' Hpiv lr lc Hsz b X' h2
    h3 h4.
  pose proof (layout_lcols_range this g Hok) as Hlc.
  pose proof (lo_rows _ _ Hok) as Hrows. pose proof (lo_cols _ _ Hok) as Hcols.
  pose proof (lo_NB _ _ Hok) as HNB.
  unfold ID_column. rewrite (layout_active this g Hok). cbv [negb].
  rewrite bool_decide_true by lia.
  erewrite bind_Some by reflexivity.
  erewrite bind_Some by reflexivity. cbv beta zeta.
  rewrite (layout_I this g Hok), (layout_J this g Hok), Hk. cbv [fst snd].
  erewrite bind_Some by reflexivity.
  (* the two resizes *)
  unfold vector_resize, lcols in *.
  rewrite (Int.add_exact (lcols_ this) (NB this)) by int_range.
  rewrite !decide_True by lia.
  erewrite bind_Some by reflexivity.
  erewrite bind_Some by reflexivity.
  (* the loop over the local columns *)
  set (piv0 := resize (Z.to_nat (lcols_ this + NB this)) 0 piv).
  destruct (vector_fill (lcols_ this)
              (λ c, gc ← liftM (coll2g this c);
                    v ← liftM (vector_get gpiv' gc); vector_set c v)
              (λ c, default 0
                      (gpiv' !! Z.to_nat
                         (l2g0 c (NB this) (g_pcol g) (g_npcols g))))
              piv0) as (piv1 & Hloop1 & Hlen1 & Hval1).
  { subst piv0. rewrite length_resize. lia. }
  { intros c u Hc Hu.
    pose proof (layout_col_local this g Hok c Hc) as Hgc.
    rewrite (bind_Some _ _ _ _ _
               (liftM_Some _ _ _ (coll2g_exact this g Hok c Hc))).
    unfold vector_get. destruct (decide (0 <= _)) as [_|]; [|lia].
    destruct (lookup_lt_is_Some_2 gpiv'
                (Z.to_nat (l2g0 c (NB this) (g_pcol g) (g_npcols g))))
      as [v Hv]; [lia|].
    rewrite (bind_Some _ _ _ _ _ (liftM_Some _ _ _ Hv)).
    unfold vector_set. rewrite Hv. simpl.
    rewrite decide_True; [done|]. subst piv0.
    rewrite Hu, length_resize. lia. }
  rewrite Hloop1. cbn [fmap option_fmap option_map snd].
  erewrite bind_Some by reflexivity.
  (* the loop over the skeleton *)
  set (ind0 := resize (Z.to_nat rank) 0 ind).
  destruct (vector_fill rank
              (λ c, j ← liftM (vector_get J' c);
                    vector_set c (to_size_t (Int.sub j 1)))
              (λ c, default 0 (J' !! Z.to_nat c) - 1)
              ind0) as (ind1 & Hloop2 & Hlen2 & Hval2).
  { subst ind0. rewrite length_resize. lia. }
  { intros c u Hc Hu.
    unfold vector_get. destruct (decide (0 <= c)) as [_|]; [|lia].
    destruct (lookup_lt_is_Some_2 J' (Z.to_nat c)) as [j Hj]; [lia|].
    rewrite (bind_Some _ _ _ _ _ (liftM_Some _ _ _ Hj)).
    pose proof (Forall_lookup_1 _ _ _ _ HJ Hj) as Hjr. simpl in Hjr.
    unfold vector_set. rewrite Hj. simpl.
    rewrite Int.sub_exact by int_range.
    rewrite to_size_t_id by lia.
    rewrite decide_True; [done|]. subst ind0.
    rewrite Hu, length_resize. lia. }
  rewrite Hloop2. cbn [fmap option_fmap option_map snd].
  erewrite bind_Some by reflexivity.
  (* the view of the leading block and the new X *)
  rewrite (bind_Some _ _ _ _ _
             (DistributedMatrixWrapper_new_spec rank rank this 0 0 h1
                ltac:(lia) ltac:(lia) ltac:(lia) ltac:(lia)
                ltac:(unfold rows in *; lia) ltac:(unfold cols in *; lia)
                ltac:(lia) ltac:(lia) (lo_desc _ _ Hok))).
  pose proof (lo_nprows _ _ Hok). pose proof (lo_npcols _ _ Hok).
  pose proof (lo_prow _ _ Hok). pose proof (lo_pcol _ _ Hok).
  assert (0 <= lr <= rank) as Hlr
    by (apply numroc_range; unfold default_MB; lia).
  assert (0 <= lc <= cols this - rank) as Hlc'
    by (apply numroc_range; unfold default_NB; lia).
  rewrite (lo_grid _ _ Hok). unfold DistributedMatrix_new_default.
  rewrite (Int.sub_exact (cols this) rank) by int_range.
  rewrite (bind_Some _ _ _ _ _
             (DistributedMatrix_new_active g rank (cols this - rank)
                default_MB default_NB h1 (lo_active _ _ Hok)
                ltac:(lia) ltac:(lia) ltac:(done) ltac:(done)
                ltac:(change (Int.max 1 default_MB) with default_MB;
                      change (Int.max 1 default_NB) with default_NB;
                      fold lr lc; nia))).
  change (Int.max 1 default_MB) with default_MB.
  change (Int.max 1 default_NB) with default_NB. fold lr lc b.
  erewrite bind_Some; cycle 1.
  { apply assign_temporary_spec. intros a Ha.
    destruct (Hdel a Ha) as [buf Hbuf].
    rewrite lookup_insert_ne; [by eexists|].
    intros <-. pose proof (is_fresh (dom h1)) as Hf.
    apply Hf. apply elem_of_dom. by eexists. }
  erewrite bind_Some by reflexivity.
  cbn [grid_ data_ lrows_ lcols_ desc_ wrapper_]. rewrite HX.
  rewrite (take_ge (descset _ _ _ _ _ _ _ _)) by done.
  fold X' h2.
  set (R1 := {| grid_ := Some g; data_ := data_ this;
                lrows_ := lrows_ this; lcols_ := lcols_ this;
                desc_ := desc_ this;
                wrapper_ := Some {| _rows := rank; _cols := rank;
                                    _i := 0; _j := 0 |} |}).
  assert (rows X' = rank) as HrX by reflexivity.
  assert (cols X' = cols this - rank) as HcX by reflexivity.
  assert (copy rank (cols this - rank) this 0 rank X' 0 0 (g_ctxt g) h2
          = Some (tt, h3)) as Hcopy.
  { subst h3. destruct (decide (rank = 0 ∨ cols this - rank = 0)) as [Hz|Hz].
    - by apply copy_nothing.
    - rewrite copy_spec;
        first [ done | lia | by apply (layout_I this g)
              | by apply (layout_J this g) ]. }
  rewrite (bind_Some _ _ _ _ _ Hcopy). cbv beta.
  rewrite (bind_Some _ _ _ _ _
             (trsm_left_spec "U" "N" s_one R1 X' h3
                ltac:(unfold active, R1; simpl; by rewrite (lo_active _ _ Hok))
                ltac:(reflexivity) ltac:(reflexivity))).
  cbv beta. erewrite bind_Some by reflexivity.
  exists piv1, ind1. split; [reflexivity|].
  split; [by rewrite Hlen1; subst piv0; rewrite length_resize|].
  split.
  { intros c Hc. pose proof (layout_col_local this g Hok c Hc) as Hgc.
    eexists. split; [by apply coll2g_exact|]. split; [done|].
    rewrite Hval1 by done.
    destruct (lookup_lt_is_Some_2 gpiv'
                (Z.to_nat (l2g0 c (NB this) (g_pcol g) (g_npcols g))))
      as [v Hv]; [lia|]. by rewrite Hv. }
  split; [by rewrite Hlen2; subst ind0; rewrite length_resize|].
  split.
  { intros c Hc.
    destruct (lookup_lt_is_Some_2 J' (Z.to_nat c)) as [j' Hj]; [lia|].
    exists j'. split; [done|]. rewrite Hval2 by done. by rewrite Hj. }
  done.
Qed.

(** C3 (code): [ID_column] on a matrix with a local column whose global
    index lies outside the matrix, as a view of the leading columns of a
    wider matrix has.  The vector [gpiv] has [cols()] entries and the
    loop of line 1338 runs over all [lcols()] local columns of the
    underlying storage: at such a column [gpiv[coll2g(c)]] is a read
    past the end of [gpiv], whatever the kernel [pgeqpfmod] put into
    it. *)
Theorem ID_column_reads_past_gpiv
  (this X : DistributedMatrix) (piv ind : list Z)
  (rel_tol abs_tol : float) (h : heap scalar_t) (c gc : Z) :
  active this = true →
  0 <= cols this →
  length (pgeqpfmod (rows this) (cols this) (data_ this) (I this) (J this)
            (desc_ this) (seqZ 1 (cols this)) (seqZ 1 (cols this))
            rel_tol abs_tol h).2.1.2 = Z.to_nat (cols this) →
  0 <= c < lcols this →
  coll2g this c = Some gc → cols this <= gc →
  ID_column this X piv ind rel_tol abs_tol h = None.
Proof.
  intros Hact Hcols Hlen Hc Hgc Hout.
  unfold ID_column. rewrite Hact. cbv [negb].
  rewrite bool_decide_true by done.
  erewrite bind_Some by reflexivity.
  erewrite bind_Some by reflexivity. cbv beta zeta.
  erewrite bind_Some by reflexivity.
  set (out := pgeqpfmod _ _ _ _ _ _ _ _ _ _ _) in *.
  unfold mbind at 1, Cmd_bind.
  destruct (liftM (vector_resize _ piv) out.1) as [[piv0 h0]|]; [|done].
  unfold mbind at 1, Cmd_bind.
  destruct (liftM (vector_resize _ ind) h0) as [[ind0 h0']|]; [|done].
  unfold mbind at 1, Cmd_bind.
  rewrite (for_range_fails 0 (lcols this) _ c piv0); [done|done|].
  intros u. cbv beta. unfold mbind, Cmd_bind, liftM. rewrite Hgc. simpl.
  unfold vector_get. rewrite decide_True by lia.
  rewrite lookup_ge_None_2; [done|]. rewrite Hlen. lia.
Qed.
End id_column_thm.

(** A 2 x 3 matrix with block size 2 on the 1 x 1 grid. *)
Definition owner_2x3 : DistributedMatrix :=
  {| grid_ := Some grid_1x1; data_ := Some 1%positive; lrows_ := 2;
     lcols_ := 3; desc_ := descset 2 3 2 2 0 0 0 2; wrapper_ := None |}.
Definition heap_2x3 : heap Z := {[1%positive := [11; 21; 12; 22; 13; 23]]}.
Definition empty_matrix : DistributedMatrix :=
  {| grid_ := None; data_ := None; lrows_ := 0; lcols_ := 0;
     desc_ := descset 0 0 32 32 0 0 (-1) 1; wrapper_ := None |}.

Lemma owner_2x3_layout : layout_ok owner_2x3 grid_1x1.
Proof.
  split; try reflexivity;
    unfold rows, cols, MB, NB, desc_at, Int.INT_MAX; simpl; lia.
Qed.

(** The view of its two leading columns, as
    [DistributedMatrixWrapper(2, 2, A, 0, 0)] makes it. *)
Definition view_2x2 : DistributedMatrix :=
  {| grid_ := Some grid_1x1; data_ := Some 1%positive; lrows_ := 2;
     lcols_ := 3; desc_ := descset 2 3 2 2 0 0 0 2;
     wrapper_ := Some {| _rows := 2; _cols := 2; _i := 0; _j := 0 |} |}.

Lemma view_2x2_made :
  DistributedMatrixWrapper_new 2 2 owner_2x3 0 0 heap_2x3
    = Some (view_2x2, heap_2x3).
Proof. reflexivity. Qed.

Lemma ID_column_owning_matrix_witness :
  ∃ piv' ind',
    ID_column owner_2x3 empty_matrix [] [] 0%float 0%float heap_2x3
      = Some (({| grid_ := Some grid_1x1; data_ := Some 2%positive;
                  lrows_ := 2; lcols_ := 1;
                  desc_ := descset 2 1 32 32 0 0 0 2; wrapper_ := None |},
               piv', ind'),
              <[2%positive := [-1; -1]]> heap_2x3)
    ∧ length piv' = 5%nat
    ∧ (∀ c, 0 <= c < 3 →
         ∃ gc, coll2g owner_2x3 c = Some gc ∧ 0 <= gc < 3
               ∧ piv' !! Z.to_nat c = [1; 2; 3] !! Z.to_nat gc)
    ∧ length ind' = 2%nat
    ∧ (∀ c, 0 <= c < 2 →
         ∃ j, [1; 2; 3] !! Z.to_nat c = Some j
              ∧ ind' !! Z.to_nat c = Some (j - 1))
    ∧ 2 = 2 ∧ 1 = 3 - 2.
Proof.
  exact (ID_column_owning_matrix (scalar_t := Z) owner_2x3 empty_matrix
           grid_1x1 [] [] 0%float 0%float heap_2x3 heap_2x3
           [1; 2; 3] [1; 2; 3] 2
           owner_2x3_layout eq_refl
           ltac:(intros a Ha; discriminate Ha)
           eq_refl eq_refl eq_refl
           ltac:(repeat constructor; unfold cols, desc_at; simpl; lia)
           ltac:(unfold rows, desc_at; simpl; lia)
           ltac:(unfold cols, desc_at; simpl; lia)
           ltac:(unfold lcols, NB, desc_at, Int.INT_MAX; simpl; lia)
           ltac:(vm_compute; discriminate)).
Defined.

Lemma ID_column_reads_past_gpiv_witness :
  ID_column view_2x2 empty_matrix [] [] 0%float 0%float heap_2x3 = None.
Proof.
  apply (ID_column_reads_past_gpiv (scalar_t := Z) view_2x2 empty_matrix
           [] [] 0%float 0%float heap_2x3 2 2).
  - reflexivity.
  - unfold cols; simpl; lia.
  - reflexivity.
  - unfold lcols; simpl; lia.
  - reflexivity.
  - unfold cols; simpl; lia.
Defined.

(** ** Orthogonalisation *)

Section orthogonalize_facts.
Context {scalar_t : Type} `{!Scalar scalar_t} `{!Magnitude scalar_t}
        `{!ScaLAPACK scalar_t}.

(** A worker of the grid without local rows or without local columns
    hands the values it was called with to the reductions, whatever the
    kernels are. *)
Lemma contribution_without_local_share
  (this : DistributedMatrix) (g : BLACSGrid) (r_max r_min : scalar_t)
  (h : heap scalar_t) :
  grid_ this = Some g → g_active g = true →
  0 <= numroc (Int.sub (Int.add (J this)
                          (Int.min (rows this) (cols this))) 1)
         (NB this) (g_pcol g) 0 (g_npcols g) →
  lrows this = 0 ∨ lcols this = 0 →
  ∃ tau h', orthogonalize_contribution this r_max r_min h
              = Some ((r_max, r_min, tau), h').
Proof.
  intros Hg Ha Htau Hempty. unfold orthogonalize_contribution.
  unfold pcol, npcols, grid_pcol. rewrite Hg. simpl. rewrite Ha.
  erewrite bind_Some by reflexivity.
  erewrite bind_Some by reflexivity.
  unfold new_array at 1. cbv beta.
  erewrite bind_Some; cycle 1.
  { rewrite decide_False by lia. reflexivity. }
  erewrite bind_Some by reflexivity. cbv beta zeta.
  erewrite bind_Some by reflexivity.
  assert (bool_decide (lrows this ≠ 0) && bool_decide (lcols this ≠ 0)
          = false) as ->.
  { destruct Hempty as [-> | ->].
    - by rewrite bool_decide_false by lia.
    - rewrite (bool_decide_false (0 ≠ 0)) by naive_solver.
      apply andb_false_r. }
  by eexists _, _.
Qed.
End orthogonalize_facts.

(** The 1 x 1 matrix [(2)] on the 2 x 1 grid, at the default block
    size: the entry is on process row 0, process row 1 has no local row. *)
Definition one_by_one (prow : Z) (lrows : Z) : DistributedMatrix :=
  {| grid_ := Some (grid_2x1 prow); data_ := Some 1%positive;
     lrows_ := lrows; lcols_ := 1;
     desc_ := descset 1 1 32 32 0 0 0 1; wrapper_ := None |}.

(** C5 (code): [orthogonalize] on that matrix.  Process row 1 is called
    with [r_max = 100] and [r_min = 0.5]; it has no local row, so these
    are the values it hands to the reductions.  Process row 0 finds the
    only diagonal entry, of magnitude 2, and returns [r_max = 100] and
    [r_min = 0.5] after the reductions. *)
Theorem orthogonalize_reduces_caller_values :
  DistributedMatrix_new (Some (grid_2x1 0)) 1 1 32 32 (∅ : heap float)
    = Some (one_by_one 0 1, {[1%positive := [PrimFloat.nan]]})
  ∧ DistributedMatrix_new (Some (grid_2x1 1)) 1 1 32 32 (∅ : heap float)
    = Some (one_by_one 1 0, {[1%positive := []]})
  ∧ (c ← orthogonalize_contribution (one_by_one 1 0) 100%float 0.5%float
           {[1%positive := []]};
     Some c.1.1) = Some (100%float, 0.5%float)
  ∧ (c ← orthogonalize_contribution (one_by_one 0 1) 0%float 0%float
           {[1%positive := [2%float]]};
     Some c.1.1) = Some (2%float, 2%float)
  ∧ (r ← orthogonalize (one_by_one 0 1) 0%float 0%float
           [100%float] [0.5%float] {[1%positive := [2%float]]};
     Some r.1) = Some (100%float, 0.5%float).
Proof. repeat split; vm_compute; reflexivity. Qed.

(** ** Extraction: the two exchanges as one gather

    [extract_rows] and [extract_cols] are the same algorithm along the
    two axes of the grid.  Each requested index [k] names a _line_ of the
    matrix (a row, or a column) of [len] cells; its cells are counted by
    [j].  The section states the three loops once, over the owner and
    the destination of each line and the coordinates of its cells. *)

Lemma seqZ_snoc (k : Z) : 0 <= k → seqZ 0 (k + 1) = seqZ 0 k ++ [k].
Proof.
  intros Hk. rewrite (seqZ_app 0 k 1) by lia. by rewrite Z.add_0_l.
Qed.

(** The number of [i < k] with [P i]. *)
Definition count_below (P : Z → bool) (k : Z) : Z :=
  Z.of_nat (length (filter (λ i, P i = true) (seqZ 0 k))).

Lemma count_below_0 P : count_below P 0 = 0.
Proof. reflexivity. Qed.

Lemma count_below_succ P k :
  0 <= k → count_below P (k + 1) = count_below P k + (if P k then 1 else 0).
Proof.
  intros Hk. unfold count_below. rewrite seqZ_snoc by done.
  rewrite filter_app, length_app. simpl.
  destruct (P k) eqn:HP.
  - rewrite filter_cons_True by done. simpl. lia.
  - rewrite filter_cons_False by (by rewrite HP). simpl. lia.
Qed.

Lemma count_below_range P k : 0 <= k → 0 <= count_below P k <= k.
Proof.
  intros Hk. unfold count_below. split; [lia|].
  pose proof (length_filter (λ i, P i = true) (seqZ 0 k)) as H.
  rewrite length_seqZ in H. lia.
Qed.

Lemma count_below_mono P k k' :
  0 <= k <= k' → count_below P k <= count_below P k'.
Proof.
  intros Hk. replace k' with (k + (k' - k)) by lia.
  unfold count_below. rewrite (seqZ_app 0 k (k' - k)) by lia.
  rewrite filter_app, length_app. lia.
Qed.

Lemma count_below_le P Q k :
  (∀ i, 0 <= i < k → P i = true → Q i = true) →
  count_below P k <= count_below Q k.
Proof.
  intros HPQ. destruct (decide (0 <= k)) as [Hk|Hk].
  - revert HPQ. pattern k. apply natlike_ind; [done| |done].
    clear k Hk. intros k Hk IH HPQ. unfold Z.succ in *.
    rewrite !count_below_succ by done.
    specialize (IH ltac:(intros i Hi; apply HPQ; lia)).
    specialize (HPQ k ltac:(lia)).
    destruct (P k), (Q k); try lia; by specialize (HPQ eq_refl).
  - unfold count_below, seqZ. by replace (Z.to_nat k) with 0%nat by lia.
Qed.

(** The lines [L i] of the [i < k] with [P i], one after the other. *)
Definition lines_below {T} (P : Z → bool) (L : Z → list T) (k : Z) : list T :=
  i ← seqZ 0 k; if P i then L i else [].

Lemma lines_below_succ {T} P (L : Z → list T) k :
  0 <= k →
  lines_below P L (k + 1) = lines_below P L k ++ (if P k then L k else []).
Proof.
  intros Hk. unfold lines_below. rewrite seqZ_snoc by done.
  rewrite bind_app. simpl. by rewrite app_nil_r.
Qed.

Lemma lines_below_length {T} P (L : Z → list T) (len k : Z) :
  0 <= k → (∀ i, 0 <= i < k → Z.of_nat (length (L i)) = len) →
  Z.of_nat (length (lines_below P L k)) = len * count_below P k.
Proof.
  intros Hk. pattern k. apply natlike_ind; [|clear k Hk|done].
  - intros _. unfold lines_below. simpl. rewrite count_below_0. lia.
  - intros k Hk IH HL. unfold Z.succ in *.
    rewrite lines_below_succ, count_below_succ by done.
    rewrite length_app, Nat2Z.inj_add, IH by (intros i Hi; apply HL; lia).
    destruct (P k); [rewrite HL by lia|simpl]; lia.
Qed.

(** The line of [k] is in [lines_below P L n], after those of the
    [i < k]. *)
Lemma lines_below_lookup {T} P (L : Z → list T) (len n k j : Z) :
  0 <= k < n → P k = true →
  (∀ i, 0 <= i < n → Z.of_nat (length (L i)) = len) →
  0 <= j < len →
  lines_below P L n !! Z.to_nat (len * count_below P k + j)
    = L k !! Z.to_nat j.
Proof.
  intros Hk HP HL Hj.
  assert (∃ rest, lines_below P L n = lines_below P L k ++ L k ++ rest)
    as [rest ->].
  { replace n with ((k + 1) + (n - (k + 1))) by lia.
    unfold lines_below at 1.
    rewrite (seqZ_app 0 (k + 1) (n - (k + 1))) by lia.
    rewrite bind_app. fold (lines_below P L (k + 1)).
    rewrite lines_below_succ by lia. rewrite HP.
    rewrite <- app_assoc. by eexists. }
  pose proof (lines_below_length P L len k ltac:(lia)
                ltac:(intros i Hi; apply HL; lia)) as Hlen.
  pose proof (HL k Hk) as HLk.
  rewrite lookup_app_r by lia.
  rewrite lookup_app_l by lia. f_equal. lia.
Qed.

Lemma for_range_ext {S} lo hi (body body' : Z → Cmd S unit) s :
  (∀ i s, lo <= i < hi → body i s = body' i s) →
  for_range lo hi body s = for_range lo hi body' s.
Proof.
  intros Hext. destruct (decide (lo <= hi)) as [Hle|Hgt].
  - remember (Z.to_nat (hi - lo)) as m eqn:Hm.
    revert lo s Hle Hm Hext. induction m as [|m IH]; intros lo s Hle Hm Hext.
    + rewrite (for_range_empty lo hi body), (for_range_empty lo hi body')
        by lia. done.
    + rewrite (for_range_step lo hi body), (for_range_step lo hi body') by lia.
      unfold mbind, Cmd_bind.
      rewrite Hext by lia. destruct (body' lo s) as [[[] s']|]; [|done].
      apply IH; [lia..|]. intros i s'' Hi. apply Hext. lia.
  - rewrite (for_range_empty lo hi body), (for_range_empty lo hi body')
      by lia. done.
Qed.

Section gather.
Context {scalar_t : Type} `{!Scalar scalar_t}.
Variables (this tmp : DistributedMatrix).
Variables (n np me len : Z).
Variables (own dst : Z → Z).
(** The coordinates of the cell [j] of the line [k], in [this] and in
    [tmp]. *)
Variables (ra ca rt ct : Z → Z → Z).

Definition gather_copy (k : Z) : Cmd (heap scalar_t) unit :=
  for_range 0 len
    (λ j, v ← get_elem this (ra k j) (ca k j);
          set_elem tmp (rt k j) (ct k j) v).

Definition gather_count (k : Z) : Cmd (list Z * list Z * heap scalar_t) unit :=
  λ s, if decide (own k ≠ me) then
         rsizes ← size_add s.1.1 (own k) len;
         Some (tt, (rsizes, s.1.2, s.2))
       else if decide (dst k = me) then
         x ← gather_copy k s.2; Some (tt, (s.1, x.2))
       else
         ssizes ← size_add s.1.2 (dst k) len;
         Some (tt, (s.1.1, ssizes, s.2)).

Definition gather_send (h : heap scalar_t) (k : Z)
  : Cmd (list (list scalar_t)) unit :=
  λ sbuf, if decide (own k = me) then
            if decide (dst k ≠ me) then
              for_range 0 len
                (λ j sbuf, v ← get_elem this (ra k j) (ca k j) h;
                           sbuf ← push_back_at sbuf (dst k) v.1;
                           Some (tt, sbuf)) sbuf
            else Some (tt, sbuf)
          else Some (tt, sbuf).

Definition gather_place (rbuf : list (list scalar_t)) (k : Z)
  : Cmd (list Z * heap scalar_t) unit :=
  λ s, if decide (own k = me) then Some (tt, s) else
       if decide (dst k ≠ me) then Some (tt, s) else
       for_range 0 len
         (λ j, take_received rbuf (own k) (set_elem tmp (rt k j) (ct k j))) s.

(** The buffers: [this] reads [bufA] at [a], [tmp] writes [sizeT]
    cells at [b]; [iA k j] and [iT k j] are the places of the cells in
    the two buffers. *)
Variables (a b : addr) (bufA : list scalar_t) (h0 : heap scalar_t).
Variables (sizeT : nat) (iA iT : Z → Z → Z).

Hypothesis Hn : 0 <= n.
Hypothesis Hme : 0 <= me < np.
Hypothesis Hlen : 0 <= len.
Hypothesis Hsize : len * n < 18446744073709551616.
Hypothesis Hown : ∀ k, 0 <= k < n → 0 <= own k < np.
Hypothesis Hdst : ∀ k, 0 <= k < n → 0 <= dst k < np.
Hypothesis HdataA : data_ this = Some a.
Hypothesis HdataT : data_ tmp = Some b.
Hypothesis Hab : a ≠ b.
Hypothesis HbufA : h0 !! a = Some bufA.
Hypothesis HiA : ∀ k j, 0 <= k < n → 0 <= j < len → own k = me →
  elem_index this (ra k j) (ca k j) = iA k j
  ∧ 0 <= iA k j < Z.of_nat (length bufA).
Hypothesis HiT : ∀ k j, 0 <= k < n → 0 <= j < len → dst k = me →
  elem_index tmp (rt k j) (ct k j) = iT k j
  ∧ 0 <= iT k j < Z.of_nat sizeT.
Hypothesis HiT_inj : ∀ k j k' j',
  0 <= k < n → 0 <= j < len → dst k = me →
  0 <= k' < n → 0 <= j' < len → dst k' = me →
  iT k j = iT k' j' → k = k' ∧ j = j'.

(** The cells of the line [k] of [this], in order. *)
Definition lineA (k : Z) : list scalar_t :=
  (λ j, default s_zero (bufA !! Z.to_nat (iA k j))) <$> seqZ 0 len.

Lemma lineA_length k : Z.of_nat (length (lineA k)) = len.
Proof. unfold lineA. rewrite length_fmap, length_seqZ. lia. Qed.

Lemma lineA_lookup k j :
  0 <= k < n → 0 <= j < len → own k = me →
  lineA k !! Z.to_nat j = bufA !! Z.to_nat (iA k j).
Proof.
  intros Hk Hj Ho. unfold lineA. rewrite list_lookup_fmap.
  rewrite lookup_seqZ_lt by lia. rewrite Z2Nat.id, Z.add_0_l by lia. simpl.
  destruct (HiA k j Hk Hj Ho) as [_ Hr].
  destruct (lookup_lt_is_Some_2 bufA (Z.to_nat (iA k j))) as [v Hv]; [lia|].
  by rewrite Hv.
Qed.

Lemma gather_get k j T v :
  0 <= k < n → 0 <= j < len → own k = me →
  lineA k !! Z.to_nat j = Some v →
  get_elem this (ra k j) (ca k j) (<[b := T]> h0)
    = Some (v, <[b := T]> h0).
Proof.
  intros Hk Hj Ho Hv. rewrite lineA_lookup in Hv by done.
  destruct (HiA k j Hk Hj Ho) as [Hi Hr].
  unfold get_elem, read_at. rewrite HdataA, Hi. simpl.
  rewrite lookup_insert_ne by done. rewrite HbufA. simpl.
  rewrite decide_True by lia. by rewrite Hv.
Qed.

Lemma gather_set k j T v :
  0 <= k < n → 0 <= j < len → dst k = me → length T = sizeT →
  set_elem tmp (rt k j) (ct k j) v (<[b := T]> h0)
    = Some (tt, <[b := <[Z.to_nat (iT k j) := v]> T]> h0).
Proof.
  intros Hk Hj Hd HT. destruct (HiT k j Hk Hj Hd) as [Hi Hr].
  unfold set_elem, write_at. rewrite HdataT, Hi. simpl.
  rewrite lookup_insert_eq. simpl.
  rewrite decide_True by lia. by rewrite insert_insert_eq.
Qed.

(** Writing the line [k] of [tmp] cell by cell: [val j] goes to cell
    [j], the cells of the other lines stay. *)
Lemma gather_line_written
  (body : Z → Cmd (heap scalar_t) unit) (val : Z → scalar_t) k T :
  0 <= k < n → dst k = me → length T = sizeT →
  (∀ j T', 0 <= j < len → length T' = sizeT →
     body j (<[b := T']> h0)
       = Some (tt, <[b := <[Z.to_nat (iT k j) := val j]> T']> h0)) →
  ∃ T', for_range 0 len body (<[b := T]> h0) = Some (tt, <[b := T']> h0)
        ∧ length T' = sizeT
        ∧ (∀ j, 0 <= j < len → T' !! Z.to_nat (iT k j) = Some (val j))
        ∧ (∀ i, (∀ j, 0 <= j < len → i ≠ Z.to_nat (iT k j)) →
                T' !! i = T !! i).
Proof.
  intros Hk Hd HT Hbody.
  destruct (for_range_inv
    (λ m h, ∃ T', h = <[b := T']> h0 ∧ length T' = sizeT
       ∧ (∀ j, 0 <= j < m → T' !! Z.to_nat (iT k j) = Some (val j))
       ∧ (∀ i, (∀ j, 0 <= j < m → i ≠ Z.to_nat (iT k j)) → T' !! i = T !! i))
    0 len body (<[b := T]> h0)) as (h' & Hrun & T' & -> & HT' & Hval & Hrest);
    [done| | |].
  - exists T. split; [done|]. split; [done|]. split; [intros; lia|done].
  - intros j h Hj (T' & -> & HT' & Hval & Hrest).
    eexists. split; [by apply Hbody|].
    destruct (HiT k j Hk ltac:(lia) Hd) as [_ Hr].
    eexists. split; [done|]. rewrite length_insert. split; [done|]. split.
    + intros j' Hj'. destruct (decide (j' = j)) as [->|Hne].
      * apply list_lookup_insert_eq. lia.
      * rewrite list_lookup_insert_ne; [apply Hval; lia|].
        intros Heq. apply Hne.
        destruct (HiT k j' Hk ltac:(lia) Hd) as [_ Hr'].
        by destruct (HiT_inj k j k j' Hk ltac:(lia) Hd Hk ltac:(lia) Hd
                       ltac:(lia)).
    + intros i Hi. rewrite list_lookup_insert_ne by (apply not_eq_sym, Hi; lia).
      apply Hrest. intros j' Hj'. apply Hi. lia.
  - exists T'. done.
Qed.

Lemma gather_copy_spec k T :
  0 <= k < n → own k = me → dst k = me → length T = sizeT →
  ∃ T', gather_copy k (<[b := T]> h0) = Some (tt, <[b := T']> h0)
        ∧ length T' = sizeT
        ∧ (∀ j, 0 <= j < len →
             T' !! Z.to_nat (iT k j) = lineA k !! Z.to_nat j)
        ∧ (∀ i, (∀ j, 0 <= j < len → i ≠ Z.to_nat (iT k j)) →
                T' !! i = T !! i).
Proof.
  intros Hk Ho Hd HT.
  destruct (gather_line_written
              (λ j, v ← get_elem this (ra k j) (ca k j);
                    set_elem tmp (rt k j) (ct k j) v)
              (λ j, default s_zero (bufA !! Z.to_nat (iA k j))) k T)
    as (T' & Hrun & HT' & Hval & Hrest); [done..| |].
  - intros j T' Hj HT'.
    destruct (HiA k j Hk Hj Ho) as [_ Hr].
    destruct (lookup_lt_is_Some_2 bufA (Z.to_nat (iA k j))) as [v Hv]; [lia|].
    rewrite (bind_Some _ _ _ v (<[b := T']> h0)).
    + rewrite Hv. simpl. by apply gather_set.
    + apply gather_get; [done..|]. by rewrite lineA_lookup.
  - exists T'. split; [done|]. split; [done|]. split; [|done].
    intros j Hj. rewrite Hval, lineA_lookup by done.
    destruct (HiA k j Hk Hj Ho) as [_ Hr].
    destruct (lookup_lt_is_Some_2 bufA (Z.to_nat (iA k j))) as [v Hv]; [lia|].
    by rewrite Hv.
Qed.

Lemma size_add_spec (v : list Z) (i x : Z) :
  0 <= i → v !! Z.to_nat i = Some x →
  0 <= x → x + len < 18446744073709551616 →
  size_add v i len = Some (<[Z.to_nat i := x + len]> v).
Proof.
  intros Hi Hv Hx Hlt. unfold size_add. rewrite decide_True by done.
  rewrite Hv. simpl. unfold to_size_t.
  rewrite (Z.mod_small len) by lia. by rewrite Z.mod_small by lia.
Qed.

(** The first loop: the sizes of the receive buffers, and the lines
    that stay on this worker copied into [tmp]. *)
Lemma gather_count_loop T0 :
  length T0 = sizeT →
  ∃ rs ss T1,
    for_range 0 n gather_count
      (replicate (Z.to_nat np) 0, replicate (Z.to_nat np) 0, <[b := T0]> h0)
      = Some (tt, (rs, ss, <[b := T1]> h0))
    ∧ length rs = Z.to_nat np
    ∧ (∀ o, 0 <= o < np →
         rs !! Z.to_nat o
           = Some (len * count_below
                           (λ i, bool_decide (own i = o ∧ o ≠ me)) n))
    ∧ length T1 = sizeT
    ∧ (∀ k j, 0 <= k < n → own k = me → dst k = me → 0 <= j < len →
         T1 !! Z.to_nat (iT k j) = lineA k !! Z.to_nat j).
Proof.
  intros HT0.
  destruct (for_range_inv
    (λ m s, length s.1.1 = Z.to_nat np ∧ length s.1.2 = Z.to_nat np
       ∧ (∀ o, 0 <= o < np →
            s.1.1 !! Z.to_nat o
              = Some (len * count_below
                              (λ i, bool_decide (own i = o ∧ o ≠ me)) m))
       ∧ ∃ T, s.2 = <[b := T]> h0 ∧ length T = sizeT
            ∧ (∀ k j, 0 <= k < m → own k = me → dst k = me →
                 0 <= j < len →
                 T !! Z.to_nat (iT k j) = lineA k !! Z.to_nat j))
    0 n gather_count
    (replicate (Z.to_nat np) 0, replicate (Z.to_nat np) 0, <[b := T0]> h0))
    as ([[rs ss] h] & Hrun & Hrs & Hss & Hcnt & T1 & Hh & HT1 & Hlines);
    [done| | |].
  - simpl. rewrite !length_replicate. do 2 (split; [done|]). split.
    + intros o Ho. rewrite lookup_replicate_2 by lia.
      rewrite count_below_0. f_equal. lia.
    + exists T0. do 2 (split; [done|]). intros; lia.
  - intros k [[rs ss] h] Hk (Hrs & Hss & Hcnt & T & Hh & HT & Hlines).
    simpl in *. subst h. unfold gather_count. simpl.
    pose proof (Hown k Hk) as Hok. pose proof (Hdst k Hk) as Hdk.
    assert (∀ o, 0 <= o < np →
              count_below (λ i, bool_decide (own i = o ∧ o ≠ me)) (k + 1)
              = count_below (λ i, bool_decide (own i = o ∧ o ≠ me)) k
                + (if bool_decide (own k = o ∧ o ≠ me) then 1 else 0))
      as Hstep by (intros; apply count_below_succ; lia).
    destruct (decide (own k ≠ me)) as [Hne|Heq].
    + pose proof (count_below_range
                    (λ i, bool_decide (own i = own k ∧ own k ≠ me)) k
                    ltac:(lia)) as Hc.
      rewrite (size_add_spec rs (own k) _ ltac:(lia) (Hcnt (own k) Hok))
        by nia.
      simpl. eexists. split; [done|]. simpl.
      rewrite length_insert. do 2 (split; [done|]). split.
      * intros o Ho. rewrite Hstep by done.
        destruct (decide (o = own k)) as [->|Hne'].
        -- rewrite list_lookup_insert_eq by lia.
           rewrite bool_decide_true by done. f_equal. lia.
        -- rewrite list_lookup_insert_ne by lia.
           rewrite bool_decide_false by lia.
           rewrite Hcnt by done. f_equal. lia.
      * exists T. do 2 (split; [done|]).
        intros k' j Hk' Ho' Hd' Hj. apply Hlines; [|done..].
        destruct (decide (k' = k)) as [->|]; [done|lia].
    + apply dec_stable in Heq.
      assert (∀ o, 0 <= o < np →
                rs !! Z.to_nat o
                = Some (len * count_below
                                (λ i, bool_decide (own i = o ∧ o ≠ me))
                                (k + 1))) as Hcnt'.
      { intros o Ho. rewrite Hstep, Hcnt by done.
        rewrite bool_decide_false by lia. f_equal. lia. }
      destruct (decide (dst k = me)) as [Hd|Hd].
      * destruct (gather_copy_spec k T Hk Heq Hd HT)
          as (T' & Hrun & HT' & Hval & Hrest).
        rewrite Hrun. simpl. eexists. split; [done|]. simpl.
        do 3 (split; [done|]). exists T'. do 2 (split; [done|]).
        intros k' j Hk' Ho' Hd' Hj.
        destruct (decide (k' = k)) as [->|Hne]; [by apply Hval|].
        rewrite Hrest; [apply Hlines; [lia|done..]|].
        intros j' Hj' Heq'. apply Hne.
        destruct (HiT k' j ltac:(lia) Hj Hd') as [_ Hr1].
        destruct (HiT k j' Hk Hj' Hd) as [_ Hr2].
        by destruct (HiT_inj k' j k j' ltac:(lia) Hj Hd' Hk Hj' Hd
                       ltac:(lia)).
      * destruct (lookup_lt_is_Some_2 ss (Z.to_nat (dst k))) as [x Hx];
          [lia|].
        unfold size_add. rewrite decide_True by lia. rewrite Hx. simpl.
        eexists. split; [done|]. simpl. rewrite length_insert.
        do 3 (split; [done|]). exists T. do 2 (split; [done|]).
        intros k' j Hk' Ho' Hd' Hj. apply Hlines; [|done..].
        destruct (decide (k' = k)) as [->|]; [done|lia].
  - simpl in *. subst h. by exists rs, ss, T1.
Qed.

(** Pushing the line [k] of [this] on the send buffer of [d]. *)
Lemma gather_push_line (h : heap scalar_t) T k d sb old :
  h = <[b := T]> h0 →
  0 <= k < n → own k = me → 0 <= d → sb !! Z.to_nat d = Some old →
  for_range 0 len
    (λ j sbuf, v ← get_elem this (ra k j) (ca k j) h;
               sbuf ← push_back_at sbuf d v.1;
               Some (tt, sbuf)) sb
  = Some (tt, <[Z.to_nat d := old ++ lineA k]> sb).
Proof.
  intros -> Hk Ho Hd Hold.
  destruct (for_range_inv
    (λ j s, s = <[Z.to_nat d := old ++ take (Z.to_nat j) (lineA k)]> sb)
    0 len
    (λ j sbuf, v ← get_elem this (ra k j) (ca k j) (<[b := T]> h0);
               sbuf ← push_back_at sbuf d v.1;
               Some (tt, sbuf)) sb) as (s' & Hrun & ->); [done| | |].
  - simpl. rewrite app_nil_r. by rewrite list_insert_id.
  - intros j s Hj ->.
    pose proof (lineA_length k) as HL.
    destruct (lookup_lt_is_Some_2 (lineA k) (Z.to_nat j)) as [v Hv]; [lia|].
    rewrite (gather_get k j T v) by done. simpl.
    unfold push_back_at. rewrite decide_True by done.
    rewrite list_lookup_insert_eq by (by eapply lookup_lt_Some).
    simpl. eexists. split; [done|].
    rewrite list_insert_insert_eq. f_equal.
    replace (Z.to_nat (j + 1)) with (S (Z.to_nat j)) by lia.
    rewrite (take_S_r _ _ _ Hv). by rewrite app_assoc.
  - rewrite Hrun. do 3 f_equal.
    pose proof (lineA_length k). rewrite take_ge by lia. done.
Qed.

(** The second loop: the send buffer of every other destination holds
    the lines of this worker bound there, in the order of the list. *)
Lemma gather_send_loop (h : heap scalar_t) T :
  h = <[b := T]> h0 →
  ∃ sb,
    for_range 0 n (gather_send h) (replicate (Z.to_nat np) []) = Some (tt, sb)
    ∧ length sb = Z.to_nat np
    ∧ (∀ d, 0 <= d < np →
         sb !! Z.to_nat d
           = Some (lines_below
                     (λ i, bool_decide (own i = me ∧ dst i = d ∧ d ≠ me))
                     lineA n)).
Proof.
  intros Hh.
  destruct (for_range_inv
    (λ m sb, length sb = Z.to_nat np
       ∧ ∀ d, 0 <= d < np →
           sb !! Z.to_nat d
             = Some (lines_below
                       (λ i, bool_decide (own i = me ∧ dst i = d ∧ d ≠ me))
                       lineA m))
    0 n (gather_send h) (replicate (Z.to_nat np) []))
    as (sb & Hrun & Hlen' & Hsb); [done| | |].
  - rewrite length_replicate. split; [done|]. intros d Hd.
    by rewrite lookup_replicate_2 by lia.
  - intros k sb Hk [Hlen' Hsb]. unfold gather_send.
    pose proof (Hdst k Hk) as Hdk.
    assert (∀ d, 0 <= d < np →
              ¬ (own k = me ∧ dst k = d ∧ d ≠ me) →
              sb !! Z.to_nat d
              = Some (lines_below
                        (λ i, bool_decide (own i = me ∧ dst i = d ∧ d ≠ me))
                        lineA (k + 1))) as Hkeep.
    { intros d Hd Hnot. rewrite lines_below_succ by lia.
      rewrite bool_decide_false by done. rewrite app_nil_r. by apply Hsb. }
    destruct (decide (own k = me)) as [Ho|Ho];
      [destruct (decide (dst k ≠ me)) as [Hd|Hd]|].
    + rewrite (gather_push_line h T k (dst k) sb _ Hh Hk Ho ltac:(lia)
                 (Hsb (dst k) Hdk)).
      eexists. split; [done|]. rewrite length_insert. split; [done|].
      intros d Hd'. destruct (decide (d = dst k)) as [->|Hne].
      * rewrite list_lookup_insert_eq by lia.
        rewrite lines_below_succ by lia.
        by rewrite bool_decide_true by done.
      * rewrite list_lookup_insert_ne by lia. apply Hkeep; [done|lia].
    + eexists. split; [done|]. split; [done|].
      intros d Hd'. apply Hkeep; [done|lia].
    + eexists. split; [done|]. split; [done|].
      intros d Hd'. apply Hkeep; [done|lia].
  - by exists sb.
Qed.

(** Writing the line [k] of [tmp] from the receive buffer of [o],
    starting at the offset [c0]. *)
Lemma gather_take_line (rbuf : list (list scalar_t)) (val : Z → scalar_t)
  k o bo cur c0 T :
  0 <= k < n → dst k = me → length T = sizeT →
  0 <= o → rbuf !! Z.to_nat o = Some bo →
  cur !! Z.to_nat o = Some c0 → 0 <= c0 →
  (∀ j, 0 <= j < len → bo !! Z.to_nat (c0 + j) = Some (val j)) →
  ∃ T', for_range 0 len
          (λ j, take_received rbuf o (set_elem tmp (rt k j) (ct k j)))
          (cur, <[b := T]> h0)
        = Some (tt, (<[Z.to_nat o := c0 + len]> cur, <[b := T']> h0))
        ∧ length T' = sizeT
        ∧ (∀ j, 0 <= j < len → T' !! Z.to_nat (iT k j) = Some (val j))
        ∧ (∀ i, (∀ j, 0 <= j < len → i ≠ Z.to_nat (iT k j)) →
                T' !! i = T !! i).
Proof.
  intros Hk Hd HT Ho Hbo Hcur Hc0 Hval.
  destruct (for_range_inv
    (λ m s, s.1 = <[Z.to_nat o := c0 + m]> cur
       ∧ ∃ T', s.2 = <[b := T']> h0 ∧ length T' = sizeT
           ∧ (∀ j, 0 <= j < m → T' !! Z.to_nat (iT k j) = Some (val j))
           ∧ (∀ i, (∀ j, 0 <= j < m → i ≠ Z.to_nat (iT k j)) →
                   T' !! i = T !! i))
    0 len
    (λ j, take_received rbuf o (set_elem tmp (rt k j) (ct k j)))
    (cur, <[b := T]> h0))
    as ([cur' h'] & Hrun & Hcur' & T' & Hh' & HT' & Hv' & Hrest');
    [done| | |].
  - simpl. split.
    + rewrite Z.add_0_r. by rewrite list_insert_id.
    + exists T. do 2 (split; [done|]). split; [intros; lia|done].
  - intros j [cur' h'] Hj (Hcur' & T' & Hh' & HT' & Hv' & Hrest').
    simpl in *. subst cur' h'.
    unfold take_received. simpl. rewrite decide_True by done.
    rewrite list_lookup_insert_eq by (by eapply lookup_lt_Some).
    simpl. rewrite Hbo. simpl. rewrite (Hval j Hj). simpl.
    rewrite (gather_set k j T' (val j)) by done. simpl.
    eexists. split; [done|]. simpl. split.
    + rewrite list_insert_insert_eq. f_equal. lia.
    + destruct (HiT k j Hk Hj Hd) as [_ Hr].
      eexists. split; [done|]. rewrite length_insert. split; [done|]. split.
      * intros j' Hj'. destruct (decide (j' = j)) as [->|Hne].
        -- apply list_lookup_insert_eq. lia.
        -- rewrite list_lookup_insert_ne; [apply Hv'; lia|].
           intros Heq. apply Hne.
           destruct (HiT k j' Hk ltac:(lia) Hd) as [_ Hr'].
           by destruct (HiT_inj k j k j' Hk ltac:(lia) Hd Hk ltac:(lia) Hd
                          ltac:(lia)).
      * intros i Hi.
        rewrite list_lookup_insert_ne by (apply not_eq_sym, Hi; lia).
        apply Hrest'. intros j' Hj'. apply Hi. lia.
  - simpl in *. subst cur' h'. by exists T'.
Qed.

(** The third loop: the lines that arrive are written into [tmp] in the
    order of the list; the lines copied by the first loop stay.  [val k]
    is the line that the owner of [k] sent. *)
Lemma gather_place_loop (rbuf : list (list scalar_t))
  (val : Z → list scalar_t) T1 :
  length T1 = sizeT → length rbuf = Z.to_nat np →
  (∀ k, 0 <= k < n → Z.of_nat (length (val k)) = len) →
  (∀ o, 0 <= o < np → o ≠ me →
     ∃ pad, rbuf !! Z.to_nat o
              = Some (lines_below
                        (λ i, bool_decide (own i = o ∧ dst i = me)) val n
                      ++ pad)) →
  ∃ cur T2,
    for_range 0 n (gather_place rbuf)
      (replicate (length rbuf) 0, <[b := T1]> h0)
      = Some (tt, (cur, <[b := T2]> h0))
    ∧ length T2 = sizeT
    ∧ (∀ k j, 0 <= k < n → own k ≠ me → dst k = me → 0 <= j < len →
         T2 !! Z.to_nat (iT k j) = val k !! Z.to_nat j)
    ∧ (∀ k j, 0 <= k < n → own k = me → dst k = me → 0 <= j < len →
         T2 !! Z.to_nat (iT k j) = T1 !! Z.to_nat (iT k j)).
Proof.
  intros HT1 Hrb Hval Hin.
  destruct (for_range_inv
    (λ m s, length s.1 = Z.to_nat np
       ∧ (∀ o, 0 <= o < np → o ≠ me →
            s.1 !! Z.to_nat o
              = Some (len * count_below
                              (λ i, bool_decide (own i = o ∧ dst i = me)) m))
       ∧ ∃ T, s.2 = <[b := T]> h0 ∧ length T = sizeT
           ∧ (∀ k j, 0 <= k < m → own k ≠ me → dst k = me → 0 <= j < len →
                T !! Z.to_nat (iT k j) = val k !! Z.to_nat j)
           ∧ (∀ k j, 0 <= k < n → own k = me → dst k = me → 0 <= j < len →
                T !! Z.to_nat (iT k j) = T1 !! Z.to_nat (iT k j)))
    0 n (gather_place rbuf) (replicate (length rbuf) 0, <[b := T1]> h0))
    as ([cur h] & Hrun & Hcl & Hcur & T2 & Hh & HT2 & Hnew & Hold);
    [done| | |].
  - simpl. rewrite length_replicate. split; [done|]. split.
    + intros o Ho Hne. rewrite lookup_replicate_2 by lia.
      rewrite count_below_0. f_equal. lia.
    + exists T1. do 2 (split; [done|]). split; [intros; lia|done].
  - intros k [cur h] Hk (Hcl & Hcur & T & Hh & HT & Hnew & Hold).
    simpl in *. subst h. unfold gather_place.
    pose proof (Hown k Hk) as Hok.
    assert (∀ o, 0 <= o < np →
              count_below (λ i, bool_decide (own i = o ∧ dst i = me)) (k + 1)
              = count_below (λ i, bool_decide (own i = o ∧ dst i = me)) k
                + (if bool_decide (own k = o ∧ dst k = me) then 1 else 0))
      as Hstep by (intros; apply count_below_succ; lia).
    assert (¬ (own k ≠ me ∧ dst k = me) →
            ∃ s', Some (tt, (cur, <[b := T]> h0)) = Some (tt, s')
              ∧ length s'.1 = Z.to_nat np
              ∧ (∀ o, 0 <= o < np → o ≠ me →
                   s'.1 !! Z.to_nat o
                   = Some (len * count_below
                                   (λ i, bool_decide (own i = o ∧ dst i = me))
                                   (k + 1)))
              ∧ ∃ T', s'.2 = <[b := T']> h0 ∧ length T' = sizeT
                  ∧ (∀ k' j, 0 <= k' < k + 1 → own k' ≠ me → dst k' = me →
                       0 <= j < len →
                       T' !! Z.to_nat (iT k' j) = val k' !! Z.to_nat j)
                  ∧ (∀ k' j, 0 <= k' < n → own k' = me → dst k' = me →
                       0 <= j < len →
                       T' !! Z.to_nat (iT k' j) = T1 !! Z.to_nat (iT k' j)))
      as Hskip.
    { intros Hnot. eexists. split; [done|]. simpl. split; [done|]. split.
      - intros o Ho Hne. rewrite Hstep, Hcur by done.
        rewrite bool_decide_false by lia. f_equal. lia.
      - exists T. do 2 (split; [done|]). split; [|done].
        intros k' j Hk' Ho' Hd' Hj. apply Hnew; [|done..].
        destruct (decide (k' = k)) as [->|]; [lia|lia]. }
    destruct (decide (own k = me)) as [Ho|Ho]; [apply Hskip; lia|].
    destruct (decide (dst k ≠ me)) as [Hd|Hd]; [apply Hskip; lia|].
    apply dec_stable in Hd.
    destruct (Hin (own k) Hok Ho) as [pad Hbo].
    pose proof (count_below_range
                  (λ i, bool_decide (own i = own k ∧ dst i = me)) k
                  ltac:(lia)) as Hc.
    destruct (gather_take_line rbuf
                (λ j, default s_zero (val k !! Z.to_nat j))
                k (own k) _ cur _ T Hk Hd HT ltac:(lia) Hbo
                (Hcur (own k) Hok Ho) ltac:(nia))
      as (T' & Hrun & HT' & Hv' & Hrest').
    { intros j Hj.
      pose proof (lines_below_length
                    (λ i, bool_decide (own i = own k ∧ dst i = me)) val len n
                    Hn Hval) as Hlen'.
      pose proof (count_below_mono
                    (λ i, bool_decide (own i = own k ∧ dst i = me))
                    (k + 1) n ltac:(lia)) as Hmono.
      rewrite Hstep in Hmono by done.
      rewrite bool_decide_true in Hmono by done.
      rewrite lookup_app_l by nia.
      rewrite (lines_below_lookup
                 (λ i, bool_decide (own i = own k ∧ dst i = me))
                 val len n k j Hk
                 ltac:(by apply bool_decide_eq_true_2) Hval Hj).
      pose proof (Hval k Hk).
      destruct (lookup_lt_is_Some_2 (val k) (Z.to_nat j)) as [v Hv]; [lia|].
      by rewrite Hv. }
    rewrite Hrun. eexists. split; [done|]. simpl.
    rewrite length_insert. split; [done|]. split.
    + intros o Ho' Hne. rewrite Hstep by done.
      destruct (decide (o = own k)) as [->|Hne'].
      * rewrite list_lookup_insert_eq by lia.
        rewrite bool_decide_true by done. f_equal. lia.
      * rewrite list_lookup_insert_ne by lia.
        rewrite bool_decide_false by lia.
        rewrite Hcur by done. f_equal. lia.
    + exists T'. do 2 (split; [done|]).
      assert (∀ k' j, 0 <= k' < n → dst k' = me → 0 <= j < len → k' ≠ k →
                T' !! Z.to_nat (iT k' j) = T !! Z.to_nat (iT k' j)) as Hother.
      { intros k' j Hk' Hd' Hj Hne. apply Hrest'.
        intros j' Hj' Heq. apply Hne.
        destruct (HiT k' j Hk' Hj Hd') as [_ Hr1].
        destruct (HiT k j' Hk Hj' Hd) as [_ Hr2].
        by destruct (HiT_inj k' j k j' Hk' Hj Hd' Hk Hj' Hd ltac:(lia)). }
      split.
      * intros k' j Hk' Ho' Hd' Hj.
        destruct (decide (k' = k)) as [->|Hne].
        -- rewrite Hv' by done. pose proof (Hval k Hk).
           destruct (lookup_lt_is_Some_2 (val k) (Z.to_nat j)) as [v Hv];
             [lia|]. by rewrite Hv.
        -- rewrite Hother by (done || lia). apply Hnew; [lia|done..].
      * intros k' j Hk' Ho' Hd' Hj.
        rewrite Hother by (done || congruence). by apply Hold.
  - simpl in *. subst h. by exists cur, T2.
Qed.
End gather.

(** ** Extraction: indices *)

Section local_indices.
Variables (B N : Z).
Hypothesis HB : 1 <= B.
Hypothesis HN : 1 <= N.

Lemma g2p0_range g : 0 <= g2p0 g B N < N.
Proof. apply g2p_range. lia. Qed.

(** The local index of a global index below [n] is below the local
    count of its owner. *)
Lemma g2l0_local n g :
  0 <= g < n → 0 <= g2l0 g B N < numroc n B (g2p0 g B N) 0 N.
Proof.
  intros Hg. unfold g2l0, g2p0.
  pose proof (g2l_lower B N HB HN (g + 1) ltac:(lia)) as Hl.
  pose proof (g2p_range B N HN (g + 1)) as Hp.
  pose proof (l2g_g2l B N HB HN (g + 1) ltac:(lia)) as Hlg.
  pose proof (numroc_l2g n B (g2p (g + 1) B N) N (g2l (g + 1) B N)
                HB HN Hp ltac:(lia) Hl) as [_ H].
  rewrite Hlg in H. lia.
Qed.

(** Two global indices with the same owner and the same local index are
    the same. *)
Lemma g2l0_inj g g' :
  0 <= g → 0 <= g' →
  g2p0 g B N = g2p0 g' B N → g2l0 g B N = g2l0 g' B N → g = g'.
Proof.
  intros Hg Hg' Hp Hl. unfold g2l0, g2p0 in *.
  pose proof (l2g_g2l B N HB HN (g + 1) ltac:(lia)) as H1.
  pose proof (l2g_g2l B N HB HN (g' + 1) ltac:(lia)) as H2.
  rewrite Hp in H1. replace (g2l (g + 1) B N) with (g2l (g' + 1) B N) in H1
    by lia. lia.
Qed.
End local_indices.

(** A cell of a column-major buffer with [ld] rows: its place, and the
    coordinates from the place. *)
Lemma cell_range ld lc r c :
  0 <= r < ld → 0 <= c < lc → 0 <= r + ld * c < ld * lc.
Proof. intros Hr Hc. nia. Qed.

Lemma cell_inj ld r c r' c' :
  0 <= r < ld → 0 <= r' < ld → 0 <= c → 0 <= c' →
  r + ld * c = r' + ld * c' → r = r' ∧ c = c'.
Proof.
  intros Hr Hr' Hc Hc' Heq.
  assert (c = c') as -> by nia. split; [lia|done].
Qed.

Lemma elem_index_exact (m : DistributedMatrix) (r c : Z) :
  0 <= r < lrows_ m → 0 <= c < lcols_ m →
  lrows_ m * lcols_ m <= Int.INT_MAX →
  elem_index m r c = r + lrows_ m * c.
Proof.
  intros Hr Hc Hsz. unfold elem_index, ld.
  pose proof (cell_range (lrows_ m) (lcols_ m) r c Hr Hc).
  assert (0 <= lrows_ m * c <= lrows_ m * lcols_ m) by nia.
  rewrite Int.mul_exact by int_range. by rewrite Int.add_exact by int_range.
Qed.

(** ** Extraction of rows on one worker *)

(** [Ir[k]], with 0 outside the list. *)
Definition index_or_0 (Ir : list Z) (k : Z) : Z :=
  default 0 (Ir !! Z.to_nat k).

Lemma index_at_Some Ir k :
  0 <= k < Z.of_nat (length Ir) → index_at Ir k = Some (index_or_0 Ir k).
Proof.
  intros Hk. unfold index_at, index_or_0. rewrite decide_True by lia.
  destruct (lookup_lt_is_Some_2 Ir (Z.to_nat k)) as [x Hx]; [lia|].
  by rewrite Hx.
Qed.

Lemma index_or_0_Forall (P : Z → Prop) Ir k :
  Forall P Ir → 0 <= k < Z.of_nat (length Ir) → P (index_or_0 Ir k).
Proof.
  intros HP Hk. unfold index_or_0.
  destruct (lookup_lt_is_Some_2 Ir (Z.to_nat k)) as [x Hx]; [lia|].
  rewrite Hx. simpl. by eapply Forall_lookup_1.
Qed.

(** A worker of the grid with its share of a matrix at the default
    block sizes: the layout, and the buffer in the heap. *)
Record share_ok {scalar_t} (w : DistributedMatrix * heap scalar_t)
  (g : BLACSGrid) (a : addr) (buf : list scalar_t) : Prop := {
  so_layout : layout_ok w.1 g;
  so_MB : MB w.1 = default_MB;
  so_NB : NB w.1 = default_NB;
  so_data : data_ w.1 = Some a;
  so_buf : w.2 !! a = Some buf;
  so_len : length buf = Z.to_nat (lrows_ w.1 * lcols_ w.1);
}.

Section rows_worker.
Context {scalar_t : Type} `{!Scalar scalar_t}.
Variables (this : DistributedMatrix) (h : heap scalar_t) (g : BLACSGrid).
Variables (a : addr) (bufA : list scalar_t) (Ir : list Z).
Hypothesis Hshare : share_ok (this, h) g a bufA.
Hypothesis HIr : Forall (λ gr, 0 <= gr < rows this) Ir.
Hypothesis Hfit : Z.of_nat (length Ir) * cols this <= Int.INT_MAX.
Hypothesis Hshort : Z.of_nat (length Ir) < Int.INT_MAX.

Definition rows_own (k : Z) : Z :=
  g2p0 (index_or_0 Ir k) default_MB (g_nprows g).
Definition rows_dst (k : Z) : Z := g2p0 k default_MB (g_nprows g).
Definition rows_from (k j : Z) : Z :=
  g2l0 (index_or_0 Ir k) default_MB (g_nprows g) + lrows_ this * j.
Definition rows_lrt : Z :=
  numroc (Z.of_nat (length Ir)) default_MB (g_prow g) 0 (g_nprows g).
Definition rows_to (k j : Z) : Z :=
  g2l0 k default_MB (g_nprows g) + rows_lrt * j.
Definition rows_tmp : DistributedMatrix :=
  {| grid_ := Some g; data_ := Some (fresh (dom h));
     lrows_ := rows_lrt; lcols_ := lcols_ this;
     desc_ := descset (Z.of_nat (length Ir)) (cols this)
                default_MB default_NB 0 0 (g_ctxt g) (Int.max rows_lrt 1);
     wrapper_ := None |}.

Lemma rows_tmp_layout : layout_ok rows_tmp g.
Proof.
  destruct Hshare as [Hok HMB HNB _ _ _]. simpl in *.
  assert (rows rows_tmp = Z.of_nat (length Ir)) as Hr by done.
  assert (cols rows_tmp = cols this) as Hc by done.
  assert (MB rows_tmp = default_MB) as Hmb by done.
  assert (NB rows_tmp = default_NB) as Hnb by done.
  destruct Hok. split; rewrite ?Hr, ?Hc, ?Hmb, ?Hnb; try done;
    try (rewrite <- ?HMB, <- ?HNB; done); try lia.
Qed.

Lemma rows_new :
  DistributedMatrix_new_default (grid_ this)
    (Int.wrap (Z.of_nat (length Ir))) (cols this) h
  = Some (rows_tmp,
          <[fresh (dom h) :=
              replicate (Z.to_nat (rows_lrt * lcols_ this)) s_indet]> h).
Proof.
  destruct Hshare as [Hok HMB HNB _ _ _]. simpl in *.
  pose proof (lo_cols _ _ Hok). pose proof (lo_nprows _ _ Hok).
  pose proof (lo_npcols _ _ Hok). pose proof (lo_prow _ _ Hok).
  pose proof (lo_pcol _ _ Hok).
  pose proof (layout_lcols_range _ _ Hok) as Hlc.
  rewrite Int.wrap_id by int_range.
  rewrite (lo_grid _ _ Hok). unfold DistributedMatrix_new_default.
  assert (0 <= rows_lrt <= Z.of_nat (length Ir)) as Hlr
    by (apply numroc_range; unfold default_MB; lia).
  assert (lcols_ this
          = numroc (cols this) (Int.max 1 default_NB) (g_pcol g) 0
              (g_npcols g)) as Hlc'
    by (rewrite (lo_lcols _ _ Hok), HNB; done).
  rewrite (DistributedMatrix_new_active g _ _ default_MB default_NB h
             (lo_active _ _ Hok)); try done; try lia.
  - unfold rows_tmp. by rewrite <- Hlc'.
  - rewrite <- Hlc'. change (Int.max 1 default_MB) with default_MB.
    fold rows_lrt. nia.
Qed.

Lemma rows_own_range k : 0 <= rows_own k < g_nprows g.
Proof.
  apply g2p0_range. apply (lo_nprows _ _ (so_layout _ _ _ _ Hshare)).
Qed.

Lemma rows_dst_range k : 0 <= rows_dst k < g_nprows g.
Proof.
  apply g2p0_range. apply (lo_nprows _ _ (so_layout _ _ _ _ Hshare)).
Qed.

Lemma rows_index_range k :
  0 <= k < Z.of_nat (length Ir) → 0 <= index_or_0 Ir k < rows this.
Proof. intros Hk. by apply (index_or_0_Forall _ Ir k HIr). Qed.

(** The places of the cells of a line in the two buffers. *)
Lemma rows_from_spec k j :
  0 <= k < Z.of_nat (length Ir) → 0 <= j < lcols_ this →
  rows_own k = g_prow g →
  elem_index this (g2l0 (index_or_0 Ir k) default_MB (g_nprows g)) j
    = rows_from k j
  ∧ 0 <= rows_from k j < Z.of_nat (length bufA).
Proof.
  intros Hk Hj Ho. destruct Hshare as [Hok HMB HNB _ _ Hlen]. simpl in *.
  pose proof (rows_index_range k Hk) as Hgr.
  pose proof (g2l0_local default_MB (g_nprows g) ltac:(done)
                (lo_nprows _ _ Hok) (rows this) _ Hgr) as Hl.
  fold (rows_own k) in Hl. rewrite Ho in Hl.
  rewrite <- HMB, <- (lo_lrows _ _ Hok), HMB in Hl.
  pose proof (layout_lrows_range _ _ Hok).
  pose proof (layout_lcols_range _ _ Hok).
  pose proof (lo_size _ _ Hok).
  assert (lrows_ this * lcols_ this <= Int.INT_MAX) by nia.
  rewrite elem_index_exact by done. split; [done|].
  rewrite Hlen. unfold rows_from.
  pose proof (cell_range (lrows_ this) (lcols_ this) _ j Hl Hj). lia.
Qed.

Lemma rows_to_spec k j :
  0 <= k < Z.of_nat (length Ir) → 0 <= j < lcols_ this →
  rows_dst k = g_prow g →
  elem_index rows_tmp (g2l0 k default_MB (g_nprows g)) j = rows_to k j
  ∧ 0 <= rows_to k j
    < Z.of_nat (Z.to_nat (rows_lrt * lcols_ this)).
Proof.
  intros Hk Hj Hd. pose proof rows_tmp_layout as Hok.
  pose proof (g2l0_local default_MB (g_nprows g) ltac:(done)
                (lo_nprows _ _ Hok) (Z.of_nat (length Ir)) k Hk) as Hl.
  fold (rows_dst k) in Hl. rewrite Hd in Hl. fold rows_lrt in Hl.
  pose proof (layout_lcols_range _ _ (so_layout _ _ _ _ Hshare)) as Hlc.
  pose proof (lo_cols _ _ (so_layout _ _ _ _ Hshare)) as Hc.
  simpl in Hlc, Hc.
  assert (0 <= rows_lrt <= Z.of_nat (length Ir))
    by (apply numroc_range;
        [done|apply (lo_nprows _ _ Hok)|apply (lo_prow _ _ Hok)|lia]).
  assert (rows_lrt * lcols_ this <= Int.INT_MAX).
  { etrans; [|apply Hfit]. apply Z.mul_le_mono_nonneg; lia. }
  rewrite elem_index_exact by done. split; [done|]. unfold rows_to.
  pose proof (cell_range rows_lrt (lcols_ this) _ j Hl Hj). simpl. lia.
Qed.

Lemma rows_to_inj k j k' j' :
  0 <= k < Z.of_nat (length Ir) → 0 <= j < lcols_ this →
  rows_dst k = g_prow g →
  0 <= k' < Z.of_nat (length Ir) → 0 <= j' < lcols_ this →
  rows_dst k' = g_prow g →
  rows_to k j = rows_to k' j' → k = k' ∧ j = j'.
Proof.
  intros Hk Hj Hd Hk' Hj' Hd' Heq. pose proof rows_tmp_layout as Hok.
  pose proof (g2l0_local default_MB (g_nprows g) ltac:(done)
                (lo_nprows _ _ Hok) (Z.of_nat (length Ir)) k Hk) as Hl.
  pose proof (g2l0_local default_MB (g_nprows g) ltac:(done)
                (lo_nprows _ _ Hok) (Z.of_nat (length Ir)) k' Hk') as Hl'.
  fold (rows_dst k) in Hl. fold (rows_dst k') in Hl'.
  rewrite Hd in Hl. rewrite Hd' in Hl'. fold rows_lrt in Hl, Hl'.
  destruct (cell_inj rows_lrt _ j _ j' Hl Hl' ltac:(lia) ltac:(lia) Heq)
    as [Hg ->].
  split; [|done].
  apply (g2l0_inj default_MB (g_nprows g) ltac:(done) (lo_nprows _ _ Hok));
    [lia|lia| |done].
  fold (rows_dst k) (rows_dst k'). congruence.
Qed.

Lemma rows_owner_of k :
  0 <= k < Z.of_nat (length Ir) →
  rowg2p this (Int.wrap (index_or_0 Ir k)) = Some (rows_own k).
Proof.
  intros Hk. destruct Hshare as [Hok HMB _ _ _ _]. simpl in *.
  pose proof (rows_index_range k Hk). pose proof (lo_rows _ _ Hok).
  rewrite Int.wrap_id by int_range.
  rewrite (rowg2p_exact this g Hok) by lia. by rewrite HMB.
Qed.

Lemma rows_dest_of k :
  0 <= k < Z.of_nat (length Ir) →
  rowg2p this (Int.wrap k) = Some (rows_dst k).
Proof.
  intros Hk. destruct Hshare as [Hok HMB _ _ _ _]. simpl in *.
  rewrite Int.wrap_id by int_range.
  rewrite (rowg2p_exact this g Hok) by lia. by rewrite HMB.
Qed.

Lemma rows_local_of k :
  0 <= k < Z.of_nat (length Ir) →
  rowg2l this (Int.wrap (index_or_0 Ir k))
    = Some (g2l0 (index_or_0 Ir k) default_MB (g_nprows g)).
Proof.
  intros Hk. destruct Hshare as [Hok HMB _ _ _ _]. simpl in *.
  pose proof (rows_index_range k Hk). pose proof (lo_rows _ _ Hok).
  rewrite Int.wrap_id by int_range.
  rewrite (rowg2l_exact this g Hok) by lia. by rewrite HMB.
Qed.

Lemma rows_local_in_tmp k :
  0 <= k < Z.of_nat (length Ir) →
  rowg2l rows_tmp (Int.wrap k) = Some (g2l0 k default_MB (g_nprows g)).
Proof.
  intros Hk. rewrite Int.wrap_id by int_range.
  by rewrite (rowg2l_exact rows_tmp g rows_tmp_layout) by lia.
Qed.

(** The three loop bodies are those of the gather along the rows. *)
Lemma rows_count_eq k (s : list Z * list Z * heap scalar_t) :
  0 <= k < Z.of_nat (length Ir) →
  extract_rows_count this rows_tmp Ir (g_prow g) k s
  = gather_count this rows_tmp (g_prow g) (lcols_ this) rows_own rows_dst
      (λ k _, g2l0 (index_or_0 Ir k) default_MB (g_nprows g)) (λ _ j, j)
      (λ k _, g2l0 k default_MB (g_nprows g)) (λ _ j, j) k s.
Proof.
  intros Hk. unfold extract_rows_count, gather_count, gather_copy.
  rewrite index_at_Some by done. simpl.
  rewrite rows_owner_of by done. simpl.
  destruct (decide (rows_own k ≠ g_prow g)); [done|].
  rewrite rows_dest_of by done. simpl.
  destruct (decide (rows_dst k = g_prow g)); [|done].
  rewrite rows_local_in_tmp by done. simpl.
  by rewrite rows_local_of by done.
Qed.

Lemma rows_send_eq (h' : heap scalar_t) k sb :
  0 <= k < Z.of_nat (length Ir) →
  extract_rows_send this Ir (g_prow g) h' k sb
  = gather_send this (g_prow g) (lcols_ this) rows_own rows_dst
      (λ k _, g2l0 (index_or_0 Ir k) default_MB (g_nprows g)) (λ _ j, j)
      h' k sb.
Proof.
  intros Hk. unfold extract_rows_send, gather_send.
  rewrite index_at_Some by done. simpl.
  rewrite rows_owner_of by done. simpl.
  destruct (decide (rows_own k = g_prow g)); [|done].
  rewrite rows_local_of by done. simpl.
  rewrite rows_dest_of by done. simpl. done.
Qed.

Lemma rows_place_eq (rbuf : list (list scalar_t)) k s :
  0 <= k < Z.of_nat (length Ir) →
  extract_rows_place this rows_tmp Ir (g_prow g) rbuf k s
  = gather_place rows_tmp (g_prow g) (lcols_ this) rows_own rows_dst
      (λ k _, g2l0 k default_MB (g_nprows g)) (λ _ j, j) rbuf k s.
Proof.
  intros Hk. unfold extract_rows_place, gather_place.
  rewrite index_at_Some by done. simpl.
  rewrite rows_owner_of by done. simpl.
  destruct (decide (rows_own k = g_prow g)); [done|].
  rewrite rows_dest_of by done. simpl.
  destruct (decide (rows_dst k ≠ g_prow g)); [done|].
  by rewrite rows_local_in_tmp by done.
Qed.
(** The cells of the row [Ir[k]] held by this worker. *)
Definition rows_line (k : Z) : list scalar_t :=
  lineA (lcols_ this) bufA rows_from k.

Lemma rows_fresh : a ≠ fresh (dom h).
Proof.
  intros Heq. apply (is_fresh (dom h)). rewrite <- Heq.
  apply elem_of_dom. exists bufA. apply (so_buf _ _ _ _ Hshare).
Qed.

Lemma rows_pack_spec :
  ∃ rs sb T1,
    extract_rows_pack this Ir h
      = Some (rows_tmp, Some (g_prow g, rs, sb), <[fresh (dom h) := T1]> h)
    ∧ length rs = Z.to_nat (g_nprows g)
    ∧ (∀ o, 0 <= o < g_nprows g →
         rs !! Z.to_nat o
           = Some (lcols_ this
                   * count_below
                       (λ i, bool_decide (rows_own i = o ∧ o ≠ g_prow g))
                       (Z.of_nat (length Ir))))
    ∧ length T1 = Z.to_nat (rows_lrt * lcols_ this)
    ∧ (∀ k j, 0 <= k < Z.of_nat (length Ir) →
         rows_own k = g_prow g → rows_dst k = g_prow g →
         0 <= j < lcols_ this →
         T1 !! Z.to_nat (rows_to k j) = rows_line k !! Z.to_nat j)
    ∧ length sb = Z.to_nat (g_nprows g)
    ∧ (∀ d, 0 <= d < g_nprows g →
         sb !! Z.to_nat d
           = Some (lines_below
                     (λ i, bool_decide
                             (rows_own i = g_prow g ∧ rows_dst i = d
                              ∧ d ≠ g_prow g))
                     rows_line (Z.of_nat (length Ir)))).
Proof.
  pose proof (so_layout _ _ _ _ Hshare) as Hok. simpl in Hok.
  pose proof (layout_lcols_range _ _ Hok) as Hlc.
  pose proof (lo_cols _ _ Hok) as Hcols.
  pose proof (lo_nprows _ _ Hok) as Hnpr.
  pose proof (lo_prow _ _ Hok) as Hprow.
  assert (lcols_ this * Z.of_nat (length Ir) < 18446744073709551616) as Hsz.
  { unfold Int.INT_MAX in *. nia. }
  destruct (gather_count_loop this rows_tmp (Z.of_nat (length Ir))
              (g_nprows g) (g_prow g) (lcols_ this) rows_own rows_dst
              (λ k _, g2l0 (index_or_0 Ir k) default_MB (g_nprows g))
              (λ _ j, j)
              (λ k _, g2l0 k default_MB (g_nprows g)) (λ _ j, j)
              a (fresh (dom h)) bufA h
              (Z.to_nat (rows_lrt * lcols_ this)) rows_from rows_to
              ltac:(lia) Hprow ltac:(lia) Hsz
              (λ k _, rows_own_range k) (λ k _, rows_dst_range k)
              (so_data _ _ _ _ Hshare) eq_refl rows_fresh
              (so_buf _ _ _ _ Hshare)
              rows_from_spec rows_to_spec rows_to_inj
              (replicate (Z.to_nat (rows_lrt * lcols_ this)) s_indet)
              ltac:(by rewrite length_replicate))
    as (rs & ss & T1 & Hcount & Hrs & Hrsv & HT1 & HT1v).
  destruct (gather_send_loop this (Z.of_nat (length Ir))
              (g_nprows g) (g_prow g) (lcols_ this) rows_own rows_dst
              (λ k _, g2l0 (index_or_0 Ir k) default_MB (g_nprows g))
              (λ _ j, j)
              a (fresh (dom h)) bufA h rows_from
              ltac:(lia) Hprow ltac:(lia)
              (λ k _, rows_dst_range k)
              (so_data _ _ _ _ Hshare) rows_fresh
              (so_buf _ _ _ _ Hshare)
              rows_from_spec (<[fresh (dom h) := T1]> h) T1 eq_refl)
    as (sb & Hsend & Hsb & Hsbv).
  exists rs, sb, T1. split; [|done].
  unfold extract_rows_pack.
  rewrite (bind_Some _ _ _ _ _ rows_new).
  rewrite (layout_active this g Hok). cbv [negb].
  rewrite (bind_Some _ _ _ _ _ (liftM_Some _ _ _ (layout_nprows this g Hok))).
  rewrite (bind_Some _ _ _ _ _ (liftM_Some _ _ _ (layout_prow this g Hok))).
  rewrite bool_decide_true by lia.
  erewrite bind_Some by reflexivity.
  erewrite bind_Some by reflexivity.
  rewrite (for_range_ext _ _ _ _ _ (λ k s _, rows_count_eq k s ltac:(done))).
  rewrite (bind_Some _ _ _ _ _ (liftM_Some _ _ _ Hcount)).
  erewrite bind_Some by reflexivity.
  erewrite bind_Some by reflexivity. cbn [fst snd].
  rewrite (for_range_ext _ _ _ _ _
             (λ k s _, rows_send_eq (<[fresh (dom h) := T1]> h) k s
                         ltac:(done))).
  rewrite (bind_Some _ _ _ _ _ (liftM_Some _ _ _ Hsend)).
  reflexivity.
Qed.

Lemma rows_unpack_spec (rbuf : list (list scalar_t))
  (val : Z → list scalar_t) T1 :
  length T1 = Z.to_nat (rows_lrt * lcols_ this) →
  length rbuf = Z.to_nat (g_nprows g) →
  (∀ k, 0 <= k < Z.of_nat (length Ir) →
     Z.of_nat (length (val k)) = lcols_ this) →
  (∀ o, 0 <= o < g_nprows g → o ≠ g_prow g →
     ∃ pad, rbuf !! Z.to_nat o
              = Some (lines_below
                        (λ i, bool_decide (rows_own i = o
                                           ∧ rows_dst i = g_prow g))
                        val (Z.of_nat (length Ir))
                      ++ pad)) →
  ∃ T2,
    extract_rows_unpack this rows_tmp Ir (g_prow g) rbuf
      (<[fresh (dom h) := T1]> h)
      = Some (tt, <[fresh (dom h) := T2]> h)
    ∧ length T2 = Z.to_nat (rows_lrt * lcols_ this)
    ∧ (∀ k j, 0 <= k < Z.of_nat (length Ir) →
         rows_own k ≠ g_prow g → rows_dst k = g_prow g →
         0 <= j < lcols_ this →
         T2 !! Z.to_nat (rows_to k j) = val k !! Z.to_nat j)
    ∧ (∀ k j, 0 <= k < Z.of_nat (length Ir) →
         rows_own k = g_prow g → rows_dst k = g_prow g →
         0 <= j < lcols_ this →
         T2 !! Z.to_nat (rows_to k j) = T1 !! Z.to_nat (rows_to k j)).
Proof.
  intros HT1 Hrb Hval Hin.
  pose proof (so_layout _ _ _ _ Hshare) as Hok. simpl in Hok.
  pose proof (layout_lcols_range _ _ Hok) as Hlc.
  pose proof (lo_cols _ _ Hok) as Hcols.
  pose proof (lo_nprows _ _ Hok) as Hnpr.
  pose proof (lo_prow _ _ Hok) as Hprow.
  assert (lcols_ this * Z.of_nat (length Ir) < 18446744073709551616) as Hsz.
  { unfold Int.INT_MAX in *. nia. }
  destruct (gather_place_loop rows_tmp (Z.of_nat (length Ir))
              (g_nprows g) (g_prow g) (lcols_ this) rows_own rows_dst
              (λ k _, g2l0 k default_MB (g_nprows g)) (λ _ j, j)
              a (fresh (dom h)) h
              (Z.to_nat (rows_lrt * lcols_ this)) rows_to
              ltac:(lia) Hprow ltac:(lia) Hsz
              (λ k _, rows_own_range k) eq_refl rows_fresh
              rows_to_spec rows_to_inj rbuf val T1 HT1 Hrb Hval Hin)
    as (cur & T2 & Hplace & HT2 & Hnew & Hold).
  exists T2. split; [|done].
  unfold extract_rows_unpack.
  erewrite bind_Some by reflexivity.
  rewrite (for_range_ext _ _ _ _ _
             (λ k s _, rows_place_eq rbuf k s ltac:(done))).
  rewrite (bind_Some _ _ _ _ _ (liftM_Some _ _ _ Hplace)).
  reflexivity.
Qed.

Lemma rows_line_length k : Z.of_nat (length (rows_line k)) = lcols_ this.
Proof.
  pose proof (layout_lcols_range _ _ (so_layout _ _ _ _ Hshare)) as Hlc.
  simpl in Hlc. unfold rows_line, lineA.
  rewrite length_fmap, length_seqZ. lia.
Qed.

Lemma rows_line_lookup k j :
  0 <= k < Z.of_nat (length Ir) → 0 <= j < lcols_ this →
  rows_own k = g_prow g →
  rows_line k !! Z.to_nat j = bufA !! Z.to_nat (rows_from k j).
Proof.
  intros Hk Hj Ho. unfold rows_line, lineA. rewrite list_lookup_fmap.
  rewrite lookup_seqZ_lt by lia. rewrite Z2Nat.id, Z.add_0_l by lia. simpl.
  destruct (rows_from_spec k j Hk Hj Ho) as [_ Hr].
  destruct (lookup_lt_is_Some_2 bufA (Z.to_nat (rows_from k j))) as [v Hv];
    [lia|].
  by rewrite Hv.
Qed.

(** The result with its buffer is a share of a matrix at the default
    block sizes. *)
Lemma rows_result_share T2 :
  length T2 = Z.to_nat (rows_lrt * lcols_ this) →
  share_ok (rows_tmp, <[fresh (dom h) := T2]> h) g (fresh (dom h)) T2.
Proof.
  intros HT2. split; simpl; try done.
  - apply rows_tmp_layout.
  - apply lookup_insert_eq.
Qed.
End rows_worker.

(** ** The exchange along a line of the grid *)

Lemma lines_below_ext {T} P Q (L L' : Z → list T) n :
  (∀ i, 0 <= i < n → P i = Q i ∧ (Q i = true → L i = L' i)) →
  lines_below P L n = lines_below Q L' n.
Proof.
  intros H. destruct (decide (0 <= n)) as [Hn|Hn].
  - revert H. pattern n. apply natlike_ind; [done| |done].
    clear n Hn. intros n Hn IH H. unfold Z.succ in *.
    rewrite !lines_below_succ by done.
    rewrite IH by (intros i Hi; apply H; lia).
    destruct (H n ltac:(lia)) as [-> HL].
    destruct (Q n); [by rewrite HL|done].
  - unfold lines_below, seqZ. by replace (Z.to_nat n) with 0%nat by lia.
Qed.

Section exchange.
Context {scalar_t : Type} `{!Scalar scalar_t}.
Variables (n np me len : Z) (own dst : Z → Z).
(** [lines p k]: the line [k] as the peer [p] holds it. *)
Variable lines : Z → Z → list scalar_t.
Variables (rs : list Z) (peer : Z → option (@packed scalar_t)).

Hypothesis Hn : 0 <= n.
Hypothesis Hme : 0 <= me < np.
Hypothesis Hlen : 0 <= len.
Hypothesis Hlines : ∀ k, 0 <= k < n →
  Z.of_nat (length (lines (own k) k)) = len.
Hypothesis Hrs : length rs = Z.to_nat np.
Hypothesis Hrsv : ∀ o, 0 <= o < np →
  rs !! Z.to_nat o
    = Some (len * count_below (λ i, bool_decide (own i = o ∧ o ≠ me)) n).
Hypothesis Hpeer : ∀ p, 0 <= p < np → p ≠ me →
  ∃ tmp x rs' sb,
    peer p = Some (tmp, Some (x, rs', sb))
    ∧ sb !! Z.to_nat me
        = Some (lines_below
                  (λ i, bool_decide (own i = p ∧ dst i = me ∧ me ≠ p))
                  (lines p) n).

Lemma exchange_one p :
  0 <= p < np →
  ∃ y, (cap ← rs !! Z.to_nat p;
        if decide (p = me) then Some (replicate (Z.to_nat cap) s_zero)
        else x ← peer p; y ← x.2; msg ← y.2 !! Z.to_nat me; receive cap msg)
       = Some y
       ∧ (p ≠ me →
          ∃ pad, y = lines_below
                       (λ i, bool_decide (own i = p ∧ dst i = me))
                       (λ k, lines (own k) k) n ++ pad).
Proof.
  intros Hp. rewrite (Hrsv p Hp). simpl.
  destruct (decide (p = me)) as [->|Hne]; [by eexists|].
  destruct (Hpeer p Hp Hne) as (tmp & x & rs' & sb & -> & Hsb). simpl.
  rewrite Hsb. simpl.
  rewrite (lines_below_ext _ (λ i, bool_decide (own i = p ∧ dst i = me))
             _ (λ k, lines (own k) k)).
  2: { intros i Hi. split.
       - apply bool_decide_ext. split; [by intros (? & ? & ?)|].
         intros [? ?]. split; [done|]. split; [done|congruence].
       - intros [-> _]%bool_decide_eq_true. done. }
  unfold receive.
  rewrite decide_True; [by eexists; split; [|eexists]|].
  rewrite (lines_below_length _ _ len) by done.
  apply Z.mul_le_mono_nonneg_l; [done|].
  apply count_below_le. intros i Hi [-> _]%bool_decide_eq_true.
  apply bool_decide_eq_true_2. done.
Qed.

Lemma exchange_spec :
  ∃ rbuf, exchange me rs peer = Some rbuf
    ∧ length rbuf = Z.to_nat np
    ∧ ∀ o, 0 <= o < np → o ≠ me →
        ∃ pad, rbuf !! Z.to_nat o
                 = Some (lines_below
                           (λ i, bool_decide (own i = o ∧ dst i = me))
                           (λ k, lines (own k) k) n
                         ++ pad).
Proof.
  unfold exchange. rewrite Hrs. rewrite (Z2Nat.id np) by lia.
  match goal with |- ∃ _, mapM ?f ?l = _ ∧ _ => set (F := f) end.
  assert (is_Some (mapM F (seqZ 0 np))) as [rbuf Hrbuf].
  { apply mapM_is_Some, Forall_forall. intros p Hp%elem_of_seqZ.
    destruct (exchange_one p ltac:(lia)) as (y & Hy & _). by exists y. }
  exists rbuf. split; [done|].
  apply mapM_Some in Hrbuf.
  split.
  { rewrite <- (Forall2_length _ _ _ Hrbuf), length_seqZ. done. }
  intros o Ho Hne.
  destruct (Forall2_lookup_l _ _ _ (Z.to_nat o) o Hrbuf) as (y & Hy & HF).
  { rewrite lookup_seqZ_lt by lia. f_equal. lia. }
  destruct (exchange_one o Ho) as (y' & Hy' & Hpad).
  rewrite Hy. unfold F in HF. rewrite Hy' in HF. injection HF as <-.
  destruct (Hpad Hne) as [pad ->]. by exists pad.
Qed.
End exchange.

(** Reading an entry at its global position on the worker that owns
    it. *)
Lemma global_share {scalar_t} (m : DistributedMatrix) (h : heap scalar_t)
  (g : BLACSGrid) (a : addr) (buf : list scalar_t) (r c : Z) :
  share_ok (m, h) g a buf →
  0 <= r < rows m → 0 <= c < cols m →
  g2p0 r default_MB (g_nprows g) = g_prow g →
  g2p0 c default_NB (g_npcols g) = g_pcol g →
  ∃ v, buf !! Z.to_nat (g2l0 r default_MB (g_nprows g)
                        + lrows_ m * g2l0 c default_NB (g_npcols g)) = Some v
       ∧ global m r c h = Some (v, h).
Proof.
  intros [Hok HMB HNB Hdata Hbuf Hlen] Hr Hc Hpr Hpc. simpl in *.
  pose proof (lo_rows _ _ Hok). pose proof (lo_cols _ _ Hok).
  pose proof (layout_lrows_range _ _ Hok).
  pose proof (layout_lcols_range _ _ Hok).
  pose proof (lo_size _ _ Hok).
  pose proof (g2l0_local default_MB (g_nprows g) ltac:(done)
                (lo_nprows _ _ Hok) (rows m) r Hr) as Hlr.
  pose proof (g2l0_local default_NB (g_npcols g) ltac:(done)
                (lo_npcols _ _ Hok) (cols m) c Hc) as Hlc.
  rewrite Hpr in Hlr. rewrite Hpc in Hlc.
  rewrite <- HMB, <- (lo_lrows _ _ Hok), HMB in Hlr.
  rewrite <- HNB, <- (lo_lcols _ _ Hok), HNB in Hlc.
  pose proof (cell_range (lrows_ m) (lcols_ m) _ _ Hlr Hlc) as Hcell.
  destruct (lookup_lt_is_Some_2 buf
              (Z.to_nat (g2l0 r default_MB (g_nprows g)
                         + lrows_ m * g2l0 c default_NB (g_npcols g))))
    as [v Hv]; [lia|].
  exists v. split; [done|].
  unfold global, is_local.
  rewrite (rowg2p_exact m g Hok r) by lia.
  rewrite (colg2p_exact m g Hok c) by lia.
  rewrite (layout_prow m g Hok), (layout_pcol m g Hok), HMB, HNB.
  simpl. rewrite !bool_decide_true by done. simpl.
  erewrite bind_Some by reflexivity.
  erewrite bind_Some by reflexivity.
  rewrite (rowg2l_exact m g Hok r), (colg2l_exact m g Hok c), HMB, HNB by lia.
  erewrite bind_Some by reflexivity.
  erewrite bind_Some by reflexivity.
  unfold get_elem, read_at.
  assert (lrows_ m * lcols_ m <= Int.INT_MAX) by nia.
  rewrite elem_index_exact by done.
  rewrite Hdata. simpl. rewrite Hbuf. simpl.
  rewrite decide_True by lia. by rewrite Hv.
Qed.

Lemma share_rowg2p {scalar_t} (w : DistributedMatrix * heap scalar_t)
  g a buf r :
  share_ok w g a buf → 0 <= r < Int.INT_MAX →
  rowg2p w.1 r = Some (g2p0 r default_MB (g_nprows g)).
Proof.
  intros Hs Hr. rewrite (rowg2p_exact _ _ (so_layout _ _ _ _ Hs)) by done.
  by rewrite (so_MB _ _ _ _ Hs).
Qed.

Lemma share_colg2p {scalar_t} (w : DistributedMatrix * heap scalar_t)
  g a buf c :
  share_ok w g a buf → 0 <= c < Int.INT_MAX →
  colg2p w.1 c = Some (g2p0 c default_NB (g_npcols g)).
Proof.
  intros Hs Hc. rewrite (colg2p_exact _ _ (so_layout _ _ _ _ Hs)) by done.
  by rewrite (so_NB _ _ _ _ Hs).
Qed.

(** ** Extraction over the whole grid *)

(** A matrix of [M] by [N] at the default block sizes spread over a grid
    of [npr] by [npc] workers: the worker at [(p, q)] holds [W p q], its
    buffer [buf p q] at the address [A p q]. *)
Record spread_ok {scalar_t} (npr npc : Z)
  (W : Z → Z → DistributedMatrix * heap scalar_t) (G : Z → Z → BLACSGrid)
  (A : Z → Z → addr) (buf : Z → Z → list scalar_t) (M N : Z) : Prop := {
  sp_nprows : 1 <= npr;
  sp_npcols : 1 <= npc;
  sp_share : ∀ p q, 0 <= p < npr → 0 <= q < npc →
    share_ok (W p q) (G p q) (A p q) (buf p q);
  sp_grid_nprows : ∀ p q, 0 <= p < npr → 0 <= q < npc →
    g_nprows (G p q) = npr;
  sp_grid_npcols : ∀ p q, 0 <= p < npr → 0 <= q < npc →
    g_npcols (G p q) = npc;
  sp_grid_prow : ∀ p q, 0 <= p < npr → 0 <= q < npc → g_prow (G p q) = p;
  sp_grid_pcol : ∀ p q, 0 <= p < npr → 0 <= q < npc → g_pcol (G p q) = q;
  sp_rows : ∀ p q, 0 <= p < npr → 0 <= q < npc → rows (W p q).1 = M;
  sp_cols : ∀ p q, 0 <= p < npr → 0 <= q < npc → cols (W p q).1 = N;
}.

Lemma share_ok_eta {scalar_t} (w : DistributedMatrix * heap scalar_t)
  g a buf :
  share_ok w g a buf → share_ok (w.1, w.2) g a buf.
Proof. by intros []. Qed.

Section rows_grid.
Context {scalar_t : Type} `{!Scalar scalar_t}.
Variables (npr npc : Z) (W : Z → Z → DistributedMatrix * heap scalar_t).
Variables (G : Z → Z → BLACSGrid) (A : Z → Z → addr).
Variables (buf : Z → Z → list scalar_t) (M N : Z) (Ir : list Z).
Hypothesis Hspread : spread_ok npr npc W G A buf M N.
Hypothesis HIr : Forall (λ gr, 0 <= gr < M) Ir.
Hypothesis Hfit : Z.of_nat (length Ir) * N <= Int.INT_MAX.
Hypothesis Hshort : Z.of_nat (length Ir) < Int.INT_MAX.

(** The owner of the row [Ir[k]] and the owner of the row [k] of the
    result; the local width on the process column [q]. *)
Definition row_owner (k : Z) : Z := g2p0 (index_or_0 Ir k) default_MB npr.
Definition row_dest (k : Z) : Z := g2p0 k default_MB npr.
Definition width (q : Z) : Z := numroc N default_NB q 0 npc.

Lemma rows_grid_lcols p q :
  0 <= p < npr → 0 <= q < npc → lcols_ (W p q).1 = width q.
Proof.
  intros Hp Hq. pose proof (sp_share _ _ _ _ _ _ _ _ Hspread p q Hp Hq) as Hs.
  rewrite (lo_lcols _ _ (so_layout _ _ _ _ Hs)), (so_NB _ _ _ _ Hs).
  rewrite (sp_cols _ _ _ _ _ _ _ _ Hspread p q Hp Hq).
  rewrite (sp_grid_pcol _ _ _ _ _ _ _ _ Hspread p q Hp Hq).
  by rewrite (sp_grid_npcols _ _ _ _ _ _ _ _ Hspread p q Hp Hq).
Qed.

Lemma row_owner_range k : 0 <= row_owner k < npr.
Proof. apply g2p0_range. apply (sp_nprows _ _ _ _ _ _ _ _ Hspread). Qed.

Lemma row_dest_range k : 0 <= row_dest k < npr.
Proof. apply g2p0_range. apply (sp_nprows _ _ _ _ _ _ _ _ Hspread). Qed.

(** What the worker at [(p, q)] packs. *)
Lemma rows_grid_pack p q :
  0 <= p < npr → 0 <= q < npc →
  ∃ rs sb T1,
    extract_rows_pack (W p q).1 Ir (W p q).2
      = Some (rows_tmp (W p q).1 (W p q).2 (G p q) Ir, Some (p, rs, sb),
              <[fresh (dom (W p q).2) := T1]> (W p q).2)
    ∧ length rs = Z.to_nat npr
    ∧ (∀ o, 0 <= o < npr →
         rs !! Z.to_nat o
           = Some (width q
                   * count_below
                       (λ i, bool_decide (row_owner i = o ∧ o ≠ p))
                       (Z.of_nat (length Ir))))
    ∧ length T1 = Z.to_nat (rows_lrt (G p q) Ir * width q)
    ∧ (∀ k j, 0 <= k < Z.of_nat (length Ir) →
         row_owner k = p → row_dest k = p → 0 <= j < width q →
         T1 !! Z.to_nat (rows_to (G p q) Ir k j)
           = buf p q !! Z.to_nat (rows_from (W p q).1 (G p q) Ir k j))
    ∧ length sb = Z.to_nat npr
    ∧ (∀ d, 0 <= d < npr →
         sb !! Z.to_nat d
           = Some (lines_below
                     (λ i, bool_decide (row_owner i = p ∧ row_dest i = d
                                        ∧ d ≠ p))
                     (rows_line (W p q).1 (G p q) (buf p q) Ir)
                     (Z.of_nat (length Ir)))).
Proof.
  intros Hp Hq.
  pose proof (share_ok_eta _ _ _ _
                (sp_share _ _ _ _ _ _ _ _ Hspread p q Hp Hq)) as Hs.
  pose proof (sp_rows _ _ _ _ _ _ _ _ Hspread p q Hp Hq) as Hrows.
  pose proof (sp_cols _ _ _ _ _ _ _ _ Hspread p q Hp Hq) as Hcols.
  pose proof (sp_grid_nprows _ _ _ _ _ _ _ _ Hspread p q Hp Hq) as Hgn.
  pose proof (sp_grid_prow _ _ _ _ _ _ _ _ Hspread p q Hp Hq) as Hgp.
  pose proof (rows_grid_lcols p q Hp Hq) as Hw.
  destruct (rows_pack_spec (W p q).1 (W p q).2 (G p q) (A p q) (buf p q) Ir
              Hs ltac:(by rewrite Hrows) ltac:(by rewrite Hcols) Hshort)
    as (rs & sb & T1 & Hpack & Hrs & Hrsv & HT1 & HT1v & Hsb & Hsbv).
  unfold rows_own, rows_dst in *. rewrite Hgn, Hgp, Hw in *.
  exists rs, sb, T1. do 4 (split; [done|]). split; [|done].
  intros k j Hk Ho Hd Hj. rewrite (HT1v k j Hk Ho Hd Hj).
  apply (rows_line_lookup (W p q).1 (W p q).2 (G p q) (A p q) (buf p q) Ir
           Hs ltac:(by rewrite Hrows)); unfold rows_own;
    rewrite ?Hgn, ?Hgp, ?Hw; done.
Qed.

(** The result on the worker at [(p, q)]: every row of the result it
    holds has the cells of the row [Ir[k]] that the owner of that row
    holds on the same process column. *)
Lemma rows_grid_result p q :
  0 <= p < npr → 0 <= q < npc →
  ∃ T2,
    extract_rows W Ir p q
      = Some (rows_tmp (W p q).1 (W p q).2 (G p q) Ir,
              <[fresh (dom (W p q).2) := T2]> (W p q).2)
    ∧ length T2 = Z.to_nat (rows_lrt (G p q) Ir * width q)
    ∧ (∀ k j, 0 <= k < Z.of_nat (length Ir) → row_dest k = p →
         0 <= j < width q →
         T2 !! Z.to_nat (rows_to (G p q) Ir k j)
           = buf (row_owner k) q
               !! Z.to_nat (rows_from (W (row_owner k) q).1
                              (G (row_owner k) q) Ir k j)).
Proof.
  intros Hp Hq.
  pose proof (share_ok_eta _ _ _ _
                (sp_share _ _ _ _ _ _ _ _ Hspread p q Hp Hq)) as Hs.
  pose proof (sp_rows _ _ _ _ _ _ _ _ Hspread p q Hp Hq) as Hrows.
  pose proof (sp_cols _ _ _ _ _ _ _ _ Hspread p q Hp Hq) as Hcols.
  pose proof (sp_grid_nprows _ _ _ _ _ _ _ _ Hspread p q Hp Hq) as Hgn.
  pose proof (sp_grid_prow _ _ _ _ _ _ _ _ Hspread p q Hp Hq) as Hgp.
  pose proof (rows_grid_lcols p q Hp Hq) as Hw.
  assert (0 <= width q) as Hwq.
  { rewrite <- Hw.
    apply (layout_lcols_range _ _ (so_layout _ _ _ _ Hs)). }
  destruct (rows_grid_pack p q Hp Hq)
    as (rs & sb & T1 & Hpack & Hrs & Hrsv & HT1 & HT1v & _ & _).
  set (lines := λ o k, rows_line (W o q).1 (G o q) (buf o q) Ir k).
  assert (∀ k, 0 <= k < Z.of_nat (length Ir) →
            Z.of_nat (length (lines (row_owner k) k)) = width q) as Hlines.
  { intros k Hk. pose proof (row_owner_range k) as Ho.
    unfold lines.
    rewrite (rows_line_length _ _ _ _ _ _
               (share_ok_eta _ _ _ _
                  (sp_share _ _ _ _ _ _ _ _ Hspread _ q Ho Hq))).
    by apply rows_grid_lcols. }
  destruct (exchange_spec (Z.of_nat (length Ir)) npr p (width q)
              row_owner row_dest lines rs
              (λ o, fst <$> extract_rows_pack (W o q).1 Ir (W o q).2)
              ltac:(lia) Hp Hwq Hlines Hrs Hrsv)
    as (rbuf & Hex & Hrb & Hrbv).
  { intros o Ho Hne.
    destruct (rows_grid_pack o q Ho Hq)
      as (rs' & sb' & T1' & Hpack' & _ & _ & _ & _ & _ & Hsbv').
    rewrite Hpack'. simpl. do 4 eexists. split; [done|].
    by rewrite (Hsbv' p Hp). }
  pose proof (rows_unpack_spec (W p q).1 (W p q).2 (G p q) (A p q) (buf p q)
                Ir Hs ltac:(by rewrite Hrows) ltac:(by rewrite Hcols) Hshort
                rbuf (λ k, lines (row_owner k) k) T1) as Hun.
  unfold rows_own, rows_dst in Hun. rewrite Hgn, Hgp, Hw in Hun.
  destruct (Hun HT1 Hrb Hlines Hrbv) as (T2 & Hunpack & HT2 & Hnew & Hold).
  exists T2. split; [|split; [done|]].
  - unfold extract_rows. rewrite Hpack. simpl. rewrite Hex. simpl.
    by rewrite Hunpack.
  - intros k j Hk Hd Hj.
    destruct (decide (row_owner k = p)) as [Ho|Ho].
    + rewrite (Hold k j Hk Ho Hd Hj), (HT1v k j Hk Ho Hd Hj). by rewrite Ho.
    + rewrite (Hnew k j Hk Ho Hd Hj). unfold lines.
      pose proof (row_owner_range k) as Hor.
      pose proof (sp_grid_nprows _ _ _ _ _ _ _ _ Hspread _ q Hor Hq) as Hgn'.
      pose proof (sp_grid_prow _ _ _ _ _ _ _ _ Hspread _ q Hor Hq) as Hgp'.
      apply (rows_line_lookup _ _ _ _ _ _
               (share_ok_eta _ _ _ _
                  (sp_share _ _ _ _ _ _ _ _ Hspread _ q Hor Hq)));
        unfold rows_own;
        rewrite ?(sp_rows _ _ _ _ _ _ _ _ Hspread _ q Hor Hq),
          ?(sp_cols _ _ _ _ _ _ _ _ Hspread _ q Hor Hq),
          ?(rows_grid_lcols _ q Hor Hq), ?Hgn', ?Hgp'; done.
Qed.

(** The owner of a position, as any worker of the grid computes it. *)
Lemma rows_grid_owner p q r :
  0 <= p < npr → 0 <= q < npc → 0 <= r < Int.INT_MAX →
  rowg2p (W p q).1 r = Some (g2p0 r default_MB npr).
Proof.
  intros Hp Hq Hr.
  pose proof (sp_share _ _ _ _ _ _ _ _ Hspread p q Hp Hq) as Hs.
  rewrite (share_rowg2p _ _ _ _ _ Hs) by done.
  by rewrite (sp_grid_nprows _ _ _ _ _ _ _ _ Hspread p q Hp Hq).
Qed.

Lemma cols_grid_owner p q c :
  0 <= p < npr → 0 <= q < npc → 0 <= c < Int.INT_MAX →
  colg2p (W p q).1 c = Some (g2p0 c default_NB npc).
Proof.
  intros Hp Hq Hc.
  pose proof (sp_share _ _ _ _ _ _ _ _ Hspread p q Hp Hq) as Hs.
  rewrite (share_colg2p _ _ _ _ _ Hs) by done.
  by rewrite (sp_grid_npcols _ _ _ _ _ _ _ _ Hspread p q Hp Hq).
Qed.

(** Row [i] of the result is row [Ir[i]] of the matrix. *)
Lemma rows_grid_entry i c :
  0 <= i < Z.of_nat (length Ir) → 0 <= c < N →
  ∃ v, global_entry (λ p q, Some (W p q)) (index_or_0 Ir i) c = Some v
       ∧ global_entry (extract_rows W Ir) i c = Some v.
Proof.
  intros Hi Hc.
  pose proof (sp_nprows _ _ _ _ _ _ _ _ Hspread) as Hnpr.
  pose proof (sp_npcols _ _ _ _ _ _ _ _ Hspread) as Hnpc.
  pose proof (index_or_0_Forall _ Ir i HIr Hi) as Hgr. simpl in Hgr.
  pose proof (row_owner_range i) as Ho. pose proof (row_dest_range i) as Hd.
  assert (0 <= g2p0 c default_NB npc < npc) as Hq
    by (apply g2p0_range; (done || lia)).
  set (q := g2p0 c default_NB npc) in *.
  assert (0 <= (0:Z) < npr) as H0r by lia.
  assert (0 <= (0:Z) < npc) as H0c by lia.
  pose proof (sp_share _ _ _ _ _ _ _ _ Hspread 0 0 H0r H0c) as Hs0.
  pose proof (lo_rows _ _ (so_layout _ _ _ _ Hs0)) as HM.
  pose proof (lo_cols _ _ (so_layout _ _ _ _ Hs0)) as HN.
  rewrite (sp_rows _ _ _ _ _ _ _ _ Hspread 0 0 H0r H0c) in HM.
  rewrite (sp_cols _ _ _ _ _ _ _ _ Hspread 0 0 H0r H0c) in HN.
  (* the entry of the matrix *)
  pose proof (share_ok_eta _ _ _ _
                (sp_share _ _ _ _ _ _ _ _ Hspread _ q Ho Hq)) as Hso.
  destruct (global_share _ _ _ _ _ (index_or_0 Ir i) c Hso) as (v & Hv & Hgl).
  { simpl. by rewrite (sp_rows _ _ _ _ _ _ _ _ Hspread _ q Ho Hq). }
  { simpl. by rewrite (sp_cols _ _ _ _ _ _ _ _ Hspread _ q Ho Hq). }
  { rewrite (sp_grid_nprows _ _ _ _ _ _ _ _ Hspread _ q Ho Hq).
    by rewrite (sp_grid_prow _ _ _ _ _ _ _ _ Hspread _ q Ho Hq). }
  { rewrite (sp_grid_npcols _ _ _ _ _ _ _ _ Hspread _ q Ho Hq).
    by rewrite (sp_grid_pcol _ _ _ _ _ _ _ _ Hspread _ q Ho Hq). }
  exists v. split.
  { unfold global_entry. simpl.
    rewrite (rows_grid_owner 0 0) by (done || lia).
    rewrite (cols_grid_owner 0 0) by (done || lia). simpl.
    fold (row_owner i). fold q. by rewrite Hgl. }
  (* the entry of the result *)
  destruct (rows_grid_result 0 0 H0r H0c) as (T0 & Hres0 & HT0 & _).
  destruct (rows_grid_result _ q Hd Hq) as (T2 & Hres & HT2 & HT2v).
  pose proof (share_ok_eta _ _ _ _ Hs0) as Hs0'.
  pose proof (share_ok_eta _ _ _ _
                (sp_share _ _ _ _ _ _ _ _ Hspread _ q Hd Hq)) as Hsd.
  assert (Z.of_nat (length Ir) * cols (W 0 0).1 <= Int.INT_MAX) as Hfit0
    by (by rewrite (sp_cols _ _ _ _ _ _ _ _ Hspread 0 0 H0r H0c)).
  assert (Forall (λ gr, 0 <= gr < rows (W 0 0).1) Ir) as HIr0
    by (by rewrite (sp_rows _ _ _ _ _ _ _ _ Hspread 0 0 H0r H0c)).
  assert (Z.of_nat (length Ir) * cols (W (row_dest i) q).1 <= Int.INT_MAX)
    as Hfitd by (by rewrite (sp_cols _ _ _ _ _ _ _ _ Hspread _ q Hd Hq)).
  assert (Forall (λ gr, 0 <= gr < rows (W (row_dest i) q).1) Ir) as HIrd
    by (by rewrite (sp_rows _ _ _ _ _ _ _ _ Hspread _ q Hd Hq)).
  rewrite <- (rows_grid_lcols 0 0 H0r H0c) in HT0.
  rewrite <- (rows_grid_lcols _ q Hd Hq) in HT2.
  assert (share_ok (rows_tmp (W 0 0).1 (W 0 0).2 (G 0 0) Ir,
                    <[fresh (dom (W 0 0).2) := T0]> (W 0 0).2)
            (G 0 0) (fresh (dom (W 0 0).2)) T0) as Hr0
    by (eapply rows_result_share; eassumption).
  assert (share_ok (rows_tmp (W (row_dest i) q).1 (W (row_dest i) q).2
                      (G (row_dest i) q) Ir,
                    <[fresh (dom (W (row_dest i) q).2) := T2]>
                      (W (row_dest i) q).2)
            (G (row_dest i) q) (fresh (dom (W (row_dest i) q).2)) T2) as Hrd
    by (eapply rows_result_share; eassumption).
  pose proof (sp_grid_nprows _ _ _ _ _ _ _ _ Hspread _ q Hd Hq) as Hgn.
  pose proof (sp_grid_npcols _ _ _ _ _ _ _ _ Hspread _ q Hd Hq) as Hgm.
  pose proof (sp_grid_prow _ _ _ _ _ _ _ _ Hspread _ q Hd Hq) as Hgp.
  pose proof (sp_grid_pcol _ _ _ _ _ _ _ _ Hspread _ q Hd Hq) as Hgq.
  destruct (global_share _ _ _ _ _ i c Hrd) as (v' & Hv' & Hgl').
  { done. }
  { change (0 <= c < cols (W (row_dest i) q).1).
    by rewrite (sp_cols _ _ _ _ _ _ _ _ Hspread _ q Hd Hq). }
  { by rewrite Hgn, Hgp. }
  { by rewrite Hgm, Hgq. }
  assert (0 <= g2l0 c default_NB npc < width q) as Hj
    by (apply g2l0_local; (done || lia)).
  change (T2 !! Z.to_nat (rows_to (G (row_dest i) q) Ir i
                            (g2l0 c default_NB (g_npcols (G (row_dest i) q))))
          = Some v') in Hv'.
  rewrite Hgm in Hv'. rewrite (HT2v i _ Hi eq_refl Hj) in Hv'.
  unfold rows_from in Hv'.
  rewrite (sp_grid_npcols _ _ _ _ _ _ _ _ Hspread _ q Ho Hq) in Hv.
  assert (v' = v) as -> by congruence.
  assert (rowg2p (rows_tmp (W 0 0).1 (W 0 0).2 (G 0 0) Ir) i
          = Some (row_dest i)) as Hpr.
  { unfold row_dest.
    rewrite <- (sp_grid_nprows _ _ _ _ _ _ _ _ Hspread 0 0 H0r H0c).
    apply (share_rowg2p _ _ _ _ i Hr0). lia. }
  assert (colg2p (rows_tmp (W 0 0).1 (W 0 0).2 (G 0 0) Ir) c = Some q)
    as Hpc.
  { unfold q.
    rewrite <- (sp_grid_npcols _ _ _ _ _ _ _ _ Hspread 0 0 H0r H0c).
    apply (share_colg2p _ _ _ _ c Hr0). lia. }
  unfold global_entry. rewrite Hres0. simpl. rewrite Hpr, Hpc. simpl.
  rewrite Hres. simpl. by rewrite Hgl'.
Qed.
End rows_grid.

(** ** Extraction of columns on one worker *)

Section cols_worker.
Context {scalar_t : Type} `{!Scalar scalar_t}.
Variables (this : DistributedMatrix) (h : heap scalar_t) (g : BLACSGrid).
Variables (a : addr) (bufA : list scalar_t) (Jc : list Z).
Hypothesis Hshare : share_ok (this, h) g a bufA.
Hypothesis HJc : Forall (λ gc, 0 <= gc < cols this) Jc.
Hypothesis Hfit : rows this * Z.of_nat (length Jc) <= Int.INT_MAX.
Hypothesis Hshort : Z.of_nat (length Jc) < Int.INT_MAX.

Definition cols_own (k : Z) : Z :=
  g2p0 (index_or_0 Jc k) default_NB (g_npcols g).
Definition cols_dst (k : Z) : Z := g2p0 k default_NB (g_npcols g).
Definition cols_from (k j : Z) : Z :=
  j + lrows_ this * g2l0 (index_or_0 Jc k) default_NB (g_npcols g).
Definition cols_lct : Z :=
  numroc (Z.of_nat (length Jc)) default_NB (g_pcol g) 0 (g_npcols g).
Definition cols_to (k j : Z) : Z :=
  j + lrows_ this * g2l0 k default_NB (g_npcols g).
Definition cols_tmp : DistributedMatrix :=
  {| grid_ := Some g; data_ := Some (fresh (dom h));
     lrows_ := lrows_ this; lcols_ := cols_lct;
     desc_ := descset (rows this) (Z.of_nat (length Jc))
                default_MB default_NB 0 0 (g_ctxt g)
                (Int.max (lrows_ this) 1);
     wrapper_ := None |}.

Lemma cols_tmp_layout : layout_ok cols_tmp g.
Proof.
  destruct Hshare as [Hok HMB HNB _ _ _]. simpl in *.
  assert (rows cols_tmp = rows this) as Hr by done.
  assert (cols cols_tmp = Z.of_nat (length Jc)) as Hc by done.
  assert (MB cols_tmp = default_MB) as Hmb by done.
  assert (NB cols_tmp = default_NB) as Hnb by done.
  destruct Hok. split; rewrite ?Hr, ?Hc, ?Hmb, ?Hnb; try done;
    try (rewrite <- ?HMB, <- ?HNB; done); try lia.
Qed.

Lemma cols_new :
  DistributedMatrix_new_default (grid_ this) (rows this)
    (Int.wrap (Z.of_nat (length Jc))) h
  = Some (cols_tmp,
          <[fresh (dom h) :=
              replicate (Z.to_nat (lrows_ this * cols_lct)) s_indet]> h).
Proof.
  destruct Hshare as [Hok HMB HNB _ _ _]. simpl in *.
  pose proof (lo_rows _ _ Hok). pose proof (lo_nprows _ _ Hok).
  pose proof (lo_npcols _ _ Hok). pose proof (lo_prow _ _ Hok).
  pose proof (lo_pcol _ _ Hok).
  pose proof (layout_lrows_range _ _ Hok) as Hlr.
  rewrite Int.wrap_id by int_range.
  rewrite (lo_grid _ _ Hok). unfold DistributedMatrix_new_default.
  assert (0 <= cols_lct <= Z.of_nat (length Jc)) as Hlc
    by (apply numroc_range; unfold default_NB; lia).
  assert (lrows_ this
          = numroc (rows this) (Int.max 1 default_MB) (g_prow g) 0
              (g_nprows g)) as Hlr'
    by (rewrite (lo_lrows _ _ Hok), HMB; done).
  rewrite (DistributedMatrix_new_active g _ _ default_MB default_NB h
             (lo_active _ _ Hok)); try done; try lia.
  - unfold cols_tmp. by rewrite <- Hlr'.
  - rewrite <- Hlr'. change (Int.max 1 default_NB) with default_NB.
    fold cols_lct. nia.
Qed.

Lemma cols_own_range k : 0 <= cols_own k < g_npcols g.
Proof.
  apply g2p0_range. apply (lo_npcols _ _ (so_layout _ _ _ _ Hshare)).
Qed.

Lemma cols_dst_range k : 0 <= cols_dst k < g_npcols g.
Proof.
  apply g2p0_range. apply (lo_npcols _ _ (so_layout _ _ _ _ Hshare)).
Qed.

Lemma cols_index_range k :
  0 <= k < Z.of_nat (length Jc) → 0 <= index_or_0 Jc k < cols this.
Proof. intros Hk. by apply (index_or_0_Forall _ Jc k HJc). Qed.

Lemma cols_from_spec k j :
  0 <= k < Z.of_nat (length Jc) → 0 <= j < lrows_ this →
  cols_own k = g_pcol g →
  elem_index this j (g2l0 (index_or_0 Jc k) default_NB (g_npcols g))
    = cols_from k j
  ∧ 0 <= cols_from k j < Z.of_nat (length bufA).
Proof.
  intros Hk Hj Ho. destruct Hshare as [Hok HMB HNB _ _ Hlen]. simpl in *.
  pose proof (cols_index_range k Hk) as Hgc.
  pose proof (g2l0_local default_NB (g_npcols g) ltac:(done)
                (lo_npcols _ _ Hok) (cols this) _ Hgc) as Hl.
  fold (cols_own k) in Hl. rewrite Ho in Hl.
  rewrite <- HNB, <- (lo_lcols _ _ Hok), HNB in Hl.
  pose proof (layout_lrows_range _ _ Hok).
  pose proof (layout_lcols_range _ _ Hok).
  pose proof (lo_size _ _ Hok).
  assert (lrows_ this * lcols_ this <= Int.INT_MAX) by nia.
  rewrite elem_index_exact by done. split; [done|].
  rewrite Hlen. unfold cols_from.
  pose proof (cell_range (lrows_ this) (lcols_ this) j _ Hj Hl). lia.
Qed.

Lemma cols_to_spec k j :
  0 <= k < Z.of_nat (length Jc) → 0 <= j < lrows_ this →
  cols_dst k = g_pcol g →
  elem_index cols_tmp j (g2l0 k default_NB (g_npcols g)) = cols_to k j
  ∧ 0 <= cols_to k j
    < Z.of_nat (Z.to_nat (lrows_ this * cols_lct)).
Proof.
  intros Hk Hj Hd. pose proof cols_tmp_layout as Hok.
  pose proof (g2l0_local default_NB (g_npcols g) ltac:(done)
                (lo_npcols _ _ Hok) (Z.of_nat (length Jc)) k Hk) as Hl.
  fold (cols_dst k) in Hl. rewrite Hd in Hl. fold cols_lct in Hl.
  pose proof (layout_lrows_range _ _ (so_layout _ _ _ _ Hshare)) as Hlr.
  pose proof (lo_rows _ _ (so_layout _ _ _ _ Hshare)) as Hr.
  simpl in Hlr, Hr.
  assert (0 <= cols_lct <= Z.of_nat (length Jc))
    by (apply numroc_range;
        [done|apply (lo_npcols _ _ Hok)|apply (lo_pcol _ _ Hok)|lia]).
  assert (lrows_ this * cols_lct <= Int.INT_MAX).
  { etrans; [|apply Hfit]. apply Z.mul_le_mono_nonneg; lia. }
  rewrite elem_index_exact by done. split; [done|]. unfold cols_to.
  pose proof (cell_range (lrows_ this) cols_lct j _ Hj Hl). simpl. lia.
Qed.

Lemma cols_to_inj k j k' j' :
  0 <= k < Z.of_nat (length Jc) → 0 <= j < lrows_ this →
  cols_dst k = g_pcol g →
  0 <= k' < Z.of_nat (length Jc) → 0 <= j' < lrows_ this →
  cols_dst k' = g_pcol g →
  cols_to k j = cols_to k' j' → k = k' ∧ j = j'.
Proof.
  intros Hk Hj Hd Hk' Hj' Hd' Heq. pose proof cols_tmp_layout as Hok.
  pose proof (g2l0_local default_NB (g_npcols g) ltac:(done)
                (lo_npcols _ _ Hok) (Z.of_nat (length Jc)) k Hk) as Hl.
  pose proof (g2l0_local default_NB (g_npcols g) ltac:(done)
                (lo_npcols _ _ Hok) (Z.of_nat (length Jc)) k' Hk') as Hl'.
  destruct (cell_inj (lrows_ this) j (g2l0 k default_NB (g_npcols g))
              j' (g2l0 k' default_NB (g_npcols g))
              Hj Hj' ltac:(lia) ltac:(lia) Heq) as [-> Hg].
  split; [|done].
  apply (g2l0_inj default_NB (g_npcols g) ltac:(done) (lo_npcols _ _ Hok));
    [lia|lia| |done].
  fold (cols_dst k) (cols_dst k'). congruence.
Qed.

Lemma cols_owner_of k :
  0 <= k < Z.of_nat (length Jc) →
  colg2p this (Int.wrap (index_or_0 Jc k)) = Some (cols_own k).
Proof.
  intros Hk. destruct Hshare as [Hok _ HNB _ _ _]. simpl in *.
  pose proof (cols_index_range k Hk). pose proof (lo_cols _ _ Hok).
  rewrite Int.wrap_id by int_range.
  rewrite (colg2p_exact this g Hok) by lia. by rewrite HNB.
Qed.

Lemma cols_dest_of k :
  0 <= k < Z.of_nat (length Jc) →
  colg2p this (Int.wrap k) = Some (cols_dst k).
Proof.
  intros Hk. destruct Hshare as [Hok _ HNB _ _ _]. simpl in *.
  rewrite Int.wrap_id by int_range.
  rewrite (colg2p_exact this g Hok) by lia. by rewrite HNB.
Qed.

Lemma cols_local_of k :
  0 <= k < Z.of_nat (length Jc) →
  colg2l this (Int.wrap (index_or_0 Jc k))
    = Some (g2l0 (index_or_0 Jc k) default_NB (g_npcols g)).
Proof.
  intros Hk. destruct Hshare as [Hok _ HNB _ _ _]. simpl in *.
  pose proof (cols_index_range k Hk). pose proof (lo_cols _ _ Hok).
  rewrite Int.wrap_id by int_range.
  rewrite (colg2l_exact this g Hok) by lia. by rewrite HNB.
Qed.

Lemma cols_local_in_tmp k :
  0 <= k < Z.of_nat (length Jc) →
  colg2l cols_tmp (Int.wrap k) = Some (g2l0 k default_NB (g_npcols g)).
Proof.
  intros Hk. rewrite Int.wrap_id by int_range.
  by rewrite (colg2l_exact cols_tmp g cols_tmp_layout) by lia.
Qed.

(** The three loop bodies are those of the gather along the columns. *)
Lemma cols_count_eq k (s : list Z * list Z * heap scalar_t) :
  0 <= k < Z.of_nat (length Jc) →
  extract_cols_count this cols_tmp Jc (g_pcol g) k s
  = gather_count this cols_tmp (g_pcol g) (lrows_ this) cols_own cols_dst
      (λ _ j, j) (λ k _, g2l0 (index_or_0 Jc k) default_NB (g_npcols g))
      (λ _ j, j) (λ k _, g2l0 k default_NB (g_npcols g)) k s.
Proof.
  intros Hk. unfold extract_cols_count, gather_count, gather_copy.
  rewrite index_at_Some by done. simpl.
  rewrite cols_owner_of by done. simpl.
  destruct (decide (cols_own k ≠ g_pcol g)); [done|].
  rewrite cols_local_of by done. simpl.
  rewrite cols_dest_of by done. simpl.
  destruct (decide (cols_dst k = g_pcol g)); [|done].
  by rewrite cols_local_in_tmp by done.
Qed.

Lemma cols_send_eq (h' : heap scalar_t) k sb :
  0 <= k < Z.of_nat (length Jc) →
  extract_cols_send this Jc (g_pcol g) h' k sb
  = gather_send this (g_pcol g) (lrows_ this) cols_own cols_dst
      (λ _ j, j) (λ k _, g2l0 (index_or_0 Jc k) default_NB (g_npcols g))
      h' k sb.
Proof.
  intros Hk. unfold extract_cols_send, gather_send.
  rewrite index_at_Some by done. simpl.
  rewrite cols_owner_of by done. simpl.
  destruct (decide (cols_own k = g_pcol g)); [|done].
  rewrite cols_dest_of by done. simpl.
  destruct (decide (cols_dst k ≠ g_pcol g)); [|done].
  by rewrite cols_local_of by done.
Qed.

Lemma cols_place_eq (rbuf : list (list scalar_t)) k s :
  0 <= k < Z.of_nat (length Jc) →
  extract_cols_place this cols_tmp Jc (g_pcol g) rbuf k s
  = gather_place cols_tmp (g_pcol g) (lrows_ this) cols_own cols_dst
      (λ _ j, j) (λ k _, g2l0 k default_NB (g_npcols g)) rbuf k s.
Proof.
  intros Hk. unfold extract_cols_place, gather_place.
  rewrite index_at_Some by done. simpl.
  rewrite cols_owner_of by done. simpl.
  destruct (decide (cols_own k = g_pcol g)); [done|].
  rewrite cols_dest_of by done. simpl.
  destruct (decide (cols_dst k ≠ g_pcol g)); [done|].
  by rewrite cols_local_in_tmp by done.
Qed.

(** The cells of the column [Jc[k]] held by this worker. *)
Definition cols_line (k : Z) : list scalar_t :=
  lineA (lrows_ this) bufA cols_from k.

Lemma cols_fresh : a ≠ fresh (dom h).
Proof.
  intros Heq. apply (is_fresh (dom h)). rewrite <- Heq.
  apply elem_of_dom. exists bufA. apply (so_buf _ _ _ _ Hshare).
Qed.

Lemma cols_pack_spec :
  ∃ rs sb T1,
    extract_cols_pack this Jc h
      = Some (cols_tmp, Some (g_pcol g, rs, sb), <[fresh (dom h) := T1]> h)
    ∧ length rs = Z.to_nat (g_npcols g)
    ∧ (∀ o, 0 <= o < g_npcols g →
         rs !! Z.to_nat o
           = Some (lrows_ this
                   * count_below
                       (λ i, bool_decide (cols_own i = o ∧ o ≠ g_pcol g))
                       (Z.of_nat (length Jc))))
    ∧ length T1 = Z.to_nat (lrows_ this * cols_lct)
    ∧ (∀ k j, 0 <= k < Z.of_nat (length Jc) →
         cols_own k = g_pcol g → cols_dst k = g_pcol g →
         0 <= j < lrows_ this →
         T1 !! Z.to_nat (cols_to k j) = cols_line k !! Z.to_nat j)
    ∧ length sb = Z.to_nat (g_npcols g)
    ∧ (∀ d, 0 <= d < g_npcols g →
         sb !! Z.to_nat d
           = Some (lines_below
                     (λ i, bool_decide
                             (cols_own i = g_pcol g ∧ cols_dst i = d
                              ∧ d ≠ g_pcol g))
                     cols_line (Z.of_nat (length Jc)))).
Proof.
  pose proof (so_layout _ _ _ _ Hshare) as Hok. simpl in Hok.
  pose proof (layout_lrows_range _ _ Hok) as Hlr.
  pose proof (lo_rows _ _ Hok) as Hrows.
  pose proof (lo_npcols _ _ Hok) as Hnpc.
  pose proof (lo_pcol _ _ Hok) as Hpcol.
  assert (lrows_ this * Z.of_nat (length Jc) < 18446744073709551616) as Hsz.
  { unfold Int.INT_MAX in *. nia. }
  destruct (gather_count_loop this cols_tmp (Z.of_nat (length Jc))
              (g_npcols g) (g_pcol g) (lrows_ this) cols_own cols_dst
              (λ _ j, j)
              (λ k _, g2l0 (index_or_0 Jc k) default_NB (g_npcols g))
              (λ _ j, j) (λ k _, g2l0 k default_NB (g_npcols g))
              a (fresh (dom h)) bufA h
              (Z.to_nat (lrows_ this * cols_lct)) cols_from cols_to
              ltac:(lia) Hpcol ltac:(lia) Hsz
              (λ k _, cols_own_range k) (λ k _, cols_dst_range k)
              (so_data _ _ _ _ Hshare) eq_refl cols_fresh
              (so_buf _ _ _ _ Hshare)
              cols_from_spec cols_to_spec cols_to_inj
              (replicate (Z.to_nat (lrows_ this * cols_lct)) s_indet)
              ltac:(by rewrite length_replicate))
    as (rs & ss & T1 & Hcount & Hrs & Hrsv & HT1 & HT1v).
  destruct (gather_send_loop this (Z.of_nat (length Jc))
              (g_npcols g) (g_pcol g) (lrows_ this) cols_own cols_dst
              (λ _ j, j)
              (λ k _, g2l0 (index_or_0 Jc k) default_NB (g_npcols g))
              a (fresh (dom h)) bufA h cols_from
              ltac:(lia) Hpcol ltac:(lia)
              (λ k _, cols_dst_range k)
              (so_data _ _ _ _ Hshare) cols_fresh
              (so_buf _ _ _ _ Hshare)
              cols_from_spec (<[fresh (dom h) := T1]> h) T1 eq_refl)
    as (sb & Hsend & Hsb & Hsbv).
  exists rs, sb, T1. split; [|done].
  unfold extract_cols_pack.
  rewrite (bind_Some _ _ _ _ _ cols_new).
  rewrite (layout_active this g Hok). cbv [negb].
  rewrite (layout_I this g Hok), (layout_J this g Hok).
  erewrite bind_Some by reflexivity.
  rewrite (bind_Some _ _ _ _ _ (liftM_Some _ _ _ (layout_npcols this g Hok))).
  rewrite (bind_Some _ _ _ _ _ (liftM_Some _ _ _ (layout_pcol this g Hok))).
  rewrite bool_decide_true by lia.
  erewrite bind_Some by reflexivity.
  erewrite bind_Some by reflexivity.
  rewrite (for_range_ext _ _ _ _ _ (λ k s _, cols_count_eq k s ltac:(done))).
  rewrite (bind_Some _ _ _ _ _ (liftM_Some _ _ _ Hcount)).
  erewrite bind_Some by reflexivity.
  erewrite bind_Some by reflexivity. cbn [fst snd].
  rewrite (for_range_ext _ _ _ _ _
             (λ k s _, cols_send_eq (<[fresh (dom h) := T1]> h) k s
                         ltac:(done))).
  rewrite (bind_Some _ _ _ _ _ (liftM_Some _ _ _ Hsend)).
  reflexivity.
Qed.

Lemma cols_unpack_spec (rbuf : list (list scalar_t))
  (val : Z → list scalar_t) T1 :
  length T1 = Z.to_nat (lrows_ this * cols_lct) →
  length rbuf = Z.to_nat (g_npcols g) →
  (∀ k, 0 <= k < Z.of_nat (length Jc) →
     Z.of_nat (length (val k)) = lrows_ this) →
  (∀ o, 0 <= o < g_npcols g → o ≠ g_pcol g →
     ∃ pad, rbuf !! Z.to_nat o
              = Some (lines_below
                        (λ i, bool_decide (cols_own i = o
                                           ∧ cols_dst i = g_pcol g))
                        val (Z.of_nat (length Jc))
                      ++ pad)) →
  ∃ T2,
    extract_cols_unpack this cols_tmp Jc (g_pcol g) rbuf
      (<[fresh (dom h) := T1]> h)
      = Some (tt, <[fresh (dom h) := T2]> h)
    ∧ length T2 = Z.to_nat (lrows_ this * cols_lct)
    ∧ (∀ k j, 0 <= k < Z.of_nat (length Jc) →
         cols_own k ≠ g_pcol g → cols_dst k = g_pcol g →
         0 <= j < lrows_ this →
         T2 !! Z.to_nat (cols_to k j) = val k !! Z.to_nat j)
    ∧ (∀ k j, 0 <= k < Z.of_nat (length Jc) →
         cols_own k = g_pcol g → cols_dst k = g_pcol g →
         0 <= j < lrows_ this →
         T2 !! Z.to_nat (cols_to k j) = T1 !! Z.to_nat (cols_to k j)).
Proof.
  intros HT1 Hrb Hval Hin.
  pose proof (so_layout _ _ _ _ Hshare) as Hok. simpl in Hok.
  pose proof (layout_lrows_range _ _ Hok) as Hlr.
  pose proof (lo_rows _ _ Hok) as Hrows.
  pose proof (lo_npcols _ _ Hok) as Hnpc.
  pose proof (lo_pcol _ _ Hok) as Hpcol.
  assert (lrows_ this * Z.of_nat (length Jc) < 18446744073709551616) as Hsz.
  { unfold Int.INT_MAX in *. nia. }
  destruct (gather_place_loop cols_tmp (Z.of_nat (length Jc))
              (g_npcols g) (g_pcol g) (lrows_ this) cols_own cols_dst
              (λ _ j, j) (λ k _, g2l0 k default_NB (g_npcols g))
              a (fresh (dom h)) h
              (Z.to_nat (lrows_ this * cols_lct)) cols_to
              ltac:(lia) Hpcol ltac:(lia) Hsz
              (λ k _, cols_own_range k) eq_refl cols_fresh
              cols_to_spec cols_to_inj rbuf val T1 HT1 Hrb Hval Hin)
    as (cur & T2 & Hplace & HT2 & Hnew & Hold).
  exists T2. split; [|done].
  unfold extract_cols_unpack.
  erewrite bind_Some by reflexivity.
  rewrite (for_range_ext _ _ _ _ _
             (λ k s _, cols_place_eq rbuf k s ltac:(done))).
  rewrite (bind_Some _ _ _ _ _ (liftM_Some _ _ _ Hplace)).
  reflexivity.
Qed.

Lemma cols_line_length k : Z.of_nat (length (cols_line k)) = lrows_ this.
Proof.
  pose proof (layout_lrows_range _ _ (so_layout _ _ _ _ Hshare)) as Hlr.
  simpl in Hlr. unfold cols_line, lineA.
  rewrite length_fmap, length_seqZ. lia.
Qed.

Lemma cols_line_lookup k j :
  0 <= k < Z.of_nat (length Jc) → 0 <= j < lrows_ this →
  cols_own k = g_pcol g →
  cols_line k !! Z.to_nat j = bufA !! Z.to_nat (cols_from k j).
Proof.
  intros Hk Hj Ho. unfold cols_line, lineA. rewrite list_lookup_fmap.
  rewrite lookup_seqZ_lt by lia. rewrite Z2Nat.id, Z.add_0_l by lia. simpl.
  destruct (cols_from_spec k j Hk Hj Ho) as [_ Hr].
  destruct (lookup_lt_is_Some_2 bufA (Z.to_nat (cols_from k j))) as [v Hv];
    [lia|].
  by rewrite Hv.
Qed.

Lemma cols_result_share T2 :
  length T2 = Z.to_nat (lrows_ this * cols_lct) →
  share_ok (cols_tmp, <[fresh (dom h) := T2]> h) g (fresh (dom h)) T2.
Proof.
  intros HT2. split; simpl; try done.
  - apply cols_tmp_layout.
  - apply lookup_insert_eq.
Qed.
End cols_worker.

Section cols_grid.
Context {scalar_t : Type} `{!Scalar scalar_t}.
Variables (npr npc : Z) (W : Z → Z → DistributedMatrix * heap scalar_t).
Variables (G : Z → Z → BLACSGrid) (A : Z → Z → addr).
Variables (buf : Z → Z → list scalar_t) (M N : Z) (Jc : list Z).
Hypothesis Hspread : spread_ok npr npc W G A buf M N.
Hypothesis HJc : Forall (λ gc, 0 <= gc < N) Jc.
Hypothesis Hfit : M * Z.of_nat (length Jc) <= Int.INT_MAX.
Hypothesis Hshort : Z.of_nat (length Jc) < Int.INT_MAX.

(** The owner of the column [Jc[k]] and the owner of the column [k] of
    the result; the local height on the process row [p]. *)
Definition col_owner (k : Z) : Z := g2p0 (index_or_0 Jc k) default_NB npc.
Definition col_dest (k : Z) : Z := g2p0 k default_NB npc.
Definition height (p : Z) : Z := numroc M default_MB p 0 npr.

Lemma cols_grid_lrows p q :
  0 <= p < npr → 0 <= q < npc → lrows_ (W p q).1 = height p.
Proof.
  intros Hp Hq. pose proof (sp_share _ _ _ _ _ _ _ _ Hspread p q Hp Hq) as Hs.
  rewrite (lo_lrows _ _ (so_layout _ _ _ _ Hs)), (so_MB _ _ _ _ Hs).
  rewrite (sp_rows _ _ _ _ _ _ _ _ Hspread p q Hp Hq).
  rewrite (sp_grid_prow _ _ _ _ _ _ _ _ Hspread p q Hp Hq).
  by rewrite (sp_grid_nprows _ _ _ _ _ _ _ _ Hspread p q Hp Hq).
Qed.

Lemma col_owner_range k : 0 <= col_owner k < npc.
Proof. apply g2p0_range. apply (sp_npcols _ _ _ _ _ _ _ _ Hspread). Qed.

Lemma col_dest_range k : 0 <= col_dest k < npc.
Proof. apply g2p0_range. apply (sp_npcols _ _ _ _ _ _ _ _ Hspread). Qed.

(** What the worker at [(p, q)] packs. *)
Lemma cols_grid_pack p q :
  0 <= p < npr → 0 <= q < npc →
  ∃ rs sb T1,
    extract_cols_pack (W p q).1 Jc (W p q).2
      = Some (cols_tmp (W p q).1 (W p q).2 (G p q) Jc, Some (q, rs, sb),
              <[fresh (dom (W p q).2) := T1]> (W p q).2)
    ∧ length rs = Z.to_nat npc
    ∧ (∀ o, 0 <= o < npc →
         rs !! Z.to_nat o
           = Some (height p
                   * count_below
                       (λ i, bool_decide (col_owner i = o ∧ o ≠ q))
                       (Z.of_nat (length Jc))))
    ∧ length T1 = Z.to_nat (height p * cols_lct (G p q) Jc)
    ∧ (∀ k j, 0 <= k < Z.of_nat (length Jc) →
         col_owner k = q → col_dest k = q → 0 <= j < height p →
         T1 !! Z.to_nat (cols_to (W p q).1 (G p q) k j)
           = buf p q !! Z.to_nat (cols_from (W p q).1 (G p q) Jc k j))
    ∧ length sb = Z.to_nat npc
    ∧ (∀ d, 0 <= d < npc →
         sb !! Z.to_nat d
           = Some (lines_below
                     (λ i, bool_decide (col_owner i = q ∧ col_dest i = d
                                        ∧ d ≠ q))
                     (cols_line (W p q).1 (G p q) (buf p q) Jc)
                     (Z.of_nat (length Jc)))).
Proof.
  intros Hp Hq.
  pose proof (share_ok_eta _ _ _ _
                (sp_share _ _ _ _ _ _ _ _ Hspread p q Hp Hq)) as Hs.
  pose proof (sp_rows _ _ _ _ _ _ _ _ Hspread p q Hp Hq) as Hrows.
  pose proof (sp_cols _ _ _ _ _ _ _ _ Hspread p q Hp Hq) as Hcols.
  pose proof (sp_grid_npcols _ _ _ _ _ _ _ _ Hspread p q Hp Hq) as Hgn.
  pose proof (sp_grid_pcol _ _ _ _ _ _ _ _ Hspread p q Hp Hq) as Hgp.
  pose proof (cols_grid_lrows p q Hp Hq) as Hw.
  destruct (cols_pack_spec (W p q).1 (W p q).2 (G p q) (A p q) (buf p q) Jc
              Hs ltac:(by rewrite Hcols) ltac:(by rewrite Hrows) Hshort)
    as (rs & sb & T1 & Hpack & Hrs & Hrsv & HT1 & HT1v & Hsb & Hsbv).
  unfold cols_own, cols_dst in *. rewrite Hgn, Hgp, Hw in *.
  exists rs, sb, T1. do 4 (split; [done|]). split; [|done].
  intros k j Hk Ho Hd Hj. rewrite (HT1v k j Hk Ho Hd Hj).
  apply (cols_line_lookup (W p q).1 (W p q).2 (G p q) (A p q) (buf p q) Jc
           Hs ltac:(by rewrite Hcols)); unfold cols_own;
    rewrite ?Hgn, ?Hgp, ?Hw; done.
Qed.

(** The result on the worker at [(p, q)]: every column of the result it
    holds has the cells of the column [Jc[k]] that the owner of that
    column holds on the same process row. *)
Lemma cols_grid_result p q :
  0 <= p < npr → 0 <= q < npc →
  ∃ T2,
    extract_cols W Jc p q
      = Some (cols_tmp (W p q).1 (W p q).2 (G p q) Jc,
              <[fresh (dom (W p q).2) := T2]> (W p q).2)
    ∧ length T2 = Z.to_nat (height p * cols_lct (G p q) Jc)
    ∧ (∀ k j, 0 <= k < Z.of_nat (length Jc) → col_dest k = q →
         0 <= j < height p →
         T2 !! Z.to_nat (cols_to (W p q).1 (G p q) k j)
           = buf p (col_owner k)
               !! Z.to_nat (cols_from (W p (col_owner k)).1
                              (G p (col_owner k)) Jc k j)).
Proof.
  intros Hp Hq.
  pose proof (share_ok_eta _ _ _ _
                (sp_share _ _ _ _ _ _ _ _ Hspread p q Hp Hq)) as Hs.
  pose proof (sp_rows _ _ _ _ _ _ _ _ Hspread p q Hp Hq) as Hrows.
  pose proof (sp_cols _ _ _ _ _ _ _ _ Hspread p q Hp Hq) as Hcols.
  pose proof (sp_grid_npcols _ _ _ _ _ _ _ _ Hspread p q Hp Hq) as Hgn.
  pose proof (sp_grid_pcol _ _ _ _ _ _ _ _ Hspread p q Hp Hq) as Hgp.
  pose proof (cols_grid_lrows p q Hp Hq) as Hw.
  assert (0 <= height p) as Hhp.
  { rewrite <- Hw.
    apply (layout_lrows_range _ _ (so_layout _ _ _ _ Hs)). }
  destruct (cols_grid_pack p q Hp Hq)
    as (rs & sb & T1 & Hpack & Hrs & Hrsv & HT1 & HT1v & _ & _).
  set (lines := λ o k, cols_line (W p o).1 (G p o) (buf p o) Jc k).
  assert (∀ k, 0 <= k < Z.of_nat (length Jc) →
            Z.of_nat (length (lines (col_owner k) k)) = height p) as Hlines.
  { intros k Hk. pose proof (col_owner_range k) as Ho.
    unfold lines.
    rewrite (cols_line_length _ _ _ _ _ _
               (share_ok_eta _ _ _ _
                  (sp_share _ _ _ _ _ _ _ _ Hspread p _ Hp Ho))).
    by apply cols_grid_lrows. }
  destruct (exchange_spec (Z.of_nat (length Jc)) npc q (height p)
              col_owner col_dest lines rs
              (λ o, fst <$> extract_cols_pack (W p o).1 Jc (W p o).2)
              ltac:(lia) Hq Hhp Hlines Hrs Hrsv)
    as (rbuf & Hex & Hrb & Hrbv).
  { intros o Ho Hne.
    destruct (cols_grid_pack p o Hp Ho)
      as (rs' & sb' & T1' & Hpack' & _ & _ & _ & _ & _ & Hsbv').
    rewrite Hpack'. simpl. do 4 eexists. split; [done|].
    by rewrite (Hsbv' q Hq). }
  pose proof (cols_unpack_spec (W p q).1 (W p q).2 (G p q) (A p q) (buf p q)
                Jc Hs ltac:(by rewrite Hcols) ltac:(by rewrite Hrows) Hshort
                rbuf (λ k, lines (col_owner k) k) T1) as Hun.
  unfold cols_own, cols_dst in Hun. rewrite Hgn, Hgp, Hw in Hun.
  destruct (Hun HT1 Hrb Hlines Hrbv) as (T2 & Hunpack & HT2 & Hnew & Hold).
  exists T2. split; [|split; [done|]].
  - unfold extract_cols. rewrite Hpack. simpl. rewrite Hex. simpl.
    by rewrite Hunpack.
  - intros k j Hk Hd Hj.
    destruct (decide (col_owner k = q)) as [Ho|Ho].
    + rewrite (Hold k j Hk Ho Hd Hj), (HT1v k j Hk Ho Hd Hj). by rewrite Ho.
    + rewrite (Hnew k j Hk Ho Hd Hj). unfold lines.
      pose proof (col_owner_range k) as Hor.
      pose proof (sp_grid_npcols _ _ _ _ _ _ _ _ Hspread p _ Hp Hor) as Hgn'.
      pose proof (sp_grid_pcol _ _ _ _ _ _ _ _ Hspread p _ Hp Hor) as Hgp'.
      apply (cols_line_lookup _ _ _ _ _ _
               (share_ok_eta _ _ _ _
                  (sp_share _ _ _ _ _ _ _ _ Hspread p _ Hp Hor)));
        unfold cols_own;
        rewrite ?(sp_rows _ _ _ _ _ _ _ _ Hspread p _ Hp Hor),
          ?(sp_cols _ _ _ _ _ _ _ _ Hspread p _ Hp Hor),
          ?(cols_grid_lrows p _ Hp Hor), ?Hgn', ?Hgp'; done.
Qed.

(** Column [i] of the result is column [Jc[i]] of the matrix. *)
Lemma cols_grid_entry r i :
  0 <= r < M → 0 <= i < Z.of_nat (length Jc) →
  ∃ v, global_entry (λ p q, Some (W p q)) r (index_or_0 Jc i) = Some v
       ∧ global_entry (extract_cols W Jc) r i = Some v.
Proof.
  intros Hr Hi.
  pose proof (sp_nprows _ _ _ _ _ _ _ _ Hspread) as Hnpr.
  pose proof (sp_npcols _ _ _ _ _ _ _ _ Hspread) as Hnpc.
  pose proof (index_or_0_Forall _ Jc i HJc Hi) as Hgc. simpl in Hgc.
  pose proof (col_owner_range i) as Ho. pose proof (col_dest_range i) as Hd.
  assert (0 <= g2p0 r default_MB npr < npr) as Hp
    by (apply g2p0_range; (done || lia)).
  set (p := g2p0 r default_MB npr) in *.
  assert (0 <= (0:Z) < npr) as H0r by lia.
  assert (0 <= (0:Z) < npc) as H0c by lia.
  pose proof (sp_share _ _ _ _ _ _ _ _ Hspread 0 0 H0r H0c) as Hs0.
  pose proof (lo_rows _ _ (so_layout _ _ _ _ Hs0)) as HM.
  pose proof (lo_cols _ _ (so_layout _ _ _ _ Hs0)) as HN.
  rewrite (sp_rows _ _ _ _ _ _ _ _ Hspread 0 0 H0r H0c) in HM.
  rewrite (sp_cols _ _ _ _ _ _ _ _ Hspread 0 0 H0r H0c) in HN.
  (* the entry of the matrix *)
  pose proof (share_ok_eta _ _ _ _
                (sp_share _ _ _ _ _ _ _ _ Hspread p _ Hp Ho)) as Hso.
  destruct (global_share _ _ _ _ _ r (index_or_0 Jc i) Hso)
    as (v & Hv & Hgl).
  { simpl. by rewrite (sp_rows _ _ _ _ _ _ _ _ Hspread p _ Hp Ho). }
  { simpl. by rewrite (sp_cols _ _ _ _ _ _ _ _ Hspread p _ Hp Ho). }
  { rewrite (sp_grid_nprows _ _ _ _ _ _ _ _ Hspread p _ Hp Ho).
    by rewrite (sp_grid_prow _ _ _ _ _ _ _ _ Hspread p _ Hp Ho). }
  { rewrite (sp_grid_npcols _ _ _ _ _ _ _ _ Hspread p _ Hp Ho).
    by rewrite (sp_grid_pcol _ _ _ _ _ _ _ _ Hspread p _ Hp Ho). }
  exists v. split.
  { unfold global_entry. simpl.
    rewrite (rows_grid_owner _ _ _ _ _ _ _ _ Hspread 0 0) by (done || lia).
    rewrite (cols_grid_owner _ _ _ _ _ _ _ _ Hspread 0 0) by (done || lia).
    simpl. fold (col_owner i). fold p. by rewrite Hgl. }
  (* the entry of the result *)
  destruct (cols_grid_result 0 0 H0r H0c) as (T0 & Hres0 & HT0 & _).
  destruct (cols_grid_result p _ Hp Hd) as (T2 & Hres & HT2 & HT2v).
  pose proof (share_ok_eta _ _ _ _ Hs0) as Hs0'.
  pose proof (share_ok_eta _ _ _ _
                (sp_share _ _ _ _ _ _ _ _ Hspread p _ Hp Hd)) as Hsd.
  assert (rows (W 0 0).1 * Z.of_nat (length Jc) <= Int.INT_MAX) as Hfit0
    by (by rewrite (sp_rows _ _ _ _ _ _ _ _ Hspread 0 0 H0r H0c)).
  assert (rows (W p (col_dest i)).1 * Z.of_nat (length Jc) <= Int.INT_MAX)
    as Hfitd by (by rewrite (sp_rows _ _ _ _ _ _ _ _ Hspread p _ Hp Hd)).
  rewrite <- (cols_grid_lrows 0 0 H0r H0c) in HT0.
  rewrite <- (cols_grid_lrows p _ Hp Hd) in HT2.
  assert (share_ok (cols_tmp (W 0 0).1 (W 0 0).2 (G 0 0) Jc,
                    <[fresh (dom (W 0 0).2) := T0]> (W 0 0).2)
            (G 0 0) (fresh (dom (W 0 0).2)) T0) as Hr0
    by (eapply cols_result_share; eassumption).
  assert (share_ok (cols_tmp (W p (col_dest i)).1 (W p (col_dest i)).2
                      (G p (col_dest i)) Jc,
                    <[fresh (dom (W p (col_dest i)).2) := T2]>
                      (W p (col_dest i)).2)
            (G p (col_dest i)) (fresh (dom (W p (col_dest i)).2)) T2) as Hrd
    by (eapply cols_result_share; eassumption).
  pose proof (sp_grid_nprows _ _ _ _ _ _ _ _ Hspread p _ Hp Hd) as Hgn.
  pose proof (sp_grid_npcols _ _ _ _ _ _ _ _ Hspread p _ Hp Hd) as Hgm.
  pose proof (sp_grid_prow _ _ _ _ _ _ _ _ Hspread p _ Hp Hd) as Hgp.
  pose proof (sp_grid_pcol _ _ _ _ _ _ _ _ Hspread p _ Hp Hd) as Hgq.
  destruct (global_share _ _ _ _ _ r i Hrd) as (v' & Hv' & Hgl').
  { change (0 <= r < rows (W p (col_dest i)).1).
    by rewrite (sp_rows _ _ _ _ _ _ _ _ Hspread p _ Hp Hd). }
  { done. }
  { by rewrite Hgn, Hgp. }
  { by rewrite Hgm, Hgq. }
  assert (0 <= g2l0 r default_MB npr < height p) as Hj
    by (apply g2l0_local; (done || lia)).
  change (T2 !! Z.to_nat (cols_to (W p (col_dest i)).1 (G p (col_dest i)) i
                            (g2l0 r default_MB
                               (g_nprows (G p (col_dest i)))))
          = Some v') in Hv'.
  rewrite Hgn in Hv'. rewrite (HT2v i _ Hi eq_refl Hj) in Hv'.
  unfold cols_from in Hv'.
  rewrite (sp_grid_nprows _ _ _ _ _ _ _ _ Hspread p _ Hp Ho) in Hv.
  assert (v' = v) as -> by congruence.
  assert (rowg2p (cols_tmp (W 0 0).1 (W 0 0).2 (G 0 0) Jc) r = Some p)
    as Hpr.
  { unfold p.
    rewrite <- (sp_grid_nprows _ _ _ _ _ _ _ _ Hspread 0 0 H0r H0c).
    apply (share_rowg2p _ _ _ _ r Hr0). lia. }
  assert (colg2p (cols_tmp (W 0 0).1 (W 0 0).2 (G 0 0) Jc) i
          = Some (col_dest i)) as Hpc.
  { unfold col_dest.
    rewrite <- (sp_grid_npcols _ _ _ _ _ _ _ _ Hspread 0 0 H0r H0c).
    apply (share_colg2p _ _ _ _ i Hr0). lia. }
  unfold global_entry. rewrite Hres0. simpl. rewrite Hpr, Hpc. simpl.
  rewrite Hres. simpl. by rewrite Hgl'.
Qed.
End cols_grid.

(** ** Extraction: the result *)


(** Every matrix spread by [distribute] at the default block sizes is
    such a matrix. *)
Lemma length_bind_const {X Y} (g : X → list Y) (l : list X) (n : nat) :
  (∀ x, length (g x) = n) → length (l ≫= g) = (length l * n)%nat.
Proof.
  intros Hg. induction l as [|x l IH]; [done|].
  rewrite bind_cons, length_app, Hg, IH. simpl. lia.
Qed.

Lemma distribute_spread {T} (npr npc M N : Z) (f : Z → Z → T) :
  1 <= npr → 1 <= npc →
  npr * default_MB <= Int.INT_MAX → npc * default_NB <= Int.INT_MAX →
  0 <= M < Int.INT_MAX → 0 <= N < Int.INT_MAX → M * N <= Int.INT_MAX →
  spread_ok npr npc (distribute npr npc default_MB default_NB M N f)
    (grid_at npr npc) (λ _ _, 1%positive)
    (local_cells npr npc default_MB default_NB M N f) M N.
Proof.
  intros Hnpr Hnpc Hrb Hcb HM HN Hsz.
  split; try done.
  intros p q Hp Hq. split.
  - split; try done; simpl; unfold default_MB, default_NB in *; try lia.
  - done.
  - done.
  - done.
  - apply lookup_singleton_eq.
  - simpl. unfold local_cells.
    pose proof (numroc_range M default_MB p npr ltac:(done) Hnpr Hp
                  ltac:(lia)) as Hlr.
    pose proof (numroc_range N default_NB q npc ltac:(done) Hnpc Hq
                  ltac:(lia)) as Hlc.
    rewrite (length_bind_const _ _
               (Z.to_nat (numroc M default_MB p 0 npr))).
    + rewrite length_seqZ. lia.
    + intros c. rewrite (length_bind_const _ _ 1%nat) by done.
      rewrite length_seqZ. lia.
Qed.

(** A matrix of 40 by 35 with the entry [100 r + c] at [(r, c)], on a
    grid of 2 by 2 workers at the default block sizes. *)
Definition spread_40x35 : Z → Z → DistributedMatrix * heap Z :=
  distribute 2 2 default_MB default_NB 40 35 (λ r c, 100 * r + c).


(** The example of a matrix of 7 by 5 on a grid of 2 by 2 workers with
    blocks of 2 by 2, the entry [10 r + c] at [(r, c)]. *)
Definition blocks_of_2 : Z → Z → DistributedMatrix * heap Z :=
  distribute 2 2 2 2 7 5 (λ r c, 10 * r + c).

(** C2 (code): on that matrix the result of [extract_rows([3, 3, 0, 4])]
    and of [extract_cols([3, 3, 0, 4])] is not the rows (columns) asked
    for.  The result is made by the constructor without block sizes
    (lines 875 and 946), so at the default block sizes, while the worker
    a row (column) goes to and the number of entries placed come from
    the matrix itself, at its own block sizes (lines 887 and 959);
    nothing in the two functions tests that the matrix is at the default
    block sizes.  Entry [(0, 2)] of the rows extracted is entry [(3, 4)]
    of the matrix instead of entry [(3, 2)], entry [(2, 0)] of the
    columns extracted is entry [(4, 3)] instead of entry [(2, 3)], and
    the workers off the first row (column) of the grid write outside
    their share of the result. *)
Lemma extract_blocks_of_2 :
  ¬ (∀ (i : nat) (r c : Z), [3; 3; 0; 4] !! i = Some r → 0 <= c < 5 →
       global_entry (extract_rows blocks_of_2 [3; 3; 0; 4]) (Z.of_nat i) c
       = global_entry (λ p q, Some (blocks_of_2 p q)) r c)
  ∧ ¬ (∀ (i : nat) (r c : Z), [3; 3; 0; 4] !! i = Some c → 0 <= r < 7 →
         global_entry (extract_cols blocks_of_2 [3; 3; 0; 4]) r (Z.of_nat i)
         = global_entry (λ p q, Some (blocks_of_2 p q)) r c)
  ∧ global_entry (λ p q, Some (blocks_of_2 p q)) 3 2 = Some 32
  ∧ global_entry (extract_rows blocks_of_2 [3; 3; 0; 4]) 0 2 = Some 34
  ∧ global_entry (λ p q, Some (blocks_of_2 p q)) 2 3 = Some 23
  ∧ global_entry (extract_cols blocks_of_2 [3; 3; 0; 4]) 2 0 = Some 43
  ∧ extract_rows blocks_of_2 [3; 3; 0; 4] 1 0 = None
  ∧ extract_cols blocks_of_2 [3; 3; 0; 4] 0 1 = None.
Proof.
  split; [|split].
  - intros H. specialize (H 0%nat 3 2 eq_refl ltac:(lia)).
    vm_compute in H. discriminate.
  - intros H. specialize (H 0%nat 2 3 eq_refl ltac:(lia)).
    vm_compute in H. discriminate.
  - vm_compute. done.
Qed.

(** * Further properties of the code

    The rest of the file covers code beside the places above: the index
    mappings the other way round, the element accessors, the life cycle
    of the buffers, the fills, the element-wise sum and the resizing. *)

(** ** Index mappings (lines 45-54) *)

Section index_order.
Variables (B N : Z).
Hypothesis HB : 1 <= B.
Hypothesis HN : 1 <= N.

(** On one process the global indices come in the order of the local
    ones. *)
Lemma l2g_lt l l' p : 1 <= l < l' → l2g l B p N < l2g l' B p N.
Proof.
  intros Hl. unfold l2g.
  pose proof (Z.div_mod (l - 1) B ltac:(lia)) as H1.
  pose proof (Z.div_mod (l' - 1) B ltac:(lia)) as H2.
  pose proof (Z.mod_pos_bound (l - 1) B ltac:(lia)) as H3.
  pose proof (Z.mod_pos_bound (l' - 1) B ltac:(lia)) as H4.
  pose proof (Z.div_le_mono (l - 1) (l' - 1) B ltac:(lia) ltac:(lia)) as H5.
  set (a := (l - 1) `div` B) in *. set (a' := (l' - 1) `div` B) in *.
  set (b := (l - 1) `mod` B) in *. set (b' := (l' - 1) `mod` B) in *.
  clearbody a a' b b'.
  destruct (decide (a = a')) as [->|Hne]; [lia|].
  assert (a + 1 <= a') as Hlt by lia.
  assert (N * B * (a + 1) <= N * B * a') by (apply Z.mul_le_mono_nonneg_l; nia).
  nia.
Qed.
End index_order.

(** X1. Every global index [g >= 1] has an owner [p] in [0, N) and a
    local index [l >= 1] there, given by [indxg2p] and [indxg2l]
    whatever process asks, and [indxl2g] maps [l] on [p] back to [g]
    (source process 0, the values inside [int]). *)
Theorem index_global_round_trip (B N g q : Z) :
  1 <= B → 1 <= N → N * B <= Int.INT_MAX → 2 * N <= Int.INT_MAX →
  1 <= g <= Int.INT_MAX →
  ∃ l p, indxg2l g B q 0 N = Some l ∧ indxg2p g B q 0 N = Some p
         ∧ 1 <= l <= g ∧ 0 <= p < N
         ∧ indxl2g l B p 0 N = Some g.
Proof.
  intros HB HN HNB H2N Hg.
  exists (g2l g B N), (g2p g B N).
  pose proof (g2l_lower B N HB HN g ltac:(lia)) as Hl.
  pose proof (g2p_range B N HN g) as Hp.
  pose proof (l2g_g2l B N HB HN g ltac:(lia)) as Hlg.
  pose proof (l2g_lower B N HB HN (g2l g B N) (g2p g B N) Hl ltac:(lia)).
  split; [by apply indxg2l_exact|].
  split; [by apply indxg2p_exact|].
  split; [lia|]. split; [done|].
  rewrite indxl2g_exact by lia. by rewrite Hlg.
Qed.

Lemma index_global_round_trip_witness :
  ∃ l p, indxg2l 12 2 0 0 3 = Some l ∧ indxg2p 12 2 0 0 3 = Some p
         ∧ 1 <= l <= 12 ∧ 0 <= p < 3
         ∧ indxl2g l 2 p 0 3 = Some 12.
Proof.
  apply (index_global_round_trip 2 3 12 0); unfold Int.INT_MAX; lia.
Defined.

(** X2. On one process [indxl2g] is strictly increasing: the local order
    of the indices of a process is their global order. *)
Theorem indxl2g_increasing (B N p l l' : Z) :
  1 <= B → 1 <= N → 0 <= p < N → 1 <= l < l' →
  N * B <= Int.INT_MAX → N + p <= Int.INT_MAX →
  l2g l' B p N <= Int.INT_MAX →
  ∃ g g', indxl2g l B p 0 N = Some g ∧ indxl2g l' B p 0 N = Some g'
          ∧ g < g'.
Proof.
  intros HB HN Hp Hl HNB HNp Hg'.
  pose proof (l2g_lt B N HB HN l l' p Hl) as Hlt.
  exists (l2g l B p N), (l2g l' B p N).
  split; [apply indxl2g_exact; lia|].
  split; [apply indxl2g_exact; lia|done].
Qed.

Lemma indxl2g_increasing_witness :
  ∃ g g', indxl2g 2 2 1 0 3 = Some g ∧ indxl2g 3 2 1 0 3 = Some g'
          ∧ g < g'.
Proof.
  apply (indxl2g_increasing 2 3 1 2 3); unfold Int.INT_MAX; try lia.
  vm_compute. discriminate.
Defined.

(** ** Local and global positions of an element (lines 126-176) *)

(** [rank(r, c)] (lines 138-139) and [rank_fixed(r, c)]
    (lines 163-164). *)
Definition rank (m : DistributedMatrix) (r c : Z) : option Z :=
  pr ← rowg2p m r; pc ← colg2p m c; n ← nprows m;
  Some (Int.add pr (Int.mul pc n)).
Definition rank_fixed (m : DistributedMatrix) (r c : Z) : option Z :=
  _ ← grid_ m; guard (fixed m = true);;
  pr ← rowg2p_fixed m r; pc ← colg2p_fixed m c; n ← nprows m;
  Some (Int.add pr (Int.mul pc n)).

Lemma g2l0_l2g0 B N l p :
  1 <= B → 1 <= N → 0 <= l → 0 <= p < N → g2l0 (l2g0 l B p N) B N = l.
Proof.
  intros HB HN Hl Hp. unfold g2l0, l2g0.
  replace (l2g (l + 1) B p N - 1 + 1) with (l2g (l + 1) B p N) by lia.
  rewrite g2l_l2g by lia. lia.
Qed.

Lemma g2p0_l2g0 B N l p :
  1 <= B → 1 <= N → 0 <= l → 0 <= p < N → g2p0 (l2g0 l B p N) B N = p.
Proof.
  intros HB HN Hl Hp. unfold g2p0, l2g0.
  replace (l2g (l + 1) B p N - 1 + 1) with (l2g (l + 1) B p N) by lia.
  by rewrite g2p_l2g by lia.
Qed.

Section element_positions.
Context {scalar_t : Type}.
Variables (m : DistributedMatrix) (g : BLACSGrid).
Hypothesis Hok : layout_ok m g.


End element_positions.

(** The shares that [distribute] makes have the layout, at any block
    sizes. *)
Lemma distribute_layout {T} (npr npc MB NB M N p q : Z) (f : Z → Z → T) :
  1 <= npr → 1 <= npc → 0 <= p < npr → 0 <= q < npc →
  1 <= MB → 1 <= NB →
  npr * MB <= Int.INT_MAX → npc * NB <= Int.INT_MAX →
  2 * npr <= Int.INT_MAX → 2 * npc <= Int.INT_MAX →
  0 <= M < Int.INT_MAX → 0 <= N < Int.INT_MAX → M * N <= Int.INT_MAX →
  layout_ok (distribute npr npc MB NB M N f p q).1 (grid_at npr npc p q).
Proof. intros. split; simpl; try done; lia. Qed.

(** The worker at [(1, 0)] of the 7 by 5 matrix on 2 by 2 workers with
    blocks of 2 by 2. *)
Lemma blocks_of_2_layout : layout_ok (blocks_of_2 1 0).1 (grid_at 2 2 1 0).
Proof. apply distribute_layout; unfold Int.INT_MAX; lia. Qed.



(** [rowl2g_fixed] and [coll2g_fixed] (lines 145-150). *)
Definition rowl2g_fixed (m : DistributedMatrix) (row : Z) : option Z :=
  _ ← grid_ m; guard (fixed m = true);;
  p ← prow m; n ← nprows m;
  g ← indxl2g (Int.add row 1) default_MB p 0 n; Some (Int.sub g (I m)).
Definition coll2g_fixed (m : DistributedMatrix) (col : Z) : option Z :=
  _ ← grid_ m; guard (fixed m = true);;
  p ← pcol m; n ← npcols m;
  g ← indxl2g (Int.add col 1) default_NB p 0 n; Some (Int.sub g (J m)).

Lemma fixed_blocks m :
  fixed m = true → MB m = default_MB ∧ NB m = default_NB.
Proof.
  unfold fixed. rewrite andb_true_iff, !bool_decide_eq_true. done.
Qed.

(** X5. The [_fixed] accessors are the general ones on a matrix at the
    default block sizes, and an assertion failure on any other matrix:
    when [fixed()] holds each of them returns what its general
    counterpart returns, for every argument and also where that one
    fails; when it does not hold each of them fails. *)
Theorem fixed_accessors_agree {scalar_t : Type}
  (m : DistributedMatrix) (r c : Z) (h : heap scalar_t) :
  (fixed m = true →
     rowl2g_fixed m r = rowl2g m r ∧ coll2g_fixed m c = coll2g m c
     ∧ rowg2l_fixed m r = rowg2l m r ∧ colg2l_fixed m c = colg2l m c
     ∧ rowg2p_fixed m r = rowg2p m r ∧ colg2p_fixed m c = colg2p m c
     ∧ rank_fixed m r c = rank m r c
     ∧ is_local_fixed m r c = is_local m r c
     ∧ global_fixed m r c h = global m r c h)
  ∧ (fixed m = false →
       rowl2g_fixed m r = None ∧ coll2g_fixed m c = None
       ∧ rowg2l_fixed m r = None ∧ colg2l_fixed m c = None
       ∧ rowg2p_fixed m r = None ∧ colg2p_fixed m c = None
       ∧ rank_fixed m r c = None
       ∧ is_local_fixed m r c = None
       ∧ global_fixed m r c h = None).
Proof.
  split.
  - intros Hf. destruct (fixed_blocks m Hf) as [HMB HNB].
    assert (rowg2l_fixed m r = rowg2l m r) as Hrl.
    { unfold rowg2l_fixed, rowg2l, prow. rewrite Hf, HMB.
      by destruct (grid_ m). }
    assert (colg2l_fixed m c = colg2l m c) as Hcl.
    { unfold colg2l_fixed, colg2l, pcol. rewrite Hf, HNB.
      by destruct (grid_ m). }
    assert (rowg2p_fixed m r = rowg2p m r) as Hrp.
    { unfold rowg2p_fixed, rowg2p, prow. rewrite Hf, HMB.
      by destruct (grid_ m). }
    assert (colg2p_fixed m c = colg2p m c) as Hcp.
    { unfold colg2p_fixed, colg2p, pcol. rewrite Hf, HNB.
      by destruct (grid_ m). }
    split.
    { unfold rowl2g_fixed, rowl2g, prow. rewrite Hf, HMB.
      by destruct (grid_ m). }
    split.
    { unfold coll2g_fixed, coll2g, pcol. rewrite Hf, HNB.
      by destruct (grid_ m). }
    do 4 (split; [done|]).
    split.
    { unfold rank_fixed, rank. rewrite Hf, Hrp, Hcp.
      destruct (grid_ m) eqn:Hg; [done|].
      unfold rowg2p, prow. by rewrite Hg. }
    assert (is_local_fixed m r c = is_local m r c) as Hloc.
    { unfold is_local_fixed, is_local. rewrite Hf, Hrp, Hcp.
      destruct (grid_ m) eqn:Hg; [done|].
      unfold rowg2p, prow. by rewrite Hg. }
    split; [done|].
    unfold global_fixed, global. rewrite Hf, Hrl, Hcl.
    unfold mbind, Cmd_bind, liftM, assertM.
    destruct (is_local m r c) as [[|]|]; simpl; try done.
  - intros Hf.
    unfold rowl2g_fixed, coll2g_fixed, rowg2l_fixed, colg2l_fixed,
      rowg2p_fixed, colg2p_fixed, rank_fixed, is_local_fixed, global_fixed.
    rewrite Hf.
    repeat split; try (by destruct (grid_ m)).
    unfold mbind, Cmd_bind, liftM, assertM.
    destruct (is_local m r c) as [[|]|]; simpl; try done.
Qed.

(** ** Copies of a matrix (lines 630-636 and 696-708) *)

Section copies.
Context {scalar_t : Type} `{!Scalar scalar_t}.

(** [std::copy(src, src + n, dst)] cell by cell: the first [n] cells of
    the destination become those of the source. *)
Lemma copy_cells (src dst : addr) (h : heap scalar_t)
  (bufs bufd : list scalar_t) (n : Z) :
  h !! src = Some bufs → h !! dst = Some bufd →
  0 <= n <= Z.of_nat (length bufs) → n <= Z.of_nat (length bufd) →
  for_range 0 n (λ k, v ← read_at (Some src) k; write_at (Some dst) k v) h
  = Some (tt, <[dst := take (Z.to_nat n) bufs ++ drop (Z.to_nat n) bufd]> h).
Proof.
  intros Hs Hd Hn Hnd.
  destruct (for_range_inv
    (λ k s, s = <[dst := take (Z.to_nat k) bufs ++ drop (Z.to_nat k) bufd]> h)
    0 n (λ k, v ← read_at (Some src) k; write_at (Some dst) k v) h)
    as (h' & Hrun & ->); [lia| | |done].
  - simpl. rewrite drop_0. by rewrite insert_id.
  - intros k s Hk ->.
    destruct (lookup_lt_is_Some_2 bufs (Z.to_nat k)) as [v Hv]; [lia|].
    destruct (lookup_lt_is_Some_2 bufd (Z.to_nat k)) as [w Hw]; [lia|].
    assert (read_at (Some src) k
              (<[dst := take (Z.to_nat k) bufs ++ drop (Z.to_nat k) bufd]> h)
            = Some (v, <[dst := take (Z.to_nat k) bufs
                                ++ drop (Z.to_nat k) bufd]> h)) as Hread.
    { unfold read_at. simpl. destruct (decide (src = dst)) as [->|Hne].
      - rewrite lookup_insert_eq. simpl. rewrite decide_True by lia.
        assert (bufs = bufd) as -> by congruence.
        by rewrite take_drop, Hv.
      - rewrite lookup_insert_ne by done. rewrite Hs. simpl.
        rewrite decide_True by lia. by rewrite Hv. }
    rewrite (bind_Some _ _ _ _ _ Hread).
    eexists. split; [|reflexivity].
    unfold write_at. simpl. rewrite lookup_insert_eq. simpl.
    rewrite length_app, length_take, length_drop.
    rewrite decide_True by lia. rewrite insert_insert_eq.
    do 3 f_equal.
    replace (Z.to_nat (k + 1)) with (S (Z.to_nat k)) by lia.
    rewrite (take_S_r _ _ _ Hv), <- app_assoc. simpl.
    rewrite insert_app_r_alt by (rewrite length_take; lia).
    rewrite length_take. replace (Z.to_nat k - Z.to_nat k `min` length bufs)%nat
      with 0%nat by lia.
    by rewrite (drop_S _ _ _ Hw).
Qed.

(** [operator=(const DistributedMatrix<scalar_t>& m)] (lines 696-708):
    [*this] as the assignment leaves it. *)
Definition DistributedMatrix_copy_assign (this m : DistributedMatrix)
  : Cmd (heap scalar_t) DistributedMatrix :=
  this ← (if bool_decide (lrows_ this ≠ lrows_ m)
             || bool_decide (lcols_ this ≠ lcols_ m)
          then
            let this := set_lcols_ (lcols_ m) (set_lrows_ (lrows_ m) this) in
            delete_array (data_ this);;
            a ← new_array s_indet (Int.mul (lrows_ this) (lcols_ this));
            mret (set_data_ a this)
          else mret this);
  let this := set_grid_ (grid_ m) this in
  for_range 0 (Int.mul (lrows_ this) (lcols_ this))
    (λ k, v ← read_at (data_ m) k; write_at (data_ this) k v);;
  mret (set_desc_ (take 9 (desc_ m)) this).

(** X6. The copy constructor makes a deep copy: the new matrix has the
    grid, the local counts and the descriptor of the source and a buffer
    of its own at a fresh address, holding the [lrows*lcols] cells of
    the source; the heap is otherwise unchanged, the source's buffer
    included. *)
Theorem copy_constructor_deep (m : DistributedMatrix) (h : heap scalar_t)
  (a : addr) (buf : list scalar_t) :
  data_ m = Some a → h !! a = Some buf →
  0 <= lrows_ m * lcols_ m <= Int.INT_MAX →
  lrows_ m * lcols_ m <= Z.of_nat (length buf) →
  let b := fresh (dom h) in
  DistributedMatrix_copy m h
  = Some ({| grid_ := grid_ m; data_ := Some b; lrows_ := lrows_ m;
             lcols_ := lcols_ m; desc_ := take 9 (desc_ m);
             wrapper_ := None |},
          <[b := take (Z.to_nat (lrows_ m * lcols_ m)) buf]> h)
  ∧ b ≠ a
  ∧ (<[b := take (Z.to_nat (lrows_ m * lcols_ m)) buf]> h) !! a = Some buf.
Proof.
  intros Hd Ha Hn Hlen b.
  assert (b ≠ a) as Hne.
  { intros Heq. apply (is_fresh (dom h)). fold b. rewrite Heq.
    apply elem_of_dom. by exists buf. }
  split; [|split; [done|by rewrite lookup_insert_ne]].
  unfold DistributedMatrix_copy, lrows, lcols.
  rewrite Int.mul_exact by int_range.
  set (n := lrows_ m * lcols_ m) in *.
  assert (new_array s_indet n h
          = Some (Some b, <[b := replicate (Z.to_nat n) s_indet]> h)) as Hnew.
  { unfold new_array. by rewrite decide_False by lia. }
  rewrite (bind_Some _ _ _ _ _ Hnew). rewrite Hd.
  erewrite bind_Some.
  2: { apply (copy_cells a b _ buf (replicate (Z.to_nat n) s_indet) n).
       - by rewrite lookup_insert_ne.
       - apply lookup_insert_eq.
       - lia.
       - rewrite length_replicate. lia. }
  rewrite insert_insert_eq.
  rewrite drop_ge by (rewrite length_replicate; lia).
  by rewrite app_nil_r.
Qed.


(** X8. Copy assignment from a matrix with other local counts frees the
    buffer of the destination and gives it a new one of the source's
    size holding the source's cells; the source's buffer is unchanged. *)
Theorem copy_assign_reallocates (this m : DistributedMatrix)
  (h : heap scalar_t) (a b : addr) (bufm buft : list scalar_t) :
  lrows_ this ≠ lrows_ m ∨ lcols_ this ≠ lcols_ m →
  data_ m = Some a → h !! a = Some bufm →
  data_ this = Some b → h !! b = Some buft → a ≠ b →
  0 <= lrows_ m * lcols_ m <= Int.INT_MAX →
  lrows_ m * lcols_ m <= Z.of_nat (length bufm) →
  let b' := fresh (dom (delete b h)) in
  DistributedMatrix_copy_assign this m h
  = Some ({| grid_ := grid_ m; data_ := Some b'; lrows_ := lrows_ m;
             lcols_ := lcols_ m; desc_ := take 9 (desc_ m);
             wrapper_ := wrapper_ this |},
          <[b' := take (Z.to_nat (lrows_ m * lcols_ m)) bufm]> (delete b h))
  ∧ b' ≠ a
  ∧ (<[b' := take (Z.to_nat (lrows_ m * lcols_ m)) bufm]> (delete b h)) !! a
    = Some bufm.
Proof.
  intros Hne Hdm Ha Hdt Hb Hab Hn Hlm b'.
  assert ((delete b h) !! a = Some bufm) as Ha'
    by (by rewrite lookup_delete_ne).
  assert (b' ≠ a) as Hne'.
  { intros Heq. apply (is_fresh (dom (delete b h))). fold b'. rewrite Heq.
    apply elem_of_dom. by exists bufm. }
  split; [|split; [done|by rewrite lookup_insert_ne]].
  unfold DistributedMatrix_copy_assign.
  assert (bool_decide (lrows_ this ≠ lrows_ m)
          || bool_decide (lcols_ this ≠ lcols_ m) = true) as ->.
  { destruct Hne; [rewrite bool_decide_true by done; done|].
    rewrite (bool_decide_true (lcols_ this ≠ lcols_ m)) by done.
    apply orb_true_r. }
  simpl. rewrite Hdt. rewrite Int.mul_exact by int_range.
  set (n := lrows_ m * lcols_ m) in *.
  assert (delete_array (Some b) h = Some (tt, delete b h)) as Hdel
    by (unfold delete_array; by rewrite Hb).
  assert (new_array s_indet n (delete b h)
          = Some (Some b', <[b' := replicate (Z.to_nat n) s_indet]>
                             (delete b h))) as Hnew.
  { unfold new_array. by rewrite decide_False by lia. }
  erewrite bind_Some.
  2: { rewrite (bind_Some _ _ _ _ _ Hdel).
       rewrite (bind_Some _ _ _ _ _ Hnew). reflexivity. }
  simpl. rewrite Hdm. rewrite Int.mul_exact by int_range. fold n.
  erewrite bind_Some.
  2: { apply (copy_cells a b' _ bufm (replicate (Z.to_nat n) s_indet) n).
       - by rewrite lookup_insert_ne.
       - apply lookup_insert_eq.
       - lia.
       - rewrite length_replicate. lia. }
  rewrite insert_insert_eq.
  rewrite drop_ge by (rewrite length_replicate; lia).
  by rewrite app_nil_r.
Qed.
End copies.

(** Two 2 by 2 matrices and a 1 by 1 matrix on the 1 by 1 grid, with
    their buffers. *)
Definition left_2x2 : DistributedMatrix :=
  {| grid_ := Some grid_1x1; data_ := Some 1%positive; lrows_ := 2;
     lcols_ := 2; desc_ := descset 2 2 32 32 0 0 0 2; wrapper_ := None |}.
Definition right_2x2 : DistributedMatrix :=
  {| grid_ := Some grid_1x1; data_ := Some 2%positive; lrows_ := 2;
     lcols_ := 2; desc_ := descset 2 2 32 32 0 0 0 2; wrapper_ := None |}.
Definition small_1x1 : DistributedMatrix :=
  {| grid_ := Some grid_1x1; data_ := Some 3%positive; lrows_ := 1;
     lcols_ := 1; desc_ := descset 1 1 32 32 0 0 0 1; wrapper_ := None |}.
Definition three_buffers : heap Z :=
  <[3%positive := [9]]>
    (<[2%positive := [5; 6; 7; 8]]> {[1%positive := [1; 2; 3; 4]]}).

Lemma copy_constructor_deep_witness :
  ∃ b, DistributedMatrix_copy left_2x2 three_buffers
       = Some ({| grid_ := Some grid_1x1; data_ := Some b; lrows_ := 2;
                  lcols_ := 2; desc_ := descset 2 2 32 32 0 0 0 2;
                  wrapper_ := None |},
               <[b := [1; 2; 3; 4]]> three_buffers)
       ∧ b ≠ 1%positive
       ∧ (<[b := [1; 2; 3; 4]]> three_buffers) !! 1%positive
         = Some [1; 2; 3; 4].
Proof.
  eexists.
  apply (copy_constructor_deep left_2x2 three_buffers 1 [1; 2; 3; 4]);
    [reflexivity|reflexivity|vm_compute; split; discriminate
    |vm_compute; discriminate].
Defined.


Lemma copy_assign_reallocates_witness :
  ∃ b, DistributedMatrix_copy_assign small_1x1 left_2x2 three_buffers
       = Some ({| grid_ := Some grid_1x1; data_ := Some b; lrows_ := 2;
                  lcols_ := 2; desc_ := descset 2 2 32 32 0 0 0 2;
                  wrapper_ := None |},
               <[b := [1; 2; 3; 4]]> (delete 3%positive three_buffers))
       ∧ b ≠ 1%positive
       ∧ (<[b := [1; 2; 3; 4]]> (delete 3%positive three_buffers))
           !! 1%positive = Some [1; 2; 3; 4].
Proof.
  eexists.
  apply (copy_assign_reallocates small_1x1 left_2x2 three_buffers 1 3
           [1; 2; 3; 4] [9]);
    try reflexivity; try (left; vm_compute; discriminate);
    try discriminate; vm_compute; try split; discriminate.
Defined.

(** ** Release of the buffer (lines 691-694, 710-719 and 728-733) *)

Section release.
Context {scalar_t : Type} `{!Scalar scalar_t}.

(** X9. [clear()] on a matrix that owns its buffer frees that buffer and
    nothing else, and leaves the matrix empty: no buffer, no local rows
    or columns, [rows() == cols() == 0], with the block sizes and the
    grid it had.  Clearing once more, or destroying the matrix, changes
    nothing and frees nothing. *)
Theorem clear_empties_once (this : DistributedMatrix) (h : heap scalar_t)
  (a : addr) (buf : list scalar_t) :
  wrapper_ this = None → data_ this = Some a → h !! a = Some buf →
  ∃ this',
    DistributedMatrix_clear this h = Some (this', delete a h)
    ∧ data_ this' = None ∧ lrows_ this' = 0 ∧ lcols_ this' = 0
    ∧ rows this' = 0 ∧ cols this' = 0
    ∧ MB this' = MB this ∧ NB this' = NB this ∧ grid_ this' = grid_ this
    ∧ DistributedMatrix_clear this' (delete a h) = Some (this', delete a h)
    ∧ DistributedMatrix_destroy this' (delete a h) = Some (tt, delete a h).
Proof.
  intros Hw Hd Ha. eexists. split.
  { unfold DistributedMatrix_clear, delete_array, mbind, Cmd_bind.
    rewrite Hd, Ha. reflexivity. }
  unfold rows, cols, MB, NB, desc_at. simpl. rewrite Hw.
  do 8 (split; [done|]).
  unfold DistributedMatrix_destroy, DistributedMatrix_clear, delete_array,
    mbind, Cmd_bind. simpl. done.
Qed.

(** X10. Move assignment of a matrix to itself destroys its content: the
    buffer is freed and the data pointer is left null, while the local
    row and column counts stay as they were. *)
Theorem move_assign_self (w : world scalar_t) (x : positive)
  (o : DistributedMatrix) (a : addr) (buf : list scalar_t) :
  objects w !! x = Some o → data_ o = Some a → memory w !! a = Some buf →
  ∃ o',
    DistributedMatrix_move_assign x x w
      = Some (tt, World (<[x := o']> (objects w)) (delete a (memory w)))
    ∧ data_ o' = None
    ∧ lrows_ o' = lrows_ o ∧ lcols_ o' = lcols_ o ∧ grid_ o' = grid_ o.
Proof.
  intros Hx Hd Ha. eexists. split.
  { unfold DistributedMatrix_move_assign.
    unfold mbind at 1, Cmd_bind. rewrite (deref_Some _ _ o) by done.
    unfold mbind at 1, Cmd_bind. rewrite (update_Some _ _ _ o) by done.
    do 3 (unfold mbind at 1, Cmd_bind;
          erewrite deref_Some by (simpl; apply lookup_insert_eq);
          unfold mbind at 1, Cmd_bind;
          erewrite update_Some by (simpl; apply lookup_insert_eq)).
    unfold mbind at 1, Cmd_bind.
    erewrite deref_Some by (simpl; apply lookup_insert_eq).
    unfold mbind at 1, Cmd_bind.
    unfold on_memory; simpl. rewrite Hd. simpl. rewrite Ha. simpl.
    unfold mbind at 1, Cmd_bind.
    erewrite deref_Some by (simpl; apply lookup_insert_eq).
    unfold mbind at 1, Cmd_bind.
    erewrite update_Some by (simpl; apply lookup_insert_eq).
    erewrite update_Some by (simpl; apply lookup_insert_eq).
    simpl. rewrite !insert_insert_eq. reflexivity. }
  done.
Qed.

(** X11. The matrix a move leaves behind cannot be assigned to from the
    matrix it was moved into: it kept its local counts, so the copy
    assignment takes them to agree, allocates nothing and writes through
    the null data pointer.  This is so whenever the local share is not
    empty. *)
Theorem copy_into_moved_from_fails (m : DistributedMatrix)
  (h : heap scalar_t) :
  0 < lrows_ m * lcols_ m <= Int.INT_MAX →
  DistributedMatrix_copy_assign (DistributedMatrix_move m).2
    (DistributedMatrix_move m).1 h = None.
Proof.
  intros Hn. unfold DistributedMatrix_copy_assign, DistributedMatrix_move.
  simpl. unfold lrows, lcols.
  rewrite (bool_decide_false (lrows_ m ≠ lrows_ m)) by (intros Hx; by apply Hx).
  rewrite (bool_decide_false (lcols_ m ≠ lcols_ m)) by (intros Hx; by apply Hx).
  erewrite bind_Some by reflexivity.
  cbn [lrows_ lcols_ data_ set_data_]. rewrite Int.mul_exact by int_range.
  rewrite for_range_step by lia.
  unfold mbind, Cmd_bind, read_at, write_at. simpl.
  destruct (data_ m) as [a|]; simpl; [|done].
  destruct (h !! a) as [buf|]; simpl; [|done].
  by destruct (buf !! Z.to_nat 0) as [v|].
Qed.

End release.

Lemma clear_empties_once_witness :
  ∃ this',
    DistributedMatrix_clear left_2x2 three_buffers
      = Some (this', delete 1%positive three_buffers)
    ∧ data_ this' = None ∧ lrows_ this' = 0 ∧ lcols_ this' = 0
    ∧ rows this' = 0 ∧ cols this' = 0
    ∧ MB this' = MB left_2x2 ∧ NB this' = NB left_2x2
    ∧ grid_ this' = grid_ left_2x2
    ∧ DistributedMatrix_clear this' (delete 1%positive three_buffers)
      = Some (this', delete 1%positive three_buffers)
    ∧ DistributedMatrix_destroy this' (delete 1%positive three_buffers)
      = Some (tt, delete 1%positive three_buffers).
Proof.
  apply (clear_empties_once left_2x2 three_buffers 1 [1; 2; 3; 4]);
    reflexivity.
Defined.

Lemma move_assign_self_witness :
  ∃ o',
    DistributedMatrix_move_assign 1 1
      (World {[1%positive := left_2x2]} three_buffers)
      = Some (tt, World (<[1%positive := o']> {[1%positive := left_2x2]})
                    (delete 1%positive three_buffers))
    ∧ data_ o' = None
    ∧ lrows_ o' = 2 ∧ lcols_ o' = 2 ∧ grid_ o' = Some grid_1x1.
Proof.
  exact (move_assign_self (World {[1%positive := left_2x2]} three_buffers)
           1 left_2x2 1 [1; 2; 3; 4] eq_refl eq_refl eq_refl).
Defined.

Lemma copy_into_moved_from_fails_witness :
  DistributedMatrix_copy_assign (DistributedMatrix_move left_2x2).2
    (DistributedMatrix_move left_2x2).1 three_buffers = None.
Proof.
  apply (copy_into_moved_from_fails left_2x2 three_buffers).
  vm_compute. split; [reflexivity|discriminate].
Defined.


(** ** Fills of the local share (lines 754-817) *)

(** A buffer whose first [k] cells have been updated, cell [i] by
    [G i]. *)
Definition updated_prefix {T} (G : nat → T → T) (k : nat) (buf : list T)
  : list T :=
  imap G (take k buf) ++ drop k buf.

Lemma updated_prefix_0 {T} (G : nat → T → T) buf :
  updated_prefix G 0 buf = buf.
Proof. unfold updated_prefix. by rewrite take_0, drop_0. Qed.

Lemma updated_prefix_length {T} (G : nat → T → T) k buf :
  length (updated_prefix G k buf) = length buf.
Proof.
  unfold updated_prefix.
  rewrite length_app, length_imap, length_take, length_drop. lia.
Qed.

Lemma updated_prefix_lookup {T} (G : nat → T → T) k buf :
  updated_prefix G k buf !! k = buf !! k.
Proof.
  unfold updated_prefix. destruct (decide (k < length buf)%nat).
  - rewrite lookup_app_r by (rewrite length_imap, length_take; lia).
    rewrite length_imap, length_take, lookup_drop. f_equal. lia.
  - rewrite !lookup_ge_None_2; [done|lia|].
    rewrite length_app, length_imap, length_take, length_drop. lia.
Qed.

Lemma updated_prefix_S {T} (G : nat → T → T) k buf v :
  buf !! k = Some v →
  <[k := G k v]> (updated_prefix G k buf) = updated_prefix G (S k) buf.
Proof.
  intros Hv. pose proof (lookup_lt_Some _ _ _ Hv) as Hlt.
  unfold updated_prefix.
  rewrite insert_app_r_alt by (rewrite length_imap, length_take; lia).
  rewrite length_imap, length_take.
  replace (k - k `min` length buf)%nat with 0%nat by lia.
  rewrite (drop_S _ _ _ Hv). simpl.
  rewrite (take_S_r _ _ _ Hv), imap_app, <- app_assoc. simpl.
  rewrite length_take. by replace (k `min` length buf + 0)%nat with k by lia.
Qed.

Lemma updated_prefix_all {T} (G : nat → T → T) k buf :
  (length buf <= k)%nat → updated_prefix G k buf = imap G buf.
Proof.
  intros Hk. unfold updated_prefix.
  by rewrite take_ge, drop_ge, app_nil_r by lia.
Qed.

Section cell_loops.
Context {scalar_t : Type}.
Variables (this : DistributedMatrix) (a : addr).
Variables (h : heap scalar_t) (buf : list scalar_t).
Hypothesis Hdata : data_ this = Some a.
Hypothesis Hbuf : h !! a = Some buf.
Hypothesis Hlr : 0 <= lrows_ this.
Hypothesis Hlc : 0 <= lcols_ this.
Hypothesis Hlen : Z.of_nat (length buf) = lrows_ this * lcols_ this.

(** The two nested loops over the local columns and rows visit the
    cells in the order of the buffer; a body that updates the cell
    [(r, c)] by [F r c] updates the whole buffer. *)
Lemma update_cells (F : Z → Z → scalar_t → scalar_t)
  (body : Z → Z → Cmd (heap scalar_t) unit) :
  (∀ r c buf' v, 0 <= r < lrows_ this → 0 <= c < lcols_ this →
     length buf' = length buf →
     buf' !! Z.to_nat (r + lrows_ this * c) = Some v →
     body r c (<[a := buf']> h)
     = Some (tt, <[a := <[Z.to_nat (r + lrows_ this * c) := F r c v]> buf']>
                   h)) →
  for_range 0 (lcols_ this)
    (λ c, for_range 0 (lrows_ this) (λ r, body r c)) h
  = Some (tt, <[a := imap (λ k v, F (Z.of_nat k `mod` lrows_ this)
                                    (Z.of_nat k `div` lrows_ this) v) buf]>
                h).
Proof.
  intros Hbody.
  set (G := λ (k : nat) v, F (Z.of_nat k `mod` lrows_ this)
                             (Z.of_nat k `div` lrows_ this) v).
  destruct (for_range_inv
    (λ c s, s = <[a := updated_prefix G (Z.to_nat (lrows_ this * c)) buf]> h)
    0 (lcols_ this)
    (λ c, for_range 0 (lrows_ this) (λ r, body r c)) h)
    as (h' & Hrun & ->); [done| | |].
  - rewrite Z.mul_0_r. simpl. rewrite updated_prefix_0. by rewrite insert_id.
  - intros c s Hc ->.
    destruct (for_range_inv
      (λ r s, s = <[a := updated_prefix G
                           (Z.to_nat (lrows_ this * c + r)) buf]> h)
      0 (lrows_ this) (λ r, body r c)
      (<[a := updated_prefix G (Z.to_nat (lrows_ this * c)) buf]> h))
      as (h' & Hrun & ->); [done| | |].
    + by rewrite Z.add_0_r.
    + intros r s Hr ->.
      assert (0 <= lrows_ this * c) by nia.
      assert (lrows_ this * c + r < lrows_ this * lcols_ this) by nia.
      destruct (lookup_lt_is_Some_2 buf (Z.to_nat (lrows_ this * c + r)))
        as [v Hv]; [lia|].
      eexists. split.
      { apply (Hbody r c _ v Hr Hc).
        - apply updated_prefix_length.
        - rewrite (Z.add_comm r). by rewrite updated_prefix_lookup. }
      f_equal. rewrite (Z.add_comm r).
      replace (F r c v) with (G (Z.to_nat (lrows_ this * c + r)) v).
      * rewrite (updated_prefix_S _ _ _ _ Hv). f_equal. lia.
      * unfold G. rewrite Z2Nat.id by lia. f_equal.
        -- rewrite Z.add_comm, Z.mul_comm, Z.mod_add by lia.
           apply Z.mod_small. lia.
        -- rewrite Z.add_comm, Z.mul_comm, Z.div_add by lia.
           rewrite Z.div_small by lia. lia.
    + exists (<[a := updated_prefix G
                      (Z.to_nat (lrows_ this * c + lrows_ this)) buf]> h).
      split; [done|]. do 2 f_equal. lia.
  - rewrite Hrun. do 2 f_equal.
    rewrite updated_prefix_all by lia. done.
Qed.
End cell_loops.

(** The cells [g r c] of [lr] rows and [lc] columns in the order of a
    buffer: what [local_cells] lists. *)
Definition cells {T} (lr lc : Z) (g : Z → Z → T) : list T :=
  c ← seqZ 0 lc; r ← seqZ 0 lr; [g r c].

Lemma bind_singleton_fmap {X Y} (f : X → Y) (l : list X) :
  l ≫= (λ x, [f x]) = f <$> l.
Proof.
  induction l as [|x l IH]; [done|].
  rewrite bind_cons, fmap_cons, IH. done.
Qed.

Lemma cells_succ {T} lr lc (g : Z → Z → T) :
  0 <= lc →
  cells lr (lc + 1) g = cells lr lc g ++ ((λ r, g r lc) <$> seqZ 0 lr).
Proof.
  intros Hlc. unfold cells. rewrite seqZ_snoc by done.
  rewrite bind_app. simpl. by rewrite app_nil_r, bind_singleton_fmap.
Qed.

Lemma cells_length {T} lr lc (g : Z → Z → T) :
  0 <= lr → 0 <= lc → length (cells lr lc g) = Z.to_nat (lr * lc).
Proof.
  intros Hlr Hlc. pattern lc. apply natlike_ind; [|clear lc Hlc|done].
  - by rewrite Z.mul_0_r.
  - intros lc Hlc IH. unfold Z.succ. rewrite cells_succ by done.
    rewrite length_app, IH, length_fmap, length_seqZ. nia.
Qed.

Lemma cells_lookup {T} lr lc (g : Z → Z → T) r c :
  0 <= r < lr → 0 <= c < lc →
  cells lr lc g !! Z.to_nat (r + lr * c) = Some (g r c).
Proof.
  intros Hr Hc. assert (0 <= lc) as Hlc by lia.
  revert c Hc. pattern lc. apply natlike_ind; [|clear lc Hlc|done].
  - intros c Hc. lia.
  - intros lc Hlc IH c Hc. unfold Z.succ in *. rewrite cells_succ by done.
    pose proof (cells_length lr lc g ltac:(lia) Hlc) as Hlen.
    destruct (decide (c = lc)) as [->|Hne].
    + rewrite lookup_app_r by nia. rewrite Hlen.
      replace (Z.to_nat (r + lr * lc) - Z.to_nat (lr * lc))%nat
        with (Z.to_nat r) by nia.
      rewrite list_lookup_fmap, lookup_seqZ_lt by lia. simpl.
      f_equal. f_equal. lia.
    + rewrite lookup_app_l by nia. apply IH. lia.
Qed.

(** A position of the buffer as a row and a column. *)
Lemma cell_of_index lr lc (i : nat) :
  0 <= lr → Z.of_nat i < lr * lc →
  ∃ r c, 0 <= r < lr ∧ 0 <= c < lc ∧ i = Z.to_nat (r + lr * c).
Proof.
  intros Hlr Hi.
  assert (0 < lr) as Hlr' by (destruct (decide (lr = 0)) as [->|]; lia).
  pose proof (Z.div_mod (Z.of_nat i) lr ltac:(lia)) as Hdm.
  pose proof (Z.mod_pos_bound (Z.of_nat i) lr Hlr') as Hm.
  pose proof (Z.div_pos (Z.of_nat i) lr ltac:(lia) Hlr') as Hd.
  exists (Z.of_nat i `mod` lr), (Z.of_nat i `div` lr).
  split; [done|]. split; [nia|lia].
Qed.

Lemma index_of_cell lr r c :
  0 <= r < lr → 0 <= c →
  Z.of_nat (Z.to_nat (r + lr * c)) `mod` lr = r
  ∧ Z.of_nat (Z.to_nat (r + lr * c)) `div` lr = c.
Proof.
  intros Hr Hc. rewrite Z2Nat.id by nia.
  replace (r + lr * c) with (r + c * lr) by ring. split.
  - rewrite Z.mod_add by lia. apply Z.mod_small. lia.
  - rewrite Z.div_add by lia. rewrite Z.div_small by lia. lia.
Qed.

(** Updating every cell of a buffer of cells by its position. *)
Lemma imap_cells {T} lr lc (g : Z → Z → T) (F : Z → Z → T → T) :
  0 <= lr → 0 <= lc →
  imap (λ k v, F (Z.of_nat k `mod` lr) (Z.of_nat k `div` lr) v) (cells lr lc g)
  = cells lr lc (λ r c, F r c (g r c)).
Proof.
  intros Hlr Hlc. apply list_eq. intros i.
  destruct (decide (Z.of_nat i < lr * lc)) as [Hi|Hi].
  - destruct (cell_of_index lr lc i Hlr Hi) as (r & c & Hr & Hc & ->).
    rewrite list_lookup_imap, !cells_lookup by done. simpl.
    destruct (index_of_cell lr r c Hr ltac:(lia)) as [-> ->]. done.
  - rewrite list_lookup_imap.
    rewrite !lookup_ge_None_2; [done| |]; rewrite cells_length by done; lia.
Qed.

Lemma imap_onto_cells {T} lr lc (g : Z → Z → T) (buf : list T) :
  0 <= lr → 0 <= lc → Z.of_nat (length buf) = lr * lc →
  imap (λ k _, g (Z.of_nat k `mod` lr) (Z.of_nat k `div` lr)) buf
  = cells lr lc g.
Proof.
  intros Hlr Hlc Hlen. apply list_eq. intros i.
  destruct (decide (Z.of_nat i < lr * lc)) as [Hi|Hi].
  - destruct (cell_of_index lr lc i Hlr Hi) as (r & c & Hr & Hc & ->).
    rewrite list_lookup_imap, cells_lookup by done.
    destruct (lookup_lt_is_Some_2 buf (Z.to_nat (r + lr * c))) as [v ->];
      [nia|]. simpl.
    destruct (index_of_cell lr r c Hr ltac:(lia)) as [-> ->]. done.
  - rewrite list_lookup_imap.
    rewrite !lookup_ge_None_2; [done| |]; rewrite ?cells_length by done; lia.
Qed.

Section fills.
Context {scalar_t : Type} `{!Scalar scalar_t} `{!ScaLAPACK scalar_t}.
Variables (this : DistributedMatrix) (a : addr).
Variables (h : heap scalar_t) (buf : list scalar_t).
Hypothesis Hact : active this = true.
Hypothesis Hown : wrapper_ this = None.
Hypothesis Hdata : data_ this = Some a.
Hypothesis Hbuf : h !! a = Some buf.
Hypothesis Hlr : 0 <= lrows_ this.
Hypothesis Hlc : 0 <= lcols_ this.
Hypothesis Hlen : Z.of_nat (length buf) = lrows_ this * lcols_ this.
Hypothesis Hsz : lrows_ this * lcols_ this <= Int.INT_MAX.

Lemma set_cell r c v (buf' : list scalar_t) :
  0 <= r < lrows_ this → 0 <= c < lcols_ this →
  length buf' = length buf →
  set_elem this r c v (<[a := buf']> h)
  = Some (tt, <[a := <[Z.to_nat (r + lrows_ this * c) := v]> buf']> h).
Proof.
  intros Hr Hc Hl. unfold set_elem, write_at.
  rewrite elem_index_exact by done. rewrite Hdata. simpl.
  rewrite lookup_insert_eq. simpl.
  pose proof (cell_range (lrows_ this) (lcols_ this) r c Hr Hc).
  rewrite decide_True by lia. by rewrite insert_insert_eq.
Qed.

Lemma get_cell r c v (buf' : list scalar_t) :
  0 <= r < lrows_ this → 0 <= c < lcols_ this →
  buf' !! Z.to_nat (r + lrows_ this * c) = Some v →
  get_elem this r c (<[a := buf']> h) = Some (v, <[a := buf']> h).
Proof.
  intros Hr Hc Hv. unfold get_elem, read_at.
  rewrite elem_index_exact by done. rewrite Hdata. simpl.
  rewrite lookup_insert_eq. simpl.
  pose proof (cell_range (lrows_ this) (lcols_ this) r c Hr Hc).
  rewrite decide_True by lia. by rewrite Hv.
Qed.

(** X13. On an active matrix that owns its buffer, [fill(v)] makes every
    cell of the local share [v] and [zero()] makes every cell 0; no
    other buffer changes. *)
Theorem fill_sets_every_cell (v : scalar_t) :
  fill this v h = Some (tt, <[a := replicate (length buf) v]> h)
  ∧ zero this h = Some (tt, <[a := replicate (length buf) s_zero]> h).
Proof.
  assert (∀ x : scalar_t,
    for_range 0 (lcols_ this)
      (λ c, for_range 0 (lrows_ this) (λ r, set_elem this r c x)) h
    = Some (tt, <[a := replicate (length buf) x]> h)) as Hfill.
  { intros x.
    rewrite (update_cells this a h buf Hbuf Hlr Hlc Hlen
               (λ _ _ _, x) (λ r c, set_elem this r c x)).
    - do 3 f_equal. apply list_eq. intros i. rewrite list_lookup_imap.
      destruct (decide (i < length buf)%nat).
      + destruct (lookup_lt_is_Some_2 buf i) as [w ->]; [done|]. simpl.
        by rewrite lookup_replicate_2.
      + rewrite (lookup_ge_None_2 buf) by lia. simpl. symmetry.
        apply lookup_ge_None_2. rewrite length_replicate. lia.
    - intros r c buf' w Hr Hc Hl _. by apply set_cell. }
  unfold fill, zero, lranges. rewrite Hact, Hown. simpl.
  unfold lrows, lcols. split.
  - erewrite bind_Some by reflexivity. apply Hfill.
  - erewrite bind_Some by reflexivity. apply Hfill.
Qed.
End fills.


Section diagonal_fills.
Context {scalar_t : Type} `{!Scalar scalar_t} `{!ScaLAPACK scalar_t}.
Variables (this : DistributedMatrix) (g : BLACSGrid) (a : addr).
Variables (h : heap scalar_t) (buf : list scalar_t).
Hypothesis Hok : layout_ok this g.
Hypothesis Hdata : data_ this = Some a.
Hypothesis Hbuf : h !! a = Some buf.
Hypothesis Hlen : Z.of_nat (length buf) = lrows_ this * lcols_ this.

Lemma layout_local_size :
  0 <= lrows_ this ∧ 0 <= lcols_ this
  ∧ lrows_ this * lcols_ this <= Int.INT_MAX.
Proof.
  pose proof (layout_lrows_range _ _ Hok). pose proof (layout_lcols_range _ _ Hok).
  pose proof (lo_size _ _ Hok). split; [lia|]. split; [lia|nia].
Qed.

(** The share of this worker of the matrix with the entries [f r c]. *)
Definition share_of (f : Z → Z → scalar_t) : list scalar_t :=
  local_cells (g_nprows g) (g_npcols g) (MB this) (NB this)
    (rows this) (cols this) f (g_prow g) (g_pcol g).

Lemma share_of_cells (f : Z → Z → scalar_t) :
  share_of f
  = cells (lrows_ this) (lcols_ this)
      (λ r c, f (l2g0 r (MB this) (g_prow g) (g_nprows g))
                (l2g0 c (NB this) (g_pcol g) (g_npcols g))).
Proof.
  unfold share_of, local_cells, cells.
  by rewrite (lo_lrows _ _ Hok), (lo_lcols _ _ Hok).
Qed.


End diagonal_fills.

Lemma fill_sets_every_cell_witness :
  fill (blocks_of_2 1 0).1 7 (blocks_of_2 1 0).2
  = Some (tt, <[1%positive :=
                  replicate
                    (length (local_cells 2 2 2 2 7 5 (λ r c, 10 * r + c) 1 0))
                    7]> (blocks_of_2 1 0).2)
  ∧ zero (blocks_of_2 1 0).1 (blocks_of_2 1 0).2
    = Some (tt, <[1%positive :=
                    replicate
                      (length (local_cells 2 2 2 2 7 5 (λ r c, 10 * r + c)
                                 1 0))
                      s_zero]> (blocks_of_2 1 0).2).
Proof.
  refine (fill_sets_every_cell (scalar_t := Z) (blocks_of_2 1 0).1 1
            (blocks_of_2 1 0).2
            (local_cells 2 2 2 2 7 5 (λ r c, 10 * r + c) 1 0)
            _ _ _ _ _ _ _ _ 7).
  - vm_compute; reflexivity.
  - vm_compute; reflexivity.
  - vm_compute; reflexivity.
  - vm_compute; reflexivity.
  - vm_compute; discriminate.
  - vm_compute; discriminate.
  - vm_compute; reflexivity.
  - vm_compute; discriminate.
Defined.



(** ** Element-wise sum (lines 1021-1036) *)

Section sums.
Context {scalar_t : Type} `{!Scalar scalar_t} `{!ScaLAPACK scalar_t}.

(** [add(B)] (lines 1021-1036); the function returns [*this]. *)
Definition add (this B : DistributedMatrix) : Cmd (heap scalar_t) unit :=
  if negb (active this) then mret tt else
  rg ← liftM (lranges this);
  let '(rlo, rhi, clo, chi) := rg in
  rgB ← liftM (lranges B);
  let '(Brlo, Brhi, Bclo, Bchi) := rgB in
  let lc := Int.sub chi clo in
  let lr := Int.sub rhi rlo in
  for_range 0 lc (λ c,
    for_range 0 lr (λ r,
      y ← get_elem B (Int.add r Brlo) (Int.add c Bclo);
      x ← get_elem this (Int.add r rlo) (Int.add c clo);
      set_elem this (Int.add r rlo) (Int.add c clo) (s_add x y))).

(** X18. [add(B)] on an active matrix, with [B] of the same local counts
    in another buffer (both own their buffers): every cell of the local
    share becomes the sum of the cell and of the cell of [B] at the same
    place; the buffer of [B] and every other buffer are unchanged. *)
Theorem add_is_cellwise_sum (this B : DistributedMatrix)
  (h : heap scalar_t) (a b : addr) (bufA bufB : list scalar_t) :
  active this = true → wrapper_ this = None → wrapper_ B = None →
  data_ this = Some a → data_ B = Some b → a ≠ b →
  h !! a = Some bufA → h !! b = Some bufB →
  lrows_ B = lrows_ this → lcols_ B = lcols_ this →
  0 <= lrows_ this <= Int.INT_MAX → 0 <= lcols_ this <= Int.INT_MAX →
  lrows_ this * lcols_ this <= Int.INT_MAX →
  Z.of_nat (length bufA) = lrows_ this * lcols_ this →
  Z.of_nat (length bufB) = lrows_ this * lcols_ this →
  add this B h = Some (tt, <[a := zip_with s_add bufA bufB]> h)
  ∧ (<[a := zip_with s_add bufA bufB]> h) !! b = Some bufB.
Proof.
  intros Hact HwA HwB HdA HdB Hab HA HB HlrB HlcB [Hlr Hlr'] [Hlc Hlc'] Hsz
    HlenA HlenB.
  split; [|by rewrite lookup_insert_ne].
  unfold add, lranges. rewrite Hact, HwA, HwB. simpl.
  erewrite bind_Some by reflexivity. cbv beta iota.
  erewrite bind_Some by reflexivity. cbv beta iota.
  unfold lrows, lcols.
  rewrite !Int.sub_exact by int_range. rewrite !Z.sub_0_r.
  rewrite (update_cells this a h bufA HA Hlr Hlc HlenA
             (λ r c v, s_add v (default s_indet
                                  (bufB !! Z.to_nat (r + lrows_ this * c))))).
  - do 3 f_equal. apply list_eq. intros i.
    rewrite list_lookup_imap, lookup_zip_with.
    destruct (bufA !! i) as [x|] eqn:Hx; [|done]. simpl.
    pose proof (lookup_lt_Some _ _ _ Hx) as Hi.
    destruct (lookup_lt_is_Some_2 bufB i) as [y Hy]; [lia|].
    rewrite Hy. simpl. do 2 f_equal.
    assert (0 < lrows_ this) as Hpos
      by (destruct (decide (lrows_ this = 0)) as [Hz|]; [rewrite Hz in *|]; lia).
    pose proof (Z.div_mod (Z.of_nat i) (lrows_ this) ltac:(lia)) as Hdm.
    rewrite Z.add_comm, <- Hdm, Nat2Z.id, Hy. done.
  - intros r c buf' v Hr Hc Hl Hv.
    pose proof (cell_range (lrows_ this) (lcols_ this) r c Hr Hc) as Hrange.
    destruct (lookup_lt_is_Some_2 bufB (Z.to_nat (r + lrows_ this * c)))
      as [y Hy]; [lia|].
    rewrite !Int.add_exact by int_range. rewrite !Z.add_0_r.
    assert (get_elem B r c (<[a := buf']> h)
            = Some (y, <[a := buf']> h)) as HgetB.
    { unfold get_elem, read_at. rewrite elem_index_exact by lia.
      rewrite HdB, HlrB. simpl. rewrite lookup_insert_ne by done.
      rewrite HB. simpl. rewrite decide_True by lia. by rewrite Hy. }
    rewrite (bind_Some _ _ _ _ _ HgetB).
    erewrite bind_Some
      by (apply (get_cell this a h bufA); eassumption).
    rewrite Hy. simpl.
    by apply (set_cell this a h bufA).
Qed.
End sums.

Lemma add_is_cellwise_sum_witness :
  add right_2x2 left_2x2 three_buffers
  = Some (tt, <[2%positive := [6; 8; 10; 12]]> three_buffers)
  ∧ (<[2%positive := [6; 8; 10; 12]]> three_buffers) !! 1%positive
    = Some [1; 2; 3; 4].
Proof.
  refine (add_is_cellwise_sum (scalar_t := Z) right_2x2 left_2x2
            three_buffers 2 1 [5; 6; 7; 8] [1; 2; 3; 4]
            _ _ _ _ _ _ _ _ _ _ _ _ _ _ _).
  all: try reflexivity; try discriminate; vm_compute; try split; discriminate.
Defined.

(** ** Resizing (lines 735-742) *)

Lemma cells_ext {T} lr lc (g g' : Z → Z → T) :
  0 <= lr → 0 <= lc →
  (∀ r c, 0 <= r < lr → 0 <= c < lc → g r c = g' r c) →
  cells lr lc g = cells lr lc g'.
Proof.
  intros Hlr Hlc Hg. apply list_eq. intros i.
  destruct (decide (Z.of_nat i < lr * lc)) as [Hi|Hi].
  - destruct (cell_of_index lr lc i Hlr Hi) as (r & c & Hr & Hc & ->).
    rewrite !cells_lookup by done. by rewrite Hg.
  - rewrite !lookup_ge_None_2; [done|rewrite cells_length by done; lia..].
Qed.

Lemma cells_insert {T} lr lc (g : Z → Z → T) r c v :
  0 <= r < lr → 0 <= c < lc →
  <[Z.to_nat (r + lr * c) := v]> (cells lr lc g)
  = cells lr lc (λ r' c', if decide (r' = r ∧ c' = c) then v else g r' c').
Proof.
  intros Hr Hc. apply list_eq. intros i.
  pose proof (cell_range lr lc r c Hr Hc) as Hrange.
  destruct (decide (i = Z.to_nat (r + lr * c))) as [->|Hne].
  - rewrite list_lookup_insert_eq by (rewrite cells_length by lia; lia).
    rewrite cells_lookup by done. by rewrite decide_True.
  - rewrite list_lookup_insert_ne by done.
    destruct (decide (Z.of_nat i < lr * lc)) as [Hi|Hi].
    + destruct (cell_of_index lr lc i ltac:(lia) Hi)
        as (r' & c' & Hr' & Hc' & ->).
      rewrite !cells_lookup by done.
      rewrite decide_False; [done|]. intros [-> ->]. done.
    + rewrite !lookup_ge_None_2; [done|rewrite cells_length by lia; lia..].
Qed.

Lemma cells_const {T} lr lc (v : T) :
  0 <= lr → 0 <= lc →
  cells lr lc (λ _ _, v) = replicate (Z.to_nat (lr * lc)) v.
Proof.
  intros Hlr Hlc. apply list_eq. intros i.
  destruct (decide (Z.of_nat i < lr * lc)) as [Hi|Hi].
  - destruct (cell_of_index lr lc i Hlr Hi) as (r & c & Hr & Hc & ->).
    rewrite cells_lookup by done. symmetry. apply lookup_replicate_2.
    pose proof (cell_range lr lc r c Hr Hc). lia.
  - rewrite !lookup_ge_None_2; [done| |].
    + rewrite length_replicate. lia.
    + rewrite cells_length by done. lia.
Qed.

Section resizing.
Context {scalar_t : Type} `{!Scalar scalar_t}.

(** [resize(m, n)] (lines 735-742): [*this] as the function leaves it.
    The sizes are [std::size_t] and the constructor takes them as [int];
    [tmp] is moved into [*this] and destroyed at the end of the
    function. *)
Definition DistributedMatrix_resize (this : DistributedMatrix) (m n : Z)
  : Cmd (heap scalar_t) DistributedMatrix :=
  tmp ← DistributedMatrix_new (grid_ this) (Int.wrap (to_size_t m))
          (Int.wrap (to_size_t n)) (MB this) (NB this);
  for_range 0 (Int.min (lcols this) (lcols tmp)) (λ c,
    for_range 0 (Int.min (lrows this) (lrows tmp)) (λ r,
      v ← get_elem this r c; set_elem tmp r c v));;
  assign_temporary this tmp.

End resizing.

